(** * AudioCallApp: the call-session engine of audiorealm-connect

    A shallow embedding of [src/components/AudioCallApp.tsx]: the React
    component's state hooks, its refs, the closures its memoised callbacks
    hold, and the browser objects it drives (WebSocket, MediaStream,
    MediaRecorder, timers, promises).  Every event-loop task is one
    [Event]; its handler is a function on [World].

    Conventions.
    - A React state hook is a field of [World]; [setX (prev => ...)] is a
      functional update of that field.  A re-render follows every task
      ([render]), where [useCallback] re-creates a callback exactly when one
      of its dependencies changed.
    - A closure's captured [callState] is stored with the object that holds
      the closure: a socket keeps the [callState] its handlers closed over,
      a recorder the one its [ondataavailable] closed over.
    - An [await] is a pending [Task]; the browser resolves it by a later
      event.  [setTimeout] is a pending task with a due time.
    - The call engine comes first.  In it the [duration] field stays as
      [endCall] and the initial state set it; the duration timer, the stored
      API key and the configuration screen are added around the engine in
      the part on the shell of the component, and the earlier revision of
      the file has a part of its own.  The markup is out of the model.
    - Taken for granted: the API key and [toast] do not change during a
      call, [new WebSocket] does not throw, and [Blob.arrayBuffer] resolves. *)

From stdpp Require Import base option list strings pretty.
From Stdlib Require Import Lia Ascii ZArith.

Open Scope string_scope.
Open Scope list_scope.

(** ** Data model (lines 10-23 of the source) *)

Inductive Status := idle | connecting | connected | disconnected.

Record CallState := mkCallState {
  isActive : bool;
  startTime : option nat;
  duration : string;
  isMuted : bool;
  speakerEnabled : bool;
  status : Status
}.

Inductive Speaker := AI | User.

Record ConversationMessage := mkMessage {
  speaker : Speaker;
  message : string;
  timestamp : nat
}.

#[global] Instance Status_eq_dec : EqDecision Status.
Proof. solve_decision. Defined.
#[global] Instance CallState_eq_dec : EqDecision CallState.
Proof. solve_decision. Defined.
#[global] Instance Speaker_eq_dec : EqDecision Speaker.
Proof. solve_decision. Defined.
#[global] Instance ConversationMessage_eq_dec : EqDecision ConversationMessage.
Proof. solve_decision. Defined.

(** The object literal of [useState<CallState>] and of [endCall]. *)
Definition idleCallState : CallState :=
  mkCallState false None "00:00" false true idle.

Definition with_status (s : Status) (c : CallState) : CallState :=
  mkCallState (isActive c) (startTime c) (duration c) (isMuted c) (speakerEnabled c) s.

Definition with_isMuted (b : bool) (c : CallState) : CallState :=
  mkCallState (isActive c) (startTime c) (duration c) b (speakerEnabled c) (status c).

Definition with_speakerEnabled (b : bool) (c : CallState) : CallState :=
  mkCallState (isActive c) (startTime c) (duration c) (isMuted c) b (status c).

(** [{ ...prev, isActive: true, startTime: Date.now(), status: 'connecting' }] *)
Definition activated (now : nat) (c : CallState) : CallState :=
  mkCallState true (Some now) (duration c) (isMuted c) (speakerEnabled c) connecting.

(** ** Browser objects *)

(** A [Blob]: an identity and its [size]. *)
Record Blob := mkBlob { blob_id : nat; blob_size : nat }.

Inductive ReadyState := CONNECTING | OPEN | CLOSING | CLOSED.

(** A WebSocket created by [connectToLiveAPI].  Its four handlers are
    closures of that call; [ws_env] is the [callState] they closed over. *)
Record WebSocket := mkWebSocket {
  readyState : ReadyState;
  ws_env : CallState;
  closeFired : bool
}.

(** A MediaStreamTrack: the [enabled] attribute and whether [stop()] ran. *)
Record Track := mkTrack { enabled : bool; stopped : bool }.

Inductive RecorderState := recording | flushing | inactive.

(** A MediaRecorder: [rec_env] is the [callState] its [ondataavailable]
    handler closed over.  [flushing]: [stop()] was called and the last
    [dataavailable] is still to be delivered. *)
Record Recorder := mkRecorder {
  rec_stream : nat;
  rec_state : RecorderState;
  rec_env : CallState
}.

Inductive AudioSource :=
| InlineAudio (type : string)   (* new Audio(URL of a Blob of this type) *)
| BinaryBuffer.                 (* AudioBufferSourceNode of a decoded frame *)

Inductive AudioState := starting | playing | rejected | ended.

Record Audio := mkAudio { a_source : AudioSource; a_state : AudioState }.

#[global] Instance ReadyState_eq_dec : EqDecision ReadyState.
Proof. solve_decision. Defined.
#[global] Instance RecorderState_eq_dec : EqDecision RecorderState.
Proof. solve_decision. Defined.
#[global] Instance AudioState_eq_dec : EqDecision AudioState.
Proof. solve_decision. Defined.

(** ** Protocol messages (section 6 of the specification) *)

Inductive OutMsg :=
| SetupMessage                                   (* { setup: {...} } *)
| RealtimeInput (mimeType : string) (data : Blob). (* { realtimeInput: { mediaChunks: [...] } } *)

Record InlineData := mkInline { mimeType : option string; data : string }.

Record Part := mkPart { text : option string; inlineData : option InlineData }.

(** What [JSON.parse(event.data)] yields, as far as [onmessage] inspects it:
    [data.serverContent?.modelTurn?.parts] and the truthiness of
    [data.setupComplete]. *)
Record ServerMessage := mkServerMessage {
  parts : option (list Part);
  setupComplete : bool
}.

Inductive Frame :=
| BinaryFrame (b : Blob)                      (* event.data instanceof Blob *)
| TextFrame (parsed : option ServerMessage).  (* None: JSON.parse throws *)

(** ** Observable effects *)

Inductive Toast :=
| ToastConectado | ToastErroConexao | ToastChamadaEncerrada
| ToastPermissaoNegada | ToastAcessoNegado | ToastErroMicrofone | ToastErro
| ToastErroAudio.

Inductive Log :=
| ErrNoSupportedFormat            (* 'No supported audio format found' *)
| ErrPlayingAudioResponse         (* 'Error playing audio response:' *)
| LogTypeNotSupported (type : string)
| LogFailedWithType (type : string)
| LogAudioPlaying (type : string)
| LogWebSocketNotReady            (* 'WebSocket not ready for sending audio' *)
| ErrSendingAudio                 (* 'Error sending audio data:' *)
| LogAudioSent                    (* 'Audio data sent successfully' *)
| ErrStreamingSetup               (* 'Error setting up audio streaming:' *)
| ErrHandlingMessage              (* 'Error handling WebSocket message:' *)
| ErrDecodingAudio                (* 'Error decoding audio data:' *)
| ErrMicrophoneAccess             (* 'Microphone access error:' *)
| ErrStartingCall.                (* 'Error starting call:' *)

(** ** Pending asynchronous continuations *)

Inductive Task :=
| AwaitPermission (connect_env : CallState)  (* startCall at permissions.query *)
| AwaitUserMedia (connect_env : CallState)   (* startCall at getUserMedia *)
| SetupTimer (due : nat)                     (* setTimeout(..., 100) of onopen *)
| StreamTimer (due : nat) (env : CallState)  (* setTimeout(..., 500) of the setupComplete branch *)
| AwaitArrayBuffer (b : Blob)                (* sendAudioData at audioBlob.arrayBuffer() *)
| AwaitReader (env : CallState)              (* FileReader.readAsArrayBuffer of a binary frame *)
| AwaitDecode                                (* audioContext.decodeAudioData *)
| AwaitPlay (audio : nat) (type : string).   (* the promise of audio.play() *)

(** ** The world *)

Record World := mkWorld {
  (* state hooks *)
  callState : CallState;
  showCallModal : bool;
  conversation : list ConversationMessage;
  isRecording : bool;
  (* refs *)
  wsRef : option nat;
  mediaStreamRef : option nat;
  mediaRecorderRef : option nat;
  (* memoised closures *)
  connectEnv : CallState;   (* the callState the current connectToLiveAPI closed over *)
  muteEnv : bool;           (* callState.isMuted as the current toggleMute closed over it *)
  (* browser heap *)
  sockets : list WebSocket;
  streams : list (list Track);
  recorders : list Recorder;
  audios : list Audio;
  tasks : list (option Task);
  now : nat;
  (* effects *)
  wire : list (nat * OutMsg);      (* frames transmitted, with the socket that carried them *)
  toasts : list Toast;
  console : list Log;
  tried : list string;             (* ghost: MIME type of every candidate playAudioResponse entered *)
  playCalls : list (string * string) (* ghost: arguments of every playAudioResponse call *)
}.

(** Functional updates of one field, the others untouched. *)

Definition set_callState (f : CallState -> CallState) (w : World) : World :=
  mkWorld (f (callState w)) (showCallModal w) (conversation w) (isRecording w) (wsRef w)
      (mediaStreamRef w) (mediaRecorderRef w) (connectEnv w) (muteEnv w) (sockets w)
      (streams w) (recorders w) (audios w) (tasks w) (now w) (wire w) (toasts w) (console
      w) (tried w) (playCalls w).

Definition set_showCallModal (f : bool -> bool) (w : World) : World :=
  mkWorld (callState w) (f (showCallModal w)) (conversation w) (isRecording w) (wsRef w)
      (mediaStreamRef w) (mediaRecorderRef w) (connectEnv w) (muteEnv w) (sockets w)
      (streams w) (recorders w) (audios w) (tasks w) (now w) (wire w) (toasts w) (console
      w) (tried w) (playCalls w).

Definition set_conversation (f : list ConversationMessage -> list ConversationMessage) (w : World) : World :=
  mkWorld (callState w) (showCallModal w) (f (conversation w)) (isRecording w) (wsRef w)
      (mediaStreamRef w) (mediaRecorderRef w) (connectEnv w) (muteEnv w) (sockets w)
      (streams w) (recorders w) (audios w) (tasks w) (now w) (wire w) (toasts w) (console
      w) (tried w) (playCalls w).

Definition set_isRecording (f : bool -> bool) (w : World) : World :=
  mkWorld (callState w) (showCallModal w) (conversation w) (f (isRecording w)) (wsRef w)
      (mediaStreamRef w) (mediaRecorderRef w) (connectEnv w) (muteEnv w) (sockets w)
      (streams w) (recorders w) (audios w) (tasks w) (now w) (wire w) (toasts w) (console
      w) (tried w) (playCalls w).

Definition set_wsRef (f : option nat -> option nat) (w : World) : World :=
  mkWorld (callState w) (showCallModal w) (conversation w) (isRecording w) (f (wsRef w))
      (mediaStreamRef w) (mediaRecorderRef w) (connectEnv w) (muteEnv w) (sockets w)
      (streams w) (recorders w) (audios w) (tasks w) (now w) (wire w) (toasts w) (console
      w) (tried w) (playCalls w).

Definition set_mediaStreamRef (f : option nat -> option nat) (w : World) : World :=
  mkWorld (callState w) (showCallModal w) (conversation w) (isRecording w) (wsRef w) (f
      (mediaStreamRef w)) (mediaRecorderRef w) (connectEnv w) (muteEnv w) (sockets w)
      (streams w) (recorders w) (audios w) (tasks w) (now w) (wire w) (toasts w) (console
      w) (tried w) (playCalls w).

Definition set_mediaRecorderRef (f : option nat -> option nat) (w : World) : World :=
  mkWorld (callState w) (showCallModal w) (conversation w) (isRecording w) (wsRef w)
      (mediaStreamRef w) (f (mediaRecorderRef w)) (connectEnv w) (muteEnv w) (sockets w)
      (streams w) (recorders w) (audios w) (tasks w) (now w) (wire w) (toasts w) (console
      w) (tried w) (playCalls w).

Definition set_connectEnv (f : CallState -> CallState) (w : World) : World :=
  mkWorld (callState w) (showCallModal w) (conversation w) (isRecording w) (wsRef w)
      (mediaStreamRef w) (mediaRecorderRef w) (f (connectEnv w)) (muteEnv w) (sockets w)
      (streams w) (recorders w) (audios w) (tasks w) (now w) (wire w) (toasts w) (console
      w) (tried w) (playCalls w).

Definition set_muteEnv (f : bool -> bool) (w : World) : World :=
  mkWorld (callState w) (showCallModal w) (conversation w) (isRecording w) (wsRef w)
      (mediaStreamRef w) (mediaRecorderRef w) (connectEnv w) (f (muteEnv w)) (sockets w)
      (streams w) (recorders w) (audios w) (tasks w) (now w) (wire w) (toasts w) (console
      w) (tried w) (playCalls w).

Definition set_sockets (f : list WebSocket -> list WebSocket) (w : World) : World :=
  mkWorld (callState w) (showCallModal w) (conversation w) (isRecording w) (wsRef w)
      (mediaStreamRef w) (mediaRecorderRef w) (connectEnv w) (muteEnv w) (f (sockets w))
      (streams w) (recorders w) (audios w) (tasks w) (now w) (wire w) (toasts w) (console
      w) (tried w) (playCalls w).

Definition set_streams (f : list (list Track) -> list (list Track)) (w : World) : World :=
  mkWorld (callState w) (showCallModal w) (conversation w) (isRecording w) (wsRef w)
      (mediaStreamRef w) (mediaRecorderRef w) (connectEnv w) (muteEnv w) (sockets w) (f
      (streams w)) (recorders w) (audios w) (tasks w) (now w) (wire w) (toasts w) (console
      w) (tried w) (playCalls w).

Definition set_recorders (f : list Recorder -> list Recorder) (w : World) : World :=
  mkWorld (callState w) (showCallModal w) (conversation w) (isRecording w) (wsRef w)
      (mediaStreamRef w) (mediaRecorderRef w) (connectEnv w) (muteEnv w) (sockets w)
      (streams w) (f (recorders w)) (audios w) (tasks w) (now w) (wire w) (toasts w)
      (console w) (tried w) (playCalls w).

Definition set_audios (f : list Audio -> list Audio) (w : World) : World :=
  mkWorld (callState w) (showCallModal w) (conversation w) (isRecording w) (wsRef w)
      (mediaStreamRef w) (mediaRecorderRef w) (connectEnv w) (muteEnv w) (sockets w)
      (streams w) (recorders w) (f (audios w)) (tasks w) (now w) (wire w) (toasts w)
      (console w) (tried w) (playCalls w).

Definition set_tasks (f : list (option Task) -> list (option Task)) (w : World) : World :=
  mkWorld (callState w) (showCallModal w) (conversation w) (isRecording w) (wsRef w)
      (mediaStreamRef w) (mediaRecorderRef w) (connectEnv w) (muteEnv w) (sockets w)
      (streams w) (recorders w) (audios w) (f (tasks w)) (now w) (wire w) (toasts w)
      (console w) (tried w) (playCalls w).

Definition set_now (f : nat -> nat) (w : World) : World :=
  mkWorld (callState w) (showCallModal w) (conversation w) (isRecording w) (wsRef w)
      (mediaStreamRef w) (mediaRecorderRef w) (connectEnv w) (muteEnv w) (sockets w)
      (streams w) (recorders w) (audios w) (tasks w) (f (now w)) (wire w) (toasts w)
      (console w) (tried w) (playCalls w).

Definition set_wire (f : list (nat * OutMsg) -> list (nat * OutMsg)) (w : World) : World :=
  mkWorld (callState w) (showCallModal w) (conversation w) (isRecording w) (wsRef w)
      (mediaStreamRef w) (mediaRecorderRef w) (connectEnv w) (muteEnv w) (sockets w)
      (streams w) (recorders w) (audios w) (tasks w) (now w) (f (wire w)) (toasts w)
      (console w) (tried w) (playCalls w).

Definition set_toasts (f : list Toast -> list Toast) (w : World) : World :=
  mkWorld (callState w) (showCallModal w) (conversation w) (isRecording w) (wsRef w)
      (mediaStreamRef w) (mediaRecorderRef w) (connectEnv w) (muteEnv w) (sockets w)
      (streams w) (recorders w) (audios w) (tasks w) (now w) (wire w) (f (toasts w))
      (console w) (tried w) (playCalls w).

Definition set_console (f : list Log -> list Log) (w : World) : World :=
  mkWorld (callState w) (showCallModal w) (conversation w) (isRecording w) (wsRef w)
      (mediaStreamRef w) (mediaRecorderRef w) (connectEnv w) (muteEnv w) (sockets w)
      (streams w) (recorders w) (audios w) (tasks w) (now w) (wire w) (toasts w) (f
      (console w)) (tried w) (playCalls w).

Definition set_tried (f : list string -> list string) (w : World) : World :=
  mkWorld (callState w) (showCallModal w) (conversation w) (isRecording w) (wsRef w)
      (mediaStreamRef w) (mediaRecorderRef w) (connectEnv w) (muteEnv w) (sockets w)
      (streams w) (recorders w) (audios w) (tasks w) (now w) (wire w) (toasts w) (console
      w) (f (tried w)) (playCalls w).

Definition set_playCalls (f : list (string * string) -> list (string * string)) (w : World) : World :=
  mkWorld (callState w) (showCallModal w) (conversation w) (isRecording w) (wsRef w)
      (mediaStreamRef w) (mediaRecorderRef w) (connectEnv w) (muteEnv w) (sockets w)
      (streams w) (recorders w) (audios w) (tasks w) (now w) (wire w) (toasts w) (console
      w) (tried w) (f (playCalls w)).

(** ** The browser: what the page cannot decide *)

(** Outcome of one iteration of the candidate loop of [playAudioResponse],
    up to the point where [audio.play()] has returned. *)
Inductive PlayOutcome :=
| BlobThrows                     (* new Blob / createObjectURL throws: audioUrl not assigned *)
| PlayThrows                     (* new Audio / audio.play() throws: audioUrl was assigned *)
| PlayReturns (promise : bool).  (* audio.play() returned a promise, or undefined *)

Record Browser := mkBrowser {
  atob : string -> option string;        (* None: InvalidCharacterError *)
  audioFacility : string -> PlayOutcome;
  recorderSupported : bool               (* new MediaRecorder(stream, opus) and start(250) succeed *)
}.

Inductive PermissionState := granted | denied | prompt.

Inductive MediaResult :=
| MediaGranted (ntracks : nat)   (* getUserMedia resolves with a stream of audio tracks *)
| NotAllowedError
| OtherMediaError.

(** One task of the event loop. *)
Inductive Event :=
| ClickStart | ClickEnd | ClickMute | ClickSpeaker
| PermissionResult (t : nat) (r : option PermissionState)  (* None: the query rejects *)
| UserMediaResult (t : nat) (r : MediaResult)
| WsOpen (k : nat)
| WsMessage (k : nat) (f : Frame)
| WsClosed (k : nat) (failed : bool)   (* failed: an error event precedes the close event *)
| TimerFire (t : nat)
| DataAvailable (r : nat) (b : Blob)
| BufferReady (t : nat)
| ReaderLoaded (t : nat) (result : bool)
| DecodeResult (t : nat) (ok : bool)
| PlayResult (t : nat) (ok : bool)
| AudioEnded (a : nat)
| Advance (ms : nat).

(** ** Small steps shared by the handlers *)

Definition toast (t : Toast) : World -> World := set_toasts (fun l => l ++ [t]).
Definition log (l : Log) : World -> World := set_console (fun c => c ++ [l]).
Definition setCallState (f : CallState -> CallState) : World -> World := set_callState f.
Definition setConversation (f : list ConversationMessage -> list ConversationMessage)
  : World -> World := set_conversation f.
Definition setIsRecording (b : bool) : World -> World := set_isRecording (fun _ => b).
Definition setShowCallModal (b : bool) : World -> World := set_showCallModal (fun _ => b).

(** Suspend at an [await] or a [setTimeout]; resume later by the task's index. *)
Definition spawn (t : Task) : World -> World := set_tasks (fun l => l ++ [Some t]).
Definition finish (i : nat) : World -> World := set_tasks (fun l => <[i := None]> l).

(** [wsRef.current?.readyState === WebSocket.OPEN] *)
Definition current_open (w : World) : bool :=
  match wsRef w with
  | Some k =>
      match sockets w !! k with
      | Some s => bool_decide (readyState s = OPEN)
      | None => false
      end
  | None => false
  end.

(** [WebSocket.send]: throws while CONNECTING ([None]), transmits when OPEN,
    discards the data when CLOSING or CLOSED. *)
Definition ws_send (k : nat) (m : OutMsg) (w : World) : option World :=
  match sockets w !! k with
  | Some s =>
      match readyState s with
      | CONNECTING => None
      | OPEN => Some (set_wire (fun l => l ++ [(k, m)]) w)
      | CLOSING | CLOSED => Some w
      end
  | None => None
  end.

Definition closing (s : WebSocket) : WebSocket :=
  match readyState s with
  | CLOSED => s
  | _ => mkWebSocket CLOSING (ws_env s) (closeFired s)
  end.

(** [WebSocket.close()] *)
Definition ws_close (k : nat) : World -> World := set_sockets (alter closing k).

Definition stop_recorder (r : Recorder) : Recorder :=
  match rec_state r with
  | recording => mkRecorder (rec_stream r) flushing (rec_env r)
  | _ => r
  end.

Definition stop_track (t : Track) : Track := mkTrack (enabled t) true.

(** [getTracks().forEach(track => track.stop())]; a recorder whose tracks
    have all ended stops by itself. *)
Definition stop_tracks (s : nat) (w : World) : World :=
  set_recorders
    (map (fun r => if bool_decide (rec_stream r = s) then stop_recorder r else r))
    (set_streams (alter (map stop_track) s) w).

(** ** The callbacks of the component *)

(** [endCall], lines 275-315. *)
Definition endCall (w : World) : World :=
  let w := match wsRef w with
           | Some k => set_wsRef (fun _ => None) (ws_close k w)
           | None => w
           end in
  let w := match mediaRecorderRef w with
           | Some r => set_mediaRecorderRef (fun _ => None)
                         (set_recorders (alter stop_recorder r) w)
           | None => w
           end in
  let w := match mediaStreamRef w with
           | Some s => set_mediaStreamRef (fun _ => None) (stop_tracks s w)
           | None => w
           end in
  let w := setCallState (fun _ => idleCallState) w in
  let w := setShowCallModal false w in
  let w := setConversation (fun _ => []) w in
  let w := setIsRecording false w in
  toast ToastChamadaEncerrada w.

Section Handlers.

Variable B : Browser.

(** [supportedTypes], line 327. *)
Definition supportedTypes (mimeType : string) : list string :=
  ["audio/mp3"; "audio/wav"; "audio/ogg"; mimeType].

(** The [for (const type of supportedTypes)] loop, lines 330-360.
    [audioUrl] is the loop's [let audioUrl], [false] for [null]. *)
Fixpoint play_loop (types : list string) (audioUrl : bool) (w : World) : bool * World :=
  match types with
  | [] => (audioUrl, w)
  | type :: rest =>
      let w := set_tried (fun l => l ++ [type]) w in
      match audioFacility B type with
      | BlobThrows => play_loop rest audioUrl (log (LogTypeNotSupported type) w)
      | PlayThrows => play_loop rest true (log (LogTypeNotSupported type) w)
      | PlayReturns promise =>
          let a := length (audios w) in
          let w := if promise
                   then spawn (AwaitPlay a type)
                          (set_audios (fun l => l ++ [mkAudio (InlineAudio type) starting]) w)
                   else set_audios (fun l => l ++ [mkAudio (InlineAudio type) playing]) w in
          (true, w)   (* if (audioUrl) { addEventListener('ended', ...); break; } *)
      end
  end.

(** [playAudioResponse], lines 317-369. *)
Definition playAudioResponse (base64Data mimeType : string) (w : World) : World :=
  let w := set_playCalls (fun l => l ++ [(base64Data, mimeType)]) w in
  match atob B base64Data with
  | None => log ErrPlayingAudioResponse w
  | Some _ =>
      let (audioUrl, w) := play_loop (supportedTypes mimeType) false w in
      if audioUrl then w else log ErrNoSupportedFormat w
  end.

(** [sendAudioData], lines 417-442, up to the [await]. *)
Definition sendAudioData (b : Blob) (w : World) : World :=
  if negb (current_open w) then log LogWebSocketNotReady w
  else spawn (AwaitArrayBuffer b) w.

(** [sendAudioData] after [await audioBlob.arrayBuffer()]: [wsRef.current.send]
    throws on a null ref or a CONNECTING socket, and the [catch] logs it. *)
Definition sendAudioData_resume (b : Blob) (w : World) : World :=
  match wsRef w with
  | None => log ErrSendingAudio w
  | Some k =>
      match ws_send k (RealtimeInput "audio/webm;codecs=opus" b) w with
      | Some w' => log LogAudioSent w'
      | None => log ErrSendingAudio w
      end
  end.

(** [mediaRecorder.ondataavailable], lines 230-235 (and the same text at
    lines 384-389); [env] is the [callState] of the enclosing closure. *)
Definition ondataavailable (env : CallState) (b : Blob) (w : World) : World :=
  if (0 <? blob_size b)%nat && current_open w && negb (isMuted env)
  then sendAudioData b w
  else w.

(** The [setTimeout(..., 500)] callback of the setupComplete branch,
    lines 221-245. *)
Definition stream_timer (env : CallState) (w : World) : World :=
  match mediaStreamRef w with
  | Some s =>
      if current_open w then
        if recorderSupported B then
          let r := length (recorders w) in
          set_mediaRecorderRef (fun _ => Some r)
            (set_recorders (fun l => l ++ [mkRecorder s recording env]) w)
        else log ErrStreamingSetup w
      else w
  | None => w
  end.

(** [setupAudioStreaming], lines 371-415: no call site in the component.
    [env] is the [callState] of the render that created it. *)
Definition setupAudioStreaming (env : CallState) (w : World) : World :=
  match mediaStreamRef w, wsRef w with
  | Some s, Some _ =>
      if recorderSupported B then
        let r := length (recorders w) in
        set_mediaRecorderRef (fun _ => Some r)
          (set_recorders (fun l => l ++ [mkRecorder s recording env]) w)
      else toast ToastErroAudio (log ErrStreamingSetup w)
  | _, _ => w
  end.

(** [part.text] as a condition: a non-empty string. *)
Definition truthy_text (p : Part) : bool :=
  match text p with
  | Some s => negb (String.eqb s "")
  | None => false
  end.

(** [part.inlineData?.mimeType?.startsWith('audio/')] *)
Definition is_audio_part (p : Part) : bool :=
  match inlineData p with
  | Some d =>
      match mimeType d with
      | Some m => String.prefix "audio/" m
      | None => false
      end
  | None => false
  end.

Definition part_text (p : Part) : string := default "" (text p).
Definition part_data (p : Part) : string := default "" (data <$> inlineData p).
Definition part_mimeType (p : Part) : string :=
  default "" (inlineData p ≫= mimeType).

(** The [data.serverContent?.modelTurn?.parts] branch of [onmessage],
    lines 193-213. *)
Definition on_parts (env : CallState) (ps : list Part) (w : World) : World :=
  let w := match List.find truthy_text ps with
           | Some textPart =>
               setConversation
                 (fun prev => prev ++ [mkMessage AI (part_text textPart) (now w)]) w
           | None => w
           end in
  match List.find is_audio_part ps with
  | Some audioPart =>
      if speakerEnabled env
      then playAudioResponse (part_data audioPart) (part_mimeType audioPart) w
      else w
  | None => w
  end.

(** The [data.setupComplete] branch of [onmessage], lines 215-247. *)
Definition on_setupComplete (env : CallState) (w : World) : World :=
  let w := setCallState (with_status connected) w in
  match mediaStreamRef w, wsRef w with
  | Some _, Some _ => spawn (StreamTimer (now w + 500) env) w
  | _, _ => w
  end.

(** [wsRef.current.onmessage], lines 142-253; [env] is the [callState] of
    the [connectToLiveAPI] closure that installed the handler. *)
Definition onmessage (env : CallState) (f : Frame) (w : World) : World :=
  match f with
  | BinaryFrame _ => spawn (AwaitReader env) w
  | TextFrame None => log ErrHandlingMessage w
  | TextFrame (Some d) =>
      let w := match parts d with
               | Some ps => on_parts env ps w
               | None => w
               end in
      if setupComplete d then on_setupComplete env w else w
  end.

(** [reader.onload], lines 150-183. *)
Definition reader_onload (env : CallState) (result : bool) (w : World) : World :=
  if result && speakerEnabled env then spawn AwaitDecode w else w.

(** The [then] and [catch] of [decodeAudioData], lines 158-177. *)
Definition decode_done (ok : bool) (w : World) : World :=
  if ok
  then set_audios (fun l => l ++ [mkAudio BinaryBuffer playing]) (setIsRecording true w)
  else setIsRecording false (log ErrDecodingAudio w).

(** The [then] and [catch] of the play promise, lines 339-346. *)
Definition play_done (a : nat) (type : string) (ok : bool) (w : World) : World :=
  if ok
  then set_audios (alter (fun x => mkAudio (a_source x) playing) a)
         (log (LogAudioPlaying type) (setIsRecording true w))
  else set_audios (alter (fun x => mkAudio (a_source x) rejected) a)
         (log (LogFailedWithType type) w).

(** The ['ended'] listener (lines 350-353) and [source.onended] (163-166). *)
Definition audio_ended (a : nat) (w : World) : World :=
  setIsRecording false
    (set_audios (alter (fun x => mkAudio (a_source x) ended) a) w).

(** [wsRef.current.onopen], lines 102-140. *)
Definition onopen (w : World) : World :=
  let w := setCallState (with_status connected) w in
  let w := spawn (SetupTimer (now w + 100)) w in
  toast ToastConectado w.

(** The [setTimeout(..., 100)] callback of [onopen], lines 107-134. *)
Definition setup_timer (w : World) : World :=
  if current_open w then
    match wsRef w with
    | Some k => default w (ws_send k SetupMessage w)
    | None => w
    end
  else w.

(** [wsRef.current.onclose], lines 255-258. *)
Definition onclose (w : World) : World :=
  setCallState (with_status disconnected) w.

(** [wsRef.current.onerror], lines 260-268. *)
Definition onerror (w : World) : World :=
  toast ToastErroConexao (setCallState (with_status disconnected) w).

(** [connectToLiveAPI], lines 96-273: [env] is the [callState] of the render
    that created this callback; the four handlers close over it. *)
Definition connectToLiveAPI (env : CallState) (w : World) : World :=
  let k := length (sockets w) in
  set_wsRef (fun _ => Some k)
    (set_sockets (fun l => l ++ [mkWebSocket CONNECTING env false]) w).

Definition greeting (now : nat) : ConversationMessage :=
  mkMessage AI "Olá! Estou pronto para nossa conversa por voz. Pode começar a falar!" now.

(** [startCall], lines 444-517, up to [await navigator.permissions.query].
    [connect_env] is the environment of the [connectToLiveAPI] this
    [startCall] closed over. *)
Definition startCall (connect_env : CallState) (w : World) : World :=
  spawn (AwaitPermission connect_env) w.

(** [startCall] from the permission result to [await getUserMedia]. *)
Definition startCall_permission (connect_env : CallState)
    (r : option PermissionState) (w : World) : World :=
  match r with
  | None => endCall (toast ToastErro (log ErrStartingCall w))
  | Some denied => toast ToastPermissaoNegada w
  | Some _ =>
      let w := setShowCallModal true w in
      let w := setCallState (activated (now w)) w in
      let w := setConversation (fun _ => [greeting (now w)]) w in
      spawn (AwaitUserMedia connect_env) w
  end.

Definition fresh_stream (n : nat) : list Track := replicate n (mkTrack true false).

(** [startCall] from the result of [getUserMedia] on. *)
Definition startCall_media (connect_env : CallState) (r : MediaResult) (w : World)
  : World :=
  match r with
  | MediaGranted n =>
      let s := length (streams w) in
      let w := set_mediaStreamRef (fun _ => Some s)
                 (set_streams (fun l => l ++ [fresh_stream n]) w) in
      connectToLiveAPI connect_env w
  | NotAllowedError => endCall (toast ToastAcessoNegado (log ErrMicrophoneAccess w))
  | OtherMediaError => endCall (toast ToastErroMicrofone (log ErrMicrophoneAccess w))
  end.

(** [track.enabled = b] *)
Definition set_enabled (b : bool) (t : Track) : Track := mkTrack b (stopped t).

(** [toggleMute], lines 520-528; [captured] is [callState.isMuted] of the
    render that created the callback.  Every track of a stream obtained
    with [{ audio: ... }] is an audio track. *)
Definition toggleMute (captured : bool) (w : World) : World :=
  let w := setCallState (fun prev => with_isMuted (negb (isMuted prev)) prev) w in
  match mediaStreamRef w with
  | Some s => set_streams (alter (map (set_enabled captured)) s) w
  | None => w
  end.

(** [toggleSpeaker], lines 530-532. *)
Definition toggleSpeaker (w : World) : World :=
  setCallState (fun prev => with_speakerEnabled (negb (speakerEnabled prev)) prev) w.

(** ** The event loop *)

Definition closed_socket (s : WebSocket) : WebSocket :=
  mkWebSocket CLOSED (ws_env s) true.

Definition opened_socket (s : WebSocket) : WebSocket :=
  mkWebSocket OPEN (ws_env s) (closeFired s).

Definition flushed (r : Recorder) : Recorder :=
  match rec_state r with
  | flushing => mkRecorder (rec_stream r) inactive (rec_env r)
  | _ => r
  end.

(** [handle e w] runs the handler of [e], or is [None] when the browser
    cannot deliver [e] in [w]: a button that is disabled or not shown, a
    promise that is not pending, a timer that is not due, a socket event
    outside the state that allows it. *)
Definition handle (e : Event) (w : World) : option World :=
  match e with
  | ClickStart =>
      if isActive (callState w) then None else Some (startCall (connectEnv w) w)
  | ClickEnd => if showCallModal w then Some (endCall w) else None
  | ClickMute => if showCallModal w then Some (toggleMute (muteEnv w) w) else None
  | ClickSpeaker => if showCallModal w then Some (toggleSpeaker w) else None
  | PermissionResult t r =>
      match tasks w !! t with
      | Some (Some (AwaitPermission env)) => Some (startCall_permission env r (finish t w))
      | _ => None
      end
  | UserMediaResult t r =>
      match tasks w !! t with
      | Some (Some (AwaitUserMedia env)) =>
          match r with
          | MediaGranted 0 => None
          | _ => Some (startCall_media env r (finish t w))
          end
      | _ => None
      end
  | WsOpen k =>
      match sockets w !! k with
      | Some s =>
          if bool_decide (readyState s = CONNECTING)
          then Some (onopen (set_sockets (alter opened_socket k) w))
          else None
      | None => None
      end
  | WsMessage k f =>
      match sockets w !! k with
      | Some s =>
          if bool_decide (readyState s = OPEN) then Some (onmessage (ws_env s) f w)
          else None
      | None => None
      end
  | WsClosed k failed =>
      match sockets w !! k with
      | Some s =>
          if closeFired s || (bool_decide (readyState s = CONNECTING) && negb failed)
          then None
          else
            let w := set_sockets (alter closed_socket k) w in
            Some (onclose (if failed then onerror w else w))
      | None => None
      end
  | TimerFire t =>
      match tasks w !! t with
      | Some (Some (SetupTimer due)) =>
          if (due <=? now w)%nat then Some (setup_timer (finish t w)) else None
      | Some (Some (StreamTimer due env)) =>
          if (due <=? now w)%nat then Some (stream_timer env (finish t w)) else None
      | _ => None
      end
  | DataAvailable r b =>
      match recorders w !! r with
      | Some rc =>
          match rec_state rc with
          | inactive => None
          | _ => Some (ondataavailable (rec_env rc) b (set_recorders (alter flushed r) w))
          end
      | None => None
      end
  | BufferReady t =>
      match tasks w !! t with
      | Some (Some (AwaitArrayBuffer b)) => Some (sendAudioData_resume b (finish t w))
      | _ => None
      end
  | ReaderLoaded t result =>
      match tasks w !! t with
      | Some (Some (AwaitReader env)) => Some (reader_onload env result (finish t w))
      | _ => None
      end
  | DecodeResult t ok =>
      match tasks w !! t with
      | Some (Some AwaitDecode) => Some (decode_done ok (finish t w))
      | _ => None
      end
  | PlayResult t ok =>
      match tasks w !! t with
      | Some (Some (AwaitPlay a type)) => Some (play_done a type ok (finish t w))
      | _ => None
      end
  | AudioEnded a =>
      match audios w !! a with
      | Some x =>
          if bool_decide (a_state x = playing) then Some (audio_ended a w) else None
      | None => None
      end
  | Advance ms => Some (set_now (fun n => n + ms) w)
  end.

(** The re-render after a task.  [connectToLiveAPI] is re-created when
    [callState.speakerEnabled] differs from the value of the render that
    created it (dependencies at line 273; [apiKey] and [toast] do not change
    during a call); [toggleMute] when [callState.isMuted] does (line 528). *)
Definition render (w : World) : World :=
  let w := if bool_decide (speakerEnabled (connectEnv w) = speakerEnabled (callState w))
           then w else set_connectEnv (fun _ => callState w) w in
  if bool_decide (muteEnv w = isMuted (callState w))
  then w else set_muteEnv (fun _ => isMuted (callState w)) w.

Definition step (w : World) (e : Event) : option World := render <$> handle e w.

Fixpoint run (w : World) (evs : list Event) : option World :=
  match evs with
  | [] => Some w
  | e :: evs => step w e ≫= fun w' => run w' evs
  end.

End Handlers.

(** The component at mount. *)
Definition init : World :=
  mkWorld idleCallState false [] false None None None idleCallState false
          [] [] [] [] [] 0 [] [] [] [] [].

(** ** Views of the world *)

(** Everything but the two memoised closures, as a tuple. *)
Definition observable (w : World) :=
  (callState w, showCallModal w, conversation w, isRecording w,
   (wsRef w, mediaStreamRef w, mediaRecorderRef w),
   (sockets w, streams w, recorders w, audios w, tasks w, now w),
   (wire w, toasts w, console w, tried w, playCalls w)).

(** The part of the world [playAudioResponse] cannot touch: [core] is all
    of it but the transcript. *)
Definition core (w : World) :=
  (callState w, showCallModal w, isRecording w,
   (wsRef w, mediaStreamRef w, mediaRecorderRef w),
   (connectEnv w, muteEnv w),
   (sockets w, streams w, recorders w, now w),
   (wire w, toasts w)).

Definition session (w : World) := (conversation w, core w).

(** The tail of [endCall] (lines 297-314), which runs on every path. *)
Definition reset_state (w : World) : World :=
  toast ToastChamadaEncerrada
    (setIsRecording false (setConversation (fun _ => [])
       (setShowCallModal false (setCallState (fun _ => idleCallState) w)))).

(** What [endCall] does to the objects the refs pointed to. *)
Definition released (before after : World) : Prop :=
  (forall k s, wsRef before = Some k -> sockets before !! k = Some s ->
     sockets after !! k = Some (closing s))
  /\ (forall i ts, mediaStreamRef before = Some i -> streams before !! i = Some ts ->
        streams after !! i = Some (map stop_track ts))
  /\ (forall r rc, mediaRecorderRef before = Some r -> recorders before !! r = Some rc ->
        exists rc', recorders after !! r = Some rc' /\ rec_state rc' <> recording).

(** ** Vocabulary of the properties *)

(** The peer's handshake acknowledgement: a text frame whose JSON has a
    truthy [setupComplete]. *)
Definition ack_event (e : Event) : bool :=
  match e with
  | WsMessage _ (TextFrame (Some d)) => setupComplete d
  | _ => false
  end.

(** The acknowledgement received over socket [k]. *)
Definition ack_on (k : nat) (e : Event) : bool :=
  match e with
  | WsMessage k' (TextFrame (Some d)) => Nat.eqb k' k && setupComplete d
  | _ => false
  end.

(** The two events whose handlers set [status: 'connected']. *)
Definition handshake_event (e : Event) : bool :=
  match e with
  | WsOpen _ => true
  | _ => ack_event e
  end.

(** A transmitted [realtimeInput] frame. *)
Definition is_audio_frame (x : nat * OutMsg) : bool :=
  match x.2 with
  | RealtimeInput _ _ => true
  | SetupMessage => false
  end.

Definition audio_frames (w : World) : list (nat * OutMsg) :=
  List.filter is_audio_frame (wire w).

(** The [realtimeInput] frames socket [k] carried. *)
Definition audio_frames_on (k : nat) (w : World) : list (nat * OutMsg) :=
  List.filter (fun x => Nat.eqb x.1 k) (audio_frames w).

(** All the frames socket [k] carried. *)
Definition frames_on (k : nat) (w : World) : list OutMsg :=
  snd <$> List.filter (fun x => Nat.eqb x.1 k) (wire w).

(** A pending continuation on the capture-to-send path: the 500 ms timer
    of the setupComplete branch, or a [sendAudioData] at its [await]. *)
Definition forwarding_task (t : option Task) : bool :=
  match t with
  | Some (StreamTimer _ _) | Some (AwaitArrayBuffer _) => true
  | _ => false
  end.

(** Some part of the capture-to-send path exists. *)
Definition armed (w : World) : Prop :=
  existsb forwarding_task (tasks w) = true
  \/ 0 < length (recorders w)
  \/ existsb is_audio_frame (wire w) = true.

(** Socket [k] has reached CLOSED. *)
Definition closed (k : nat) (w : World) : Prop :=
  exists s, sockets w !! k = Some s /\ readyState s = CLOSED.

(** The transcript text a frame contributes: the text of the first part
    whose [text] is truthy, if the frame is a content message with one. *)
Definition text_of (f : Frame) : list string :=
  match f with
  | TextFrame (Some d) =>
      match parts d with
      | Some ps =>
          match List.find truthy_text ps with
          | Some p => [part_text p]
          | None => []
          end
      | None => []
      end
  | _ => []
  end.

Definition transcript_event (e : Event) : list string :=
  match e with
  | WsMessage _ f => text_of f
  | _ => []
  end.

(** The tasks in which [startCall] or [endCall] replace the transcript. *)
Definition resets_transcript (e : Event) : bool :=
  match e with
  | ClickEnd | PermissionResult _ _ | UserMediaResult _ _ => true
  | _ => false
  end.

(** What a pending [startCall] holds of [speakerEnabled]. *)
Definition task_speaker (t : option Task) : Prop :=
  match t with
  | Some (AwaitPermission env) | Some (AwaitUserMedia env) => speakerEnabled env = true
  | _ => True
  end.

(** The speaker flag as the closures see it: outside a call the flag is at
    its default, the controls exist only during a call, and every pending
    [startCall] and every socket closed over [speakerEnabled = true]. *)
Definition speaker_inv (w : World) : Prop :=
  (isActive (callState w) = false -> speakerEnabled (callState w) = true)
  /\ (showCallModal w = true -> isActive (callState w) = true)
  /\ speakerEnabled (connectEnv w) = speakerEnabled (callState w)
  /\ Forall task_speaker (tasks w)
  /\ Forall (fun s => speakerEnabled (ws_env s) = true) (sockets w).

(** ** Concrete runs *)

(** A browser where base64 decodes, every candidate type starts playing and
    the recorder is supported. *)
Definition chrome : Browser :=
  mkBrowser (fun s => Some s) (fun _ => PlayReturns true) true.

(** The world a run of [chrome] from mount ends in. *)
Definition after (evs : list Event) : World := default init (run chrome init evs).

(** The handshake acknowledgement, and a content message with a text part
    and an inline audio part. *)
Definition ack : Frame := TextFrame (Some (mkServerMessage None true)).

Definition hello_part : Part := mkPart (Some "Hello") None.
Definition wav_part : Part := mkPart None (Some (mkInline (Some "audio/wav") "UklGRg==")).
Definition content : Frame :=
  TextFrame (Some (mkServerMessage (Some [hello_part; wav_part]) false)).

(** A captured chunk of three bytes. *)
Definition chunk : Blob := mkBlob 0 3.

(** The start button, then the permission query answers [denied]. *)
Definition denied_run : list Event := [ClickStart; PermissionResult 0 (Some denied)].
Definition after_denied : World := after denied_run.

(** An inline payload declared as [audio/pcm]. *)
Definition pcm_played : World := playAudioResponse chrome "UklGRg==" "audio/pcm" init.

(** Start, permission granted, microphone granted, the socket opens. *)
Definition connect_run : list Event :=
  [ClickStart; PermissionResult 0 (Some granted); UserMediaResult 1 (MediaGranted 1);
   WsOpen 0].

(** ... the setup message goes out, the peer acknowledges, and 500 ms later
    the recorder starts. *)
Definition streaming_run : list Event :=
  connect_run ++ [Advance 100; TimerFire 2; WsMessage 0 ack; Advance 500; TimerFire 3].

(** The call is streaming and the socket fails. *)
Definition error_run : list Event := streaming_run ++ [WsClosed 0 true].

(** The call is streaming and the user mutes; then the recorder delivers a
    chunk, and its bytes are read. *)
Definition mute_run : list Event := streaming_run ++ [ClickMute].
Definition muted_chunk_run : list Event :=
  mute_run ++ [DataAvailable 0 chunk; BufferReady 4].

(** A first call in which the user mutes and switches the speaker off and on
    again, then hangs up; one second later a second call, which reaches
    streaming like the first. *)
Definition second_call_run : list Event :=
  streaming_run
  ++ [ClickMute; ClickSpeaker; ClickSpeaker; ClickEnd; WsClosed 0 false;
      DataAvailable 0 (mkBlob 0 0); Advance 1000;
      ClickStart; PermissionResult 4 (Some granted); UserMediaResult 5 (MediaGranted 1);
      WsOpen 1; Advance 100; TimerFire 6; WsMessage 1 ack; Advance 500; TimerFire 7].

(** The call is streaming and the user switches the speaker off; then a
    content message and a binary frame arrive. *)
Definition speaker_off_run : list Event := streaming_run ++ [ClickSpeaker].
Definition speaker_off_audio_run : list Event :=
  speaker_off_run
  ++ [WsMessage 0 content; WsMessage 0 (BinaryFrame (mkBlob 7 9)); ReaderLoaded 5 true].

(** The user mutes while [getUserMedia] is still pending. *)
Definition premute_run : list Event :=
  [ClickStart; PermissionResult 0 (Some granted); ClickMute;
   UserMediaResult 1 (MediaGranted 1)].

(** The first call is ended 50 ms after its acknowledgement and a second one
    is started; its socket opens, and the 500 ms timer of the first call
    fires. *)
Definition stale_timer_run : list Event :=
  connect_run
  ++ [Advance 100; TimerFire 2; WsMessage 0 ack; Advance 50; ClickEnd;
      Advance 50; ClickStart; PermissionResult 4 (Some granted); Advance 50;
      UserMediaResult 5 (MediaGranted 1); Advance 150; WsOpen 1;
      Advance 100; TimerFire 6; Advance 100; TimerFire 3;
      Advance 250; DataAvailable 0 chunk; BufferReady 7].

(** ** Vocabulary of the further properties *)

(** The session fields that [startCall] and [endCall] set together, and the
    flags the call controls toggle. *)
Definition lifecycle (w : World) : Prop :=
  showCallModal w = isActive (callState w)
  /\ (isActive (callState w) = true <-> is_Some (startTime (callState w)))
  /\ (isActive (callState w) = false ->
        isMuted (callState w) = false /\ speakerEnabled (callState w) = true)
  /\ (status (callState w) = connecting -> isActive (callState w) = true).

(** The transcript: who speaks, and how it starts while the modal is shown. *)
Definition transcript_inv (w : World) : Prop :=
  Forall (fun m => speaker m = AI) (conversation w)
  /\ (showCallModal w = true -> exists t, head (conversation w) = Some (greeting t)).

(** The order in which a call acquires its stream, its socket and its
    recorder; every ref points to an object that exists. *)
Definition refs_inv (w : World) : Prop :=
  (is_Some (mediaRecorderRef w) -> is_Some (wsRef w))
  /\ (is_Some (wsRef w) -> is_Some (mediaStreamRef w))
  /\ (forall k, wsRef w = Some k -> k < length (sockets w))
  /\ (forall s, mediaStreamRef w = Some s -> s < length (streams w))
  /\ (forall r, mediaRecorderRef w = Some r -> r < length (recorders w)).

(** [getUserMedia] resolved with a stream. *)
Definition media_granted (e : Event) : bool :=
  match e with
  | UserMediaResult _ (MediaGranted _) => true
  | _ => false
  end.

Definition open_event (e : Event) : bool :=
  match e with
  | WsOpen _ => true
  | _ => false
  end.

(** The recorder delivers a chunk that is not empty. *)
Definition chunk_event (e : Event) : bool :=
  match e with
  | DataAvailable _ b => (0 <? blob_size b)%nat
  | _ => false
  end.

Definition setup_frames (w : World) : list (nat * OutMsg) :=
  List.filter (fun x => negb (is_audio_frame x)) (wire w).

Definition setup_timer_task (t : option Task) : bool :=
  match t with
  | Some (SetupTimer _) => true
  | _ => false
  end.

Definition stream_timer_task (t : option Task) : bool :=
  match t with
  | Some (StreamTimer _ _) => true
  | _ => false
  end.

Definition buffer_task (t : option Task) : bool :=
  match t with
  | Some (AwaitArrayBuffer _) => true
  | _ => false
  end.

Definition play_task (t : option Task) : bool :=
  match t with
  | Some (AwaitPlay _ _) => true
  | _ => false
  end.

(** One where the event is of the kind, zero where not. *)
Definition flag (b : bool) : nat := if b then 1 else 0.

(** A chunk the recorder delivered in [evs], not empty. *)
Definition captured (evs : list Event) (b : Blob) : Prop :=
  0 < blob_size b /\ exists r, DataAvailable r b ∈ evs.

(** Every chunk on its way out, and every chunk sent, was captured. *)
Definition chunks_inv (evs : list Event) (w : World) : Prop :=
  (forall t b, tasks w !! t = Some (Some (AwaitArrayBuffer b)) -> captured evs b)
  /\ (forall k m b, (k, RealtimeInput m b) ∈ wire w ->
        m = "audio/webm;codecs=opus" /\ captured evs b /\ k < length (sockets w)).

(** The toast of a refused microphone, lines 490-502. *)
Definition media_error_toast (r : MediaResult) : Toast :=
  match r with
  | NotAllowedError => ToastAcessoNegado
  | _ => ToastErroMicrofone
  end.

(** How a candidate type fares in the loop of [playAudioResponse]. *)
Definition blob_throws (B : Browser) (type : string) : bool :=
  match audioFacility B type with
  | BlobThrows => true
  | _ => false
  end.

Definition play_returns (B : Browser) (type : string) : bool :=
  match audioFacility B type with
  | PlayReturns _ => true
  | _ => false
  end.

(** Socket [k] is not the one of the call any more and will not be again:
    [connectToLiveAPI] makes a new one each time. *)
Definition retired_socket (k : nat) (w : World) : Prop :=
  k < length (sockets w) /\ wsRef w <> Some k.

(** Stream [s] and recorder [r] are not referenced any more; the tracks of
    the stream are stopped and the recorder does not record. *)
Definition retired_devices (s : nat) (r : option nat) (w : World) : Prop :=
  mediaStreamRef w <> Some s
  /\ (exists ts, streams w !! s = Some ts /\ Forall (fun t => stopped t = true) ts)
  /\ (forall i, r = Some i ->
        mediaRecorderRef w <> Some i
        /\ exists rc, recorders w !! i = Some rc /\ rec_state rc <> recording).

(** The play promises that are pending: each belongs to an [Audio] element
    of its own, which has not started for the page. *)
Definition play_ok (ts : list (option Task)) (els : list Audio) : Prop :=
  (forall t a type, ts !! t = Some (Some (AwaitPlay a type)) ->
     exists x, els !! a = Some x /\ a_state x = starting)
  /\ (forall t t' a type type',
        ts !! t = Some (Some (AwaitPlay a type)) ->
        ts !! t' = Some (Some (AwaitPlay a type')) -> t = t').

Definition play_inv (w : World) : Prop := play_ok (tasks w) (audios w).

(** The recording flag is on only while something plays. *)
Definition recording_inv (w : World) : Prop :=
  isRecording w = true -> exists a x, audios w !! a = Some x /\ a_state x = playing.

(** * The shell of the component: the API key and the duration timer

    What surrounds the call engine in the component: the two state hooks
    [apiKey] and [hasApiKey] with the effect that reads the stored key at
    mount (lines 46-53), [saveApiKey] (78-94), the effect that keeps the
    duration timer (56-76), and the configuration screen that replaces the
    call screen while there is no key (553-604).

    - A string the code inspects is the list of its UTF-16 code units.
    - [Date.now()] is the clock of the engine, which does not go back; the
      numbers of the duration arithmetic are exact (below 2^53).
    - An effect runs after the render that follows a task, when one of its
      dependencies changed; its cleanup runs first.
    - Nothing but this page writes [localStorage] during a run; [getItem]
      does not throw. *)

(** WhiteSpace and LineTerminator of ECMAScript: what [trim] removes. *)
Definition isWhiteSpace (c : N) : bool :=
  bool_decide (c ∈ [0x9; 0xA; 0xB; 0xC; 0xD; 0x20; 0xA0; 0x1680; 0x2028; 0x2029;
                    0x202F; 0x205F; 0x3000; 0xFEFF]%N)
  || ((0x2000 <=? c)%N && (c <=? 0x200A)%N).

Fixpoint trimStart (s : list N) : list N :=
  match s with
  | c :: rest => if isWhiteSpace c then trimStart rest else s
  | [] => []
  end.

Definition trimEnd (s : list N) : list N := reverse (trimStart (reverse s)).

(** [String.prototype.trim] *)
Definition trim (s : list N) : list N := trimEnd (trimStart s).

(** [s.padStart(2, '0')] *)
Definition padStart2 (s : string) : string :=
  match String.length s with
  | 0 => "00"
  | 1 => "0" +:+ s
  | _ => s
  end.

(** The text of the interval callback, lines 59-62: [Math.floor] of a
    quotient is [`div`], [%] is [`rem`], [toString] is [pretty]. *)
Definition formatDuration (elapsed : Z) : string :=
  let minutes := (elapsed `div` 60000)%Z in
  let seconds := ((elapsed `rem` 60000) `div` 1000)%Z in
  padStart2 (pretty minutes) +:+ ":" +:+ padStart2 (pretty seconds).

(** [{ ...prev, duration }] *)
Definition with_duration (d : string) (c : CallState) : CallState :=
  mkCallState (isActive c) (startTime c) d (isMuted c) (speakerEnabled c) (status c).

(** A timer of [setInterval(..., 1000)]: the [callState.startTime] its
    callback closed over, when it fires next, and whether [clearInterval]
    reached it. *)
Record Interval := mkInterval {
  iv_startTime : nat;
  iv_due : nat;
  iv_cleared : bool
}.

(** The two toasts of [saveApiKey]. *)
Inductive KeyToast :=
| ToastChaveInvalida   (* 'Por favor, insira uma chave de API válida' *)
| ToastChaveSalva.     (* 'Chave de API salva com sucesso' *)

Record App := mkApp {
  engine : World;
  apiKey : list N;
  hasApiKey : bool;
  localStorage : option (list N);   (* the item 'google-ai-live-api-key' *)
  timerRef : option nat;
  intervals : list Interval;
  timerDeps : bool * option nat;    (* [isActive, startTime] at the last run of the timer effect *)
  keyToasts : list KeyToast
}.

Definition set_engine (f : World -> World) (a : App) : App :=
  mkApp (f (engine a)) (apiKey a) (hasApiKey a) (localStorage a) (timerRef a)
        (intervals a) (timerDeps a) (keyToasts a).

Definition set_apiKey (s : list N) (a : App) : App :=
  mkApp (engine a) s (hasApiKey a) (localStorage a) (timerRef a)
        (intervals a) (timerDeps a) (keyToasts a).

Definition set_hasApiKey (b : bool) (a : App) : App :=
  mkApp (engine a) (apiKey a) b (localStorage a) (timerRef a)
        (intervals a) (timerDeps a) (keyToasts a).

Definition set_localStorage (s : option (list N)) (a : App) : App :=
  mkApp (engine a) (apiKey a) (hasApiKey a) s (timerRef a)
        (intervals a) (timerDeps a) (keyToasts a).

Definition set_timerRef (r : option nat) (a : App) : App :=
  mkApp (engine a) (apiKey a) (hasApiKey a) (localStorage a) r
        (intervals a) (timerDeps a) (keyToasts a).

Definition set_intervals (f : list Interval -> list Interval) (a : App) : App :=
  mkApp (engine a) (apiKey a) (hasApiKey a) (localStorage a) (timerRef a)
        (f (intervals a)) (timerDeps a) (keyToasts a).

Definition set_timerDeps (d : bool * option nat) (a : App) : App :=
  mkApp (engine a) (apiKey a) (hasApiKey a) (localStorage a) (timerRef a)
        (intervals a) d (keyToasts a).

Definition keyToast (t : KeyToast) (a : App) : App :=
  mkApp (engine a) (apiKey a) (hasApiKey a) (localStorage a) (timerRef a)
        (intervals a) (timerDeps a) (keyToasts a ++ [t]).

(** One task of the event loop of the whole component. *)
Inductive AppEvent :=
| TypeKey (s : list N)       (* onChange of the key input *)
| SaveKey (stored : bool)    (* the save button or Enter; false: setItem throws *)
| Tick (i : nat)             (* the callback of interval [i] *)
| Call (e : Event).          (* a task of the call engine *)

(** [saveApiKey], lines 78-94.  When [localStorage.setItem] throws, the
    exception leaves the handler before [setHasApiKey]. *)
Definition saveApiKey (stored : bool) (a : App) : App :=
  if bool_decide (trim (apiKey a) = []) then keyToast ToastChaveInvalida a
  else if stored
       then keyToast ToastChaveSalva
              (set_hasApiKey true (set_localStorage (Some (apiKey a)) a))
       else a.

(** The callback of [setInterval], lines 58-65, for the [startTime] it
    closed over. *)
Definition tick (start : nat) (w : World) : World :=
  setCallState
    (with_duration (formatDuration (Z.of_nat (now w) - Z.of_nat start))) w.

Definition clearInterval (i : nat) : App -> App :=
  set_intervals (alter (fun iv => mkInterval (iv_startTime iv) (iv_due iv) true) i).

(** A number as a condition: [null] and [0] are falsy. *)
Definition truthy_number (t : option nat) : bool :=
  match t with
  | Some n => negb (n =? 0)%nat
  | None => false
  end.

(** The cleanup of the timer effect, lines 71-75. *)
Definition timer_cleanup (a : App) : App :=
  match timerRef a with
  | Some i => clearInterval i a
  | None => a
  end.

(** The timer effect, lines 57-69. *)
Definition timer_effect (a : App) : App :=
  let c := callState (engine a) in
  if isActive c && truthy_number (startTime c) then
    let i := length (intervals a) in
    set_timerRef (Some i)
      (set_intervals
         (fun l => l ++ [mkInterval (default 0 (startTime c)) (now (engine a) + 1000) false])
         a)
  else
    match timerRef a with
    | Some i => set_timerRef None (clearInterval i a)
    | None => a
    end.

(** After a render: the timer effect runs again when
    [callState.isActive] or [callState.startTime] changed (line 76). *)
Definition commit (a : App) : App :=
  let deps := (isActive (callState (engine a)), startTime (callState (engine a))) in
  if bool_decide (deps = timerDeps a) then a
  else set_timerDeps deps (timer_effect (timer_cleanup a)).

(** The buttons of the call screen; the component renders the
    configuration screen in its place while [hasApiKey] is false. *)
Definition is_click (e : Event) : bool :=
  match e with
  | ClickStart | ClickEnd | ClickMute | ClickSpeaker => true
  | _ => false
  end.

Definition app_handle (B : Browser) (e : AppEvent) (a : App) : option App :=
  match e with
  | TypeKey s => if hasApiKey a then None else Some (set_apiKey s a)
  | SaveKey stored => if hasApiKey a then None else Some (saveApiKey stored a)
  | Tick i =>
      match intervals a !! i with
      | Some iv =>
          if negb (iv_cleared iv) && (iv_due iv <=? now (engine a))%nat
          then Some (set_engine (fun w => render (tick (iv_startTime iv) w))
                       (set_intervals
                          (alter (fun iv => mkInterval (iv_startTime iv)
                                              (now (engine a) + 1000) false) i) a))
          else None
      | None => None
      end
  | Call e =>
      if is_click e && negb (hasApiKey a) then None
      else (fun w => set_engine (fun _ => w) a) <$> step B (engine a) e
  end.

Definition app_step (B : Browser) (a : App) (e : AppEvent) : option App :=
  commit <$> app_handle B e a.

Fixpoint app_run (B : Browser) (a : App) (evs : list AppEvent) : option App :=
  match evs with
  | [] => Some a
  | e :: evs => app_step B a e ≫= fun a' => app_run B a' evs
  end.

(** The component after its first render and the two effects of mount, at
    the time [t0] of [Date.now()], with [stored] in [localStorage]: the key
    effect takes a stored key that is not the empty string; the timer
    effect finds no call and no timer. *)
Definition mount (t0 : nat) (stored : option (list N)) : App :=
  let a := mkApp (set_now (fun _ => t0) init) [] false stored None []
                 (false, None) [] in
  match stored with
  | Some (c :: k) => set_hasApiKey true (set_apiKey (c :: k) a)
  | _ => a
  end.

(** The timers that [clearInterval] has not reached. *)
Definition live (a : App) : list Interval :=
  List.filter (fun iv => negb (iv_cleared iv)) (intervals a).

(** The key in use is the stored one; a blank key can only have come from
    the store as it was at mount. *)
Definition key_inv (st : option (list N)) (a : App) : Prop :=
  (hasApiKey a = true ->
     apiKey a <> [] /\ localStorage a = Some (apiKey a)
     /\ (trim (apiKey a) = [] -> st = Some (apiKey a)))
  /\ (hasApiKey a = false -> localStorage a = st /\ (st = None \/ st = Some [])).

(** The engine as it is before any call: only its clock has moved. *)
Definition pristine (w : World) : Prop := w = set_now (fun _ => now w) init.

(** The duration timer: every timer but the one [timerRef] holds is
    cleared, and that one exists, uncleared, exactly while the dependencies
    of the effect say the call is running. *)
Definition timer_inv (a : App) : Prop :=
  (forall i iv, intervals a !! i = Some iv -> iv_cleared iv = false ->
     timerRef a = Some i /\ iv_startTime iv <> 0
     /\ timerDeps a = (true, Some (iv_startTime iv))
     /\ iv_startTime iv + 1000 <= iv_due iv)
  /\ (forall i, timerRef a = Some i ->
        exists iv, intervals a !! i = Some iv /\ iv_cleared iv = false)
  /\ (forall t, timerDeps a = (true, Some t) -> t <> 0 -> is_Some (timerRef a)).

(** Without a key: no call, no timer. *)
Definition locked (a : App) : Prop :=
  hasApiKey a = false ->
  pristine (engine a) /\ intervals a = [] /\ timerRef a = None
  /\ timerDeps a = (false, None).

(** The effect has seen the call state of the last render. *)
Definition deps_current (a : App) : Prop :=
  timerDeps a = (isActive (callState (engine a)), startTime (callState (engine a))).

(** The clock does not go back behind the time of mount, and a call
    started between then and now. *)
Definition clock_inv (t0 : nat) (w : World) : Prop :=
  t0 <= now w /\ forall t, startTime (callState w) = Some t -> t0 <= t <= now w.

Definition duration_inv (w : World) : Prop :=
  isActive (callState w) = false -> duration (callState w) = "00:00".

Definition shell_inv (t0 : nat) (a : App) : Prop :=
  timer_inv a /\ deps_current a /\ clock_inv t0 (engine a) /\ duration_inv (engine a)
  /\ lifecycle (engine a).

(** * The earlier revision of the component ([unnamed/part_000])

    The same state, refs and screen; it differs in the callbacks below.
    There is no permission query, no recorder and no [sendAudioData]; the
    setup message is sent in [onopen] itself; [onmessage] parses every
    frame as JSON; [playAudioResponse] makes one attempt, with the declared
    type.  [toggleMute], [toggleSpeaker], [onclose] and [onerror] have the
    text of the later revision and are shared. *)

Module Legacy.

(** [endCall], lines 252-283. *)
Definition endCall (w : World) : World :=
  let w := match wsRef w with
           | Some k => set_wsRef (fun _ => None) (ws_close k w)
           | None => w
           end in
  let w := match mediaStreamRef w with
           | Some s => set_mediaStreamRef (fun _ => None) (stop_tracks s w)
           | None => w
           end in
  let w := setCallState (fun _ => idleCallState) w in
  let w := setShowCallModal false w in
  let w := setConversation (fun _ => []) w in
  let w := setIsRecording false w in
  toast ToastChamadaEncerrada w.

Section Handlers.

Variable B : Browser.

(** [playAudioResponse], lines 187-212: everything is inside one [try].
    Where [audio.play()] returns no promise, [.then] throws after the
    element was created and before the ['ended'] listener is added: the
    element stays [starting] for the page. *)
Definition playAudioResponse (base64Data mimeType : string) (w : World) : World :=
  let w := set_playCalls (fun l => l ++ [(base64Data, mimeType)]) w in
  match atob B base64Data with
  | None => log ErrPlayingAudioResponse w
  | Some _ =>
      let w := set_tried (fun l => l ++ [mimeType]) w in
      match audioFacility B mimeType with
      | BlobThrows | PlayThrows => log ErrPlayingAudioResponse w
      | PlayReturns true =>
          let a := length (audios w) in
          spawn (AwaitPlay a mimeType)
            (set_audios (fun l => l ++ [mkAudio (InlineAudio mimeType) starting]) w)
      | PlayReturns false =>
          log ErrPlayingAudioResponse
            (set_audios (fun l => l ++ [mkAudio (InlineAudio mimeType) starting]) w)
      end
  end.

(** The [then] of the play promise, lines 200-202; a rejection has no
    handler. *)
Definition play_done (a : nat) (ok : bool) (w : World) : World :=
  if ok
  then set_audios (alter (fun x => mkAudio (a_source x) playing) a) (setIsRecording true w)
  else set_audios (alter (fun x => mkAudio (a_source x) rejected) a) w.

(** The parts branch of [onmessage], lines 138-156. *)
Definition on_parts (env : CallState) (ps : list Part) (w : World) : World :=
  let w := match List.find truthy_text ps with
           | Some textPart =>
               setConversation
                 (fun prev => prev ++ [mkMessage AI (part_text textPart) (now w)]) w
           | None => w
           end in
  match List.find is_audio_part ps with
  | Some audioPart =>
      if speakerEnabled env
      then playAudioResponse (part_data audioPart) (part_mimeType audioPart) w
      else w
  | None => w
  end.

(** [wsRef.current.onmessage], lines 134-165.  [JSON.parse] of a Blob
    throws. *)
Definition onmessage (env : CallState) (f : Frame) (w : World) : World :=
  match f with
  | BinaryFrame _ | TextFrame None => log ErrHandlingMessage w
  | TextFrame (Some d) =>
      let w := match parts d with
               | Some ps => on_parts env ps w
               | None => w
               end in
      if setupComplete d then setCallState (with_status connected) w else w
  end.

(** [wsRef.current.onopen], lines 100-132: [wsRef.current?.send(...)] skips
    a null ref; when [send] throws, the handler ends before the toast. *)
Definition onopen (w : World) : World :=
  let w := setCallState (with_status connected) w in
  match wsRef w with
  | None => toast ToastConectado w
  | Some k =>
      match ws_send k SetupMessage w with
      | Some w' => toast ToastConectado w'
      | None => w
      end
  end.

(** [startCall], lines 214-250, up to [await getUserMedia]. *)
Definition startCall (connect_env : CallState) (w : World) : World :=
  let w := setShowCallModal true w in
  let w := setCallState (activated (now w)) w in
  let w := setConversation (fun _ => [greeting (now w)]) w in
  spawn (AwaitUserMedia connect_env) w.

(** [startCall] from the result of [getUserMedia] on: one [catch] for every
    error. *)
Definition startCall_media (connect_env : CallState) (r : MediaResult) (w : World)
  : World :=
  match r with
  | MediaGranted n =>
      let s := length (streams w) in
      let w := set_mediaStreamRef (fun _ => Some s)
                 (set_streams (fun l => l ++ [fresh_stream n]) w) in
      connectToLiveAPI connect_env w
  | _ => endCall (toast ToastErro (log ErrStartingCall w))
  end.

Definition handle (e : Event) (w : World) : option World :=
  match e with
  | ClickStart =>
      if isActive (callState w) then None else Some (startCall (connectEnv w) w)
  | ClickEnd => if showCallModal w then Some (endCall w) else None
  | ClickMute => if showCallModal w then Some (toggleMute (muteEnv w) w) else None
  | ClickSpeaker => if showCallModal w then Some (toggleSpeaker w) else None
  | UserMediaResult t r =>
      match tasks w !! t with
      | Some (Some (AwaitUserMedia env)) =>
          match r with
          | MediaGranted 0 => None
          | _ => Some (startCall_media env r (finish t w))
          end
      | _ => None
      end
  | WsOpen k =>
      match sockets w !! k with
      | Some s =>
          if bool_decide (readyState s = CONNECTING)
          then Some (onopen (set_sockets (alter opened_socket k) w))
          else None
      | None => None
      end
  | WsMessage k f =>
      match sockets w !! k with
      | Some s =>
          if bool_decide (readyState s = OPEN) then Some (onmessage (ws_env s) f w)
          else None
      | None => None
      end
  | WsClosed k failed =>
      match sockets w !! k with
      | Some s =>
          if closeFired s || (bool_decide (readyState s = CONNECTING) && negb failed)
          then None
          else
            let w := set_sockets (alter closed_socket k) w in
            Some (onclose (if failed then onerror w else w))
      | None => None
      end
  | PlayResult t ok =>
      match tasks w !! t with
      | Some (Some (AwaitPlay a _)) => Some (play_done a ok (finish t w))
      | _ => None
      end
  | AudioEnded a =>
      match audios w !! a with
      | Some x =>
          if bool_decide (a_state x = playing) then Some (audio_ended a w) else None
      | None => None
      end
  | Advance ms => Some (set_now (fun n => n + ms) w)
  | _ => None
  end.

Definition step (w : World) (e : Event) : option World := render <$> handle e w.

Fixpoint run (w : World) (evs : list Event) : option World :=
  match evs with
  | [] => Some w
  | e :: evs => step w e ≫= fun w' => run w' evs
  end.

End Handlers.

End Legacy.

(** The earlier revision neither records nor sends audio. *)
Definition legacy_inv (w : World) : Prop :=
  Forall (fun x => x.2 = SetupMessage) (wire w)
  /\ recorders w = [] /\ mediaRecorderRef w = None.

(** * Properties *)

(** ** Runs *)

Arguments handle : simpl never.
Arguments render : simpl never.
Arguments step : simpl never.

Section Runs.

Variable B : Browser.

Lemma run_app (w : World) (l1 l2 : list Event) :
  run B w (l1 ++ l2) = run B w l1 ≫= fun w' => run B w' l2.
Proof.
  revert w. induction l1 as [|e l1 IH]; intros w; simpl; [done|].
  destruct (step B w e) as [w1|]; simpl; [apply IH|done].
Qed.

Lemma run_snoc (w : World) (l : list Event) (e : Event) :
  run B w (l ++ [e]) = run B w l ≫= fun w' => step B w' e.
Proof.
  rewrite run_app. destruct (run B w l) as [w1|]; simpl; [|done].
  by destruct (step B w1 e).
Qed.

(** An invariant of every task is an invariant of every run. *)
Lemma run_invariant (P : World -> Prop) :
  (forall w e w', P w -> step B w e = Some w' -> P w') ->
  forall evs w w', P w -> run B w evs = Some w' -> P w'.
Proof.
  intros Hstep evs. induction evs as [|e evs IH]; intros w w' HP Hrun; simpl in Hrun.
  - by simplify_eq.
  - destruct (step B w e) as [w1|] eqn:Hs; simpl in Hrun; [|done].
    eapply IH; [|done]. by eapply Hstep.
Qed.

End Runs.

Lemma step_inv B w e w' :
  step B w e = Some w' -> exists w1, handle B e w = Some w1 /\ w' = render w1.
Proof.
  unfold step. destruct (handle B e w) as [w1|]; simpl; [|done].
  intros [= <-]. eauto.
Qed.

(** ** What the re-render leaves alone *)

Lemma render_callState w : callState (render w) = callState w.
Proof. unfold render. by repeat case_bool_decide. Qed.

Lemma render_muteEnv w : muteEnv (render w) = isMuted (callState (render w)).
Proof. unfold render. by repeat case_bool_decide. Qed.

Lemma render_connectEnv_speaker w :
  speakerEnabled (connectEnv (render w)) = speakerEnabled (callState (render w)).
Proof. unfold render. by repeat case_bool_decide. Qed.

Lemma render_observable w : observable (render w) = observable w.
Proof. unfold render. by repeat case_bool_decide. Qed.

Lemma render_showCallModal w : showCallModal (render w) = showCallModal w.
Proof. unfold render. by repeat case_bool_decide. Qed.

Lemma render_conversation w : conversation (render w) = conversation w.
Proof. unfold render. by repeat case_bool_decide. Qed.

Lemma render_isRecording w : isRecording (render w) = isRecording w.
Proof. unfold render. by repeat case_bool_decide. Qed.

Lemma render_wsRef w : wsRef (render w) = wsRef w.
Proof. unfold render. by repeat case_bool_decide. Qed.

Lemma render_mediaStreamRef w : mediaStreamRef (render w) = mediaStreamRef w.
Proof. unfold render. by repeat case_bool_decide. Qed.

Lemma render_mediaRecorderRef w : mediaRecorderRef (render w) = mediaRecorderRef w.
Proof. unfold render. by repeat case_bool_decide. Qed.

Lemma render_sockets w : sockets (render w) = sockets w.
Proof. unfold render. by repeat case_bool_decide. Qed.

Lemma render_streams w : streams (render w) = streams w.
Proof. unfold render. by repeat case_bool_decide. Qed.

Lemma render_recorders w : recorders (render w) = recorders w.
Proof. unfold render. by repeat case_bool_decide. Qed.

Lemma render_audios w : audios (render w) = audios w.
Proof. unfold render. by repeat case_bool_decide. Qed.

Lemma render_tasks w : tasks (render w) = tasks w.
Proof. unfold render. by repeat case_bool_decide. Qed.

Lemma render_now w : now (render w) = now w.
Proof. unfold render. by repeat case_bool_decide. Qed.

Lemma render_wire w : wire (render w) = wire w.
Proof. unfold render. by repeat case_bool_decide. Qed.

Lemma render_toasts w : toasts (render w) = toasts w.
Proof. unfold render. by repeat case_bool_decide. Qed.

Lemma render_console w : console (render w) = console w.
Proof. unfold render. by repeat case_bool_decide. Qed.

Lemma render_tried w : tried (render w) = tried w.
Proof. unfold render. by repeat case_bool_decide. Qed.

Lemma render_playCalls w : playCalls (render w) = playCalls w.
Proof. unfold render. by repeat case_bool_decide. Qed.

Create Rewrite HintDb render.
#[global] Hint Rewrite render_callState render_showCallModal render_conversation
  render_isRecording render_wsRef render_mediaStreamRef render_mediaRecorderRef render_sockets
  render_streams render_recorders render_audios render_tasks render_now
  render_wire render_toasts render_console render_tried render_playCalls : render.

(** ** Lists *)

Ltac lengths := rewrite ?length_map, ?length_alter, ?length_app, ?length_insert in *.

Lemma existsb_snoc {A} (f : A -> bool) l x :
  existsb f (l ++ [x]) = existsb f l || f x.
Proof. rewrite existsb_app. simpl. by rewrite orb_false_r. Qed.

Lemma filter_snoc {A} (f : A -> bool) l x :
  List.filter f (l ++ [x]) = List.filter f l ++ (if f x then [x] else []).
Proof. by rewrite List.filter_app. Qed.

Lemma filter_filter_snoc k (l : list (nat * OutMsg)) x :
  List.filter (fun x => Nat.eqb x.1 k) (List.filter is_audio_frame (l ++ [x]))
  = List.filter (fun x => Nat.eqb x.1 k) (List.filter is_audio_frame l)
    ++ (if is_audio_frame x && Nat.eqb x.1 k then [x] else []).
Proof.
  rewrite !filter_snoc. destruct (is_audio_frame x); simpl.
  - by rewrite filter_snoc.
  - by rewrite !app_nil_r.
Qed.

Lemma existsb_finish i (l : list (option Task)) :
  existsb forwarding_task (<[i:=None]> l) = true -> existsb forwarding_task l = true.
Proof.
  revert i. induction l as [|x l IH]; intros [|i]; simpl; try done.
  - intros ->. by rewrite orb_true_r.
  - rewrite !orb_true_iff. intros [?|?]; [by left|right; eauto].
Qed.

Lemma existsb_lookup (l : list (option Task)) t x :
  l !! t = Some x -> forwarding_task x = true -> existsb forwarding_task l = true.
Proof.
  intros Hl Hx. apply existsb_exists. exists x. split; [|done].
  apply list_elem_of_In. by eapply list_elem_of_lookup_2.
Qed.

Lemma insert_length_snoc {A} (l : list A) (x y : A) :
  <[length l := y]> (l ++ [x]) = l ++ [y].
Proof. induction l as [|a l IH]; simpl; [done|]. by rewrite IH. Qed.

Lemma find_existsb {A} (f : A -> bool) l :
  existsb f l = true -> exists x, List.find f l = Some x.
Proof.
  induction l as [|a l IH]; simpl; [done|].
  destruct (f a); [eauto|]. simpl. done.
Qed.

(** ** What [playAudioResponse] and the parts branch leave alone *)

Lemma play_loop_session B types url w :
  session (play_loop B types url w).2 = session w.
Proof.
  revert url w. induction types as [|type rest IH]; intros url w; simpl; [done|].
  destruct (audioFacility B type) as [| |[]]; simpl; try done; by rewrite IH.
Qed.

Lemma playAudioResponse_session B d m w :
  session (playAudioResponse B d m w) = session w.
Proof.
  unfold playAudioResponse. destruct (atob B d); [|done].
  pose proof (play_loop_session B (supportedTypes m) false
    (set_playCalls (fun l => l ++ [(d, m)]) w)) as H.
  destruct (play_loop _ _ _ _) as [[] w']; simpl in H; exact H.
Qed.

Lemma playAudioResponse_core B d m w : core (playAudioResponse B d m w) = core w.
Proof. exact (f_equal snd (playAudioResponse_session B d m w)). Qed.

Lemma on_parts_core B env ps w : core (on_parts B env ps w) = core w.
Proof.
  unfold on_parts.
  destruct (List.find truthy_text ps), (List.find is_audio_part ps), (speakerEnabled env);
    rewrite ?playAudioResponse_core; reflexivity.
Qed.

Lemma core_inv w1 w2 :
  core w1 = core w2 ->
  callState w1 = callState w2 /\ showCallModal w1 = showCallModal w2
  /\ isRecording w1 = isRecording w2 /\ wsRef w1 = wsRef w2
  /\ mediaStreamRef w1 = mediaStreamRef w2 /\ mediaRecorderRef w1 = mediaRecorderRef w2
  /\ connectEnv w1 = connectEnv w2 /\ muteEnv w1 = muteEnv w2
  /\ sockets w1 = sockets w2 /\ streams w1 = streams w2
  /\ recorders w1 = recorders w2 /\ now w1 = now w2
  /\ wire w1 = wire w2 /\ toasts w1 = toasts w2.
Proof. unfold core. intros H. injection H. intros. by split_and!. Qed.

Section OnPartsFields.
Variables (B : Browser) (env : CallState) (ps : list Part) (w : World).
Let on_parts_fields := core_inv _ _ (on_parts_core B env ps w).
Lemma on_parts_callState : callState (on_parts B env ps w) = callState w.
Proof. apply on_parts_fields. Qed.
Lemma on_parts_showCallModal : showCallModal (on_parts B env ps w) = showCallModal w.
Proof. apply on_parts_fields. Qed.
Lemma on_parts_wsRef : wsRef (on_parts B env ps w) = wsRef w.
Proof. apply on_parts_fields. Qed.
Lemma on_parts_mediaStreamRef : mediaStreamRef (on_parts B env ps w) = mediaStreamRef w.
Proof. apply on_parts_fields. Qed.
Lemma on_parts_connectEnv : connectEnv (on_parts B env ps w) = connectEnv w.
Proof. apply on_parts_fields. Qed.
Lemma on_parts_sockets : sockets (on_parts B env ps w) = sockets w.
Proof. apply on_parts_fields. Qed.
Lemma on_parts_streams : streams (on_parts B env ps w) = streams w.
Proof. apply on_parts_fields. Qed.
Lemma on_parts_recorders : recorders (on_parts B env ps w) = recorders w.
Proof. apply on_parts_fields. Qed.
Lemma on_parts_now : now (on_parts B env ps w) = now w.
Proof. apply on_parts_fields. Qed.
Lemma on_parts_wire : wire (on_parts B env ps w) = wire w.
Proof. apply on_parts_fields. Qed.
End OnPartsFields.

Lemma play_loop_playCalls B types url w :
  playCalls (play_loop B types url w).2 = playCalls w.
Proof.
  revert url w. induction types as [|type rest IH]; intros url w; simpl; [done|].
  destruct (audioFacility B type) as [| |[]]; simpl; rewrite ?IH; done.
Qed.

Lemma playAudioResponse_playCalls B d m w :
  playCalls (playAudioResponse B d m w) = playCalls w ++ [(d, m)].
Proof.
  unfold playAudioResponse. destruct (atob B d); [|done].
  pose proof (play_loop_playCalls B (supportedTypes m) false
    (set_playCalls (fun l => l ++ [(d, m)]) w)) as H.
  revert H. generalize (play_loop B (supportedTypes m) false
    (set_playCalls (fun l => l ++ [(d, m)]) w)). by intros [[] w1].
Qed.

Lemma playAudioResponse_conversation B d m w :
  conversation (playAudioResponse B d m w) = conversation w.
Proof. exact (f_equal fst (playAudioResponse_session B d m w)). Qed.

(** What [on_parts] appends to the transcript. *)
Lemma on_parts_conversation B env ps w :
  conversation (on_parts B env ps w)
  = conversation w
    ++ match List.find truthy_text ps with
       | Some p => [mkMessage AI (part_text p) (now w)]
       | None => []
       end.
Proof.
  unfold on_parts.
  destruct (List.find truthy_text ps), (List.find is_audio_part ps), (speakerEnabled env);
    rewrite ?playAudioResponse_conversation; simpl; by rewrite ?app_nil_r.
Qed.

(** How often [on_parts] calls [playAudioResponse]. *)
Lemma on_parts_playCalls B env ps w :
  playCalls (on_parts B env ps w)
  = playCalls w
    ++ match List.find is_audio_part ps with
       | Some p => if speakerEnabled env then [(part_data p, part_mimeType p)] else []
       | None => []
       end.
Proof.
  unfold on_parts.
  destruct (List.find truthy_text ps), (List.find is_audio_part ps), (speakerEnabled env);
    rewrite ?playAudioResponse_playCalls; simpl; by rewrite ?app_nil_r.
Qed.

Lemma playAudioResponse_audios_first B d m w bytes p :
  atob B d = Some bytes ->
  audioFacility B "audio/mp3" = PlayReturns p ->
  audios (playAudioResponse B d m w)
  = audios w ++ [mkAudio (InlineAudio "audio/mp3") (if p then starting else playing)].
Proof.
  intros Ha Hf. unfold playAudioResponse. rewrite Ha.
  unfold supportedTypes. cbn [play_loop]. rewrite Hf. by destruct p.
Qed.

(** The one [Audio] element [on_parts] creates when the first candidate
    type starts playing. *)
Lemma on_parts_audios B env ps w ap bytes p :
  List.find is_audio_part ps = Some ap ->
  speakerEnabled env = true ->
  atob B (part_data ap) = Some bytes ->
  audioFacility B "audio/mp3" = PlayReturns p ->
  audios (on_parts B env ps w)
  = audios w ++ [mkAudio (InlineAudio "audio/mp3") (if p then starting else playing)].
Proof.
  intros Hap Hsp Ha Hf. unfold on_parts. rewrite Hap, Hsp.
  destruct (List.find truthy_text ps); by erewrite playAudioResponse_audios_first.
Qed.

Lemma play_loop_tasks B types url w :
  existsb forwarding_task (tasks (play_loop B types url w).2)
  = existsb forwarding_task (tasks w).
Proof.
  revert url w. induction types as [|type rest IH]; intros url w; simpl; [done|].
  destruct (audioFacility B type) as [| |[]]; simpl; rewrite ?IH; try done.
  by rewrite existsb_snoc, orb_false_r.
Qed.

Lemma playAudioResponse_tasks B d m w :
  existsb forwarding_task (tasks (playAudioResponse B d m w))
  = existsb forwarding_task (tasks w).
Proof.
  unfold playAudioResponse. destruct (atob B d); [|done].
  pose proof (play_loop_tasks B (supportedTypes m) false
    (set_playCalls (fun l => l ++ [(d, m)]) w)) as H.
  revert H. generalize (play_loop B (supportedTypes m) false
    (set_playCalls (fun l => l ++ [(d, m)]) w)). by intros [[] w1].
Qed.

Lemma on_parts_tasks B env ps w :
  existsb forwarding_task (tasks (on_parts B env ps w))
  = existsb forwarding_task (tasks w).
Proof.
  unfold on_parts.
  destruct (List.find truthy_text ps), (List.find is_audio_part ps), (speakerEnabled env);
    rewrite ?playAudioResponse_tasks; reflexivity.
Qed.

Lemma on_parts_armed B env ps w : armed (on_parts B env ps w) <-> armed w.
Proof. unfold armed. by rewrite on_parts_tasks, on_parts_recorders, on_parts_wire. Qed.

Lemma on_parts_counts B env ps w :
  wire (on_parts B env ps w) = wire w
  /\ recorders (on_parts B env ps w) = recorders w.
Proof. by rewrite on_parts_recorders, on_parts_wire. Qed.

Lemma play_loop_tasks_speaker B types url w :
  Forall task_speaker (tasks w) ->
  Forall task_speaker (tasks (play_loop B types url w).2).
Proof.
  revert url w. induction types as [|type rest IH]; intros url w Hw; simpl; [done|].
  destruct (audioFacility B type) as [| |[]]; simpl; try by apply IH.
  - apply Forall_app. split; [done|]. by repeat constructor.
  - done.
Qed.

Lemma playAudioResponse_tasks_speaker B d m w :
  Forall task_speaker (tasks w) ->
  Forall task_speaker (tasks (playAudioResponse B d m w)).
Proof.
  intros Hw. unfold playAudioResponse. destruct (atob B d); [|done].
  pose proof (play_loop_tasks_speaker B (supportedTypes m) false
    (set_playCalls (fun l => l ++ [(d, m)]) w) Hw) as H.
  revert H. generalize (play_loop B (supportedTypes m) false
    (set_playCalls (fun l => l ++ [(d, m)]) w)). by intros [[] w1].
Qed.

Lemma on_parts_tasks_speaker B env ps w :
  Forall task_speaker (tasks w) ->
  Forall task_speaker (tasks (on_parts B env ps w)).
Proof.
  intros Hw. unfold on_parts.
  destruct (List.find truthy_text ps), (List.find is_audio_part ps), (speakerEnabled env);
    try done; by apply playAudioResponse_tasks_speaker.
Qed.

(** ** Ending a call *)

Lemma closing_not_open s :
  readyState (closing s) <> OPEN /\ readyState (closing s) <> CONNECTING.
Proof. unfold closing. by destruct s as [[] ? ?]; simpl. Qed.

Lemma closing_env s : ws_env (closing s) = ws_env s.
Proof. unfold closing. by destruct (readyState s). Qed.

Lemma stop_recorder_not_recording r : rec_state (stop_recorder r) <> recording.
Proof. unfold stop_recorder. by destruct r as [? [] ?]; simpl. Qed.

Lemma stop_recorder_idem r : stop_recorder (stop_recorder r) = stop_recorder r.
Proof. unfold stop_recorder. by destruct r as [? [] ?]; simpl. Qed.

(** The eight paths through the three release blocks of [endCall]. *)
Ltac endCall_paths w :=
  unfold endCall;
  destruct (wsRef w) eqn:?; simpl;
  destruct (mediaRecorderRef w) eqn:?; simpl;
  destruct (mediaStreamRef w) eqn:?; simpl.

(** After [endCall] the three refs are null, so a second call skips the
    three release blocks and only repeats the state reset and the toast. *)
Lemma endCall_refs w :
  wsRef (endCall w) = None /\ mediaStreamRef (endCall w) = None
  /\ mediaRecorderRef (endCall w) = None.
Proof. by endCall_paths w. Qed.

Lemma endCall_state w :
  callState (endCall w) = idleCallState /\ showCallModal (endCall w) = false
  /\ conversation (endCall w) = [] /\ isRecording (endCall w) = false.
Proof. by endCall_paths w. Qed.

Lemma endCall_null w :
  wsRef w = None -> mediaRecorderRef w = None -> mediaStreamRef w = None ->
  endCall w = reset_state w.
Proof.
  intros H1 H2 H3. unfold endCall. rewrite H1. simpl. rewrite H2. simpl.
  by rewrite H3.
Qed.

Lemma endCall_shape w : exists x, endCall w = reset_state x.
Proof. eexists. unfold endCall. cbv zeta. reflexivity. Qed.

Lemma endCall_twice w : endCall (endCall w) = toast ToastChamadaEncerrada (endCall w).
Proof.
  destruct (endCall_refs w) as (Hws & Hms & Hmr).
  rewrite endCall_null by done.
  destruct (endCall_shape w) as [x ->]. reflexivity.
Qed.

Lemma endCall_released w : released w (endCall w).
Proof.
  unfold released. split_and!.
  - intros k s Hk Hs. endCall_paths w; simplify_eq;
      by rewrite list_lookup_alter_eq, Hs.
  - intros i ts Hi Hs. endCall_paths w; simplify_eq;
      by rewrite list_lookup_alter_eq, Hs.
  - intros r rc Hr Hrc. endCall_paths w; simplify_eq;
      rewrite ?list_lookup_fmap, list_lookup_alter_eq, Hrc; simpl;
      (eexists; split; [reflexivity|]);
      try case_bool_decide; rewrite ?stop_recorder_idem;
      apply stop_recorder_not_recording.
Qed.

Lemma endCall_showCallModal w : showCallModal (endCall w) = false.
Proof. apply endCall_state. Qed.

Lemma endCall_callState w : callState (endCall w) = idleCallState.
Proof. apply endCall_state. Qed.

Lemma endCall_conversation w : conversation (endCall w) = [].
Proof. apply endCall_state. Qed.

Lemma endCall_wire w : wire (endCall w) = wire w.
Proof. by endCall_paths w. Qed.

Lemma endCall_tasks w : tasks (endCall w) = tasks w.
Proof. by endCall_paths w. Qed.

Lemma endCall_now w : now (endCall w) = now w.
Proof. by endCall_paths w. Qed.

Lemma endCall_connectEnv w : connectEnv (endCall w) = connectEnv w.
Proof. by endCall_paths w. Qed.

Lemma endCall_sockets w :
  sockets (endCall w)
  = match wsRef w with Some k => alter closing k (sockets w) | None => sockets w end.
Proof. by endCall_paths w. Qed.

Lemma endCall_sockets_length w : length (sockets (endCall w)) = length (sockets w).
Proof. rewrite endCall_sockets. destruct (wsRef w); by lengths. Qed.

Lemma endCall_counts w :
  wire (endCall w) = wire w
  /\ length (recorders (endCall w)) = length (recorders w).
Proof. by endCall_paths w; lengths. Qed.

Lemma endCall_armed w : armed (endCall w) -> armed w.
Proof. unfold armed. endCall_paths w; lengths; try done. Qed.

(** C7: from any state, [endCall] leaves the session at its idle defaults
    (status idle, no start time, not muted, speaker enabled), the modal
    closed, the transcript empty and the three refs null; the socket the
    ref pointed to is closed, the tracks of the stream are stopped, the
    recorder no longer records.  A second call in a row changes nothing:
    it only emits its notification again. *)
Theorem endCall_resets_and_is_idempotent (w : World) :
  callState (endCall w) = idleCallState
  /\ showCallModal (endCall w) = false
  /\ conversation (endCall w) = []
  /\ isRecording (endCall w) = false
  /\ wsRef (endCall w) = None
  /\ mediaStreamRef (endCall w) = None
  /\ mediaRecorderRef (endCall w) = None
  /\ released w (endCall w)
  /\ endCall (endCall w) = toast ToastChamadaEncerrada (endCall w)
  /\ set_toasts (fun _ => []) (endCall (endCall w)) = set_toasts (fun _ => []) (endCall w).
Proof.
  destruct (endCall_refs w) as (Hws & Hms & Hmr).
  destruct (endCall_state w) as (Hcs & Hmod & Hconv & Hrec).
  split_and!; try done.
  - apply endCall_released.
  - apply endCall_twice.
  - rewrite endCall_twice. by destruct (endCall_shape w) as [x ->].
Qed.

(** ** Starting a call with the permission denied *)

Lemma finish_spawn t w :
  finish (length (tasks w)) (spawn t w) = set_tasks (fun l => l ++ [None]) w.
Proof. unfold finish, spawn, set_tasks. simpl. by rewrite insert_length_snoc. Qed.

(** The handler of a denied permission: one toast, and [startCall] returns. *)
Lemma handle_permission_denied B w t env :
  tasks w !! t = Some (Some (AwaitPermission env)) ->
  handle B (PermissionResult t (Some denied)) w
  = Some (toast ToastPermissaoNegada (finish t w)).
Proof. intros H. unfold handle. by rewrite H. Qed.

(** C9: when the permission query answers [denied], [startCall] emits the
    one permission toast and returns.  The session state, the modal, the
    transcript, the refs, the sockets and the streams are as before: no
    stream and no connection is acquired, and the call leaves no pending
    continuation behind (its only task is finished). *)
Theorem startCall_denied_changes_nothing (B : Browser) (w w' : World) :
  run B w [ClickStart; PermissionResult (length (tasks w)) (Some denied)] = Some w' ->
  callState w' = callState w
  /\ showCallModal w' = showCallModal w
  /\ conversation w' = conversation w
  /\ isRecording w' = isRecording w
  /\ wsRef w' = wsRef w
  /\ mediaStreamRef w' = mediaStreamRef w
  /\ mediaRecorderRef w' = mediaRecorderRef w
  /\ sockets w' = sockets w
  /\ streams w' = streams w
  /\ recorders w' = recorders w
  /\ wire w' = wire w
  /\ toasts w' = toasts w ++ [ToastPermissaoNegada]
  /\ tasks w' = tasks w ++ [None].
Proof.
  intros Hrun. simpl in Hrun.
  destruct (step B w ClickStart) as [w1|] eqn:H1; simpl in Hrun; [|done].
  destruct (step B w1 _) as [w2|] eqn:H2; simpl in Hrun; [|done].
  simplify_eq.
  apply step_inv in H1 as (v1 & Hh1 & ->).
  unfold handle in Hh1. destruct (isActive (callState w)); [done|].
  injection Hh1 as <-.
  apply step_inv in H2 as (v2 & Hh2 & ->).
  rewrite (handle_permission_denied B _ _ (connectEnv w)) in Hh2.
  2:{ autorewrite with render. unfold startCall, spawn. cbn [tasks set_tasks].
      by rewrite lookup_app_r, Nat.sub_diag by lia. }
  injection Hh2 as <-.
  autorewrite with render. unfold toast, finish, startCall, spawn.
  cbn [callState showCallModal conversation isRecording wsRef mediaStreamRef
       mediaRecorderRef sockets streams recorders wire toasts tasks set_toasts set_tasks].
  autorewrite with render. cbn [tasks set_tasks]. rewrite insert_length_snoc.
  by split_and!.
Qed.

Lemma startCall_denied_witness :
  run chrome init denied_run = Some after_denied
  /\ callState after_denied = callState init
  /\ showCallModal after_denied = showCallModal init
  /\ conversation after_denied = conversation init
  /\ isRecording after_denied = isRecording init
  /\ wsRef after_denied = wsRef init
  /\ mediaStreamRef after_denied = mediaStreamRef init
  /\ mediaRecorderRef after_denied = mediaRecorderRef init
  /\ sockets after_denied = sockets init
  /\ streams after_denied = streams init
  /\ recorders after_denied = recorders init
  /\ wire after_denied = wire init
  /\ toasts after_denied = toasts init ++ [ToastPermissaoNegada]
  /\ tasks after_denied = tasks init ++ [None].
Proof.
  split; [reflexivity|].
  apply (startCall_denied_changes_nothing chrome init after_denied). reflexivity.
Defined.

(** ** The candidate loop of [playAudioResponse] *)

Lemma play_loop_tried B types url w :
  exists l c,
    tried (play_loop B types url w).2 = tried w ++ l
    /\ (l `prefix_of` types)
    /\ (types <> [] -> l <> [])
    /\ console (play_loop B types url w).2 = console w ++ c
    /\ (ErrNoSupportedFormat ∉ c)
    /\ ((play_loop B types url w).1 = false -> l = types /\ url = false).
Proof.
  revert url w. induction types as [|type rest IH]; intros url w; simpl.
  - exists [], []. rewrite !app_nil_r. split_and!; try done. apply not_elem_of_nil.
  - destruct (audioFacility B type) as [| |promise] eqn:Hf.
    + destruct (IH url (log (LogTypeNotSupported type)
                          (set_tried (fun l => l ++ [type]) w)))
        as (l & c & Ht & Hp & _ & Hc & Hn & Hu).
      exists (type :: l), (LogTypeNotSupported type :: c).
      rewrite Ht, Hc. simpl. rewrite <- !app_assoc. simpl.
      split_and!; try done.
      * by apply prefix_cons.
      * by apply not_elem_of_cons.
      * intros Hfalse. destruct (Hu Hfalse) as [-> ->]. done.
    + destruct (IH true (log (LogTypeNotSupported type)
                           (set_tried (fun l => l ++ [type]) w)))
        as (l & c & Ht & Hp & _ & Hc & Hn & Hu).
      exists (type :: l), (LogTypeNotSupported type :: c).
      rewrite Ht, Hc. simpl. rewrite <- !app_assoc. simpl.
      split_and!; try done.
      * by apply prefix_cons.
      * by apply not_elem_of_cons.
      * intros Hfalse. by destruct (Hu Hfalse) as [_ ?].
    + exists [type], []. rewrite app_nil_r.
      destruct promise; simpl; split_and!; try done;
        try (apply prefix_cons, prefix_nil); apply not_elem_of_nil.
Qed.

(** C5, as the code has it: with a payload whose base64 decodes, the
    candidates are entered in the order of [supportedTypes]: "audio/mp3",
    "audio/wav", "audio/ogg" and, last, the declared type.  The types tried
    are a non-empty prefix of that list, so the first attempt is always
    "audio/mp3"; and 'No supported audio format found' is logged only when
    all four candidates have been tried, as the last line of the call. *)
Theorem playAudioResponse_candidate_order (B : Browser) (d m bytes : string) (w : World) :
  atob B d = Some bytes ->
  exists l c,
    tried (playAudioResponse B d m w) = tried w ++ l
    /\ (l `prefix_of` ["audio/mp3"; "audio/wav"; "audio/ogg"; m])
    /\ head l = Some "audio/mp3"
    /\ console (playAudioResponse B d m w) = console w ++ c
    /\ (ErrNoSupportedFormat ∈ c ->
        l = ["audio/mp3"; "audio/wav"; "audio/ogg"; m]
        /\ last c = Some ErrNoSupportedFormat).
Proof.
  intros Hatob. unfold playAudioResponse. rewrite Hatob.
  destruct (play_loop_tried B (supportedTypes m) false
              (set_playCalls (fun l => l ++ [(d, m)]) w))
    as (l & c & Ht & Hp & Hne & Hc & Hn & Hu).
  revert Ht Hc Hu.
  generalize (play_loop B (supportedTypes m) false
                (set_playCalls (fun l => l ++ [(d, m)]) w)).
  intros [url w1]. cbn [fst snd]. intros Ht Hc Hu.
  change (tried (set_playCalls (fun l => l ++ [(d, m)]) w)) with (tried w) in Ht.
  change (console (set_playCalls (fun l => l ++ [(d, m)]) w)) with (console w) in Hc.
  assert (Hhead : head l = Some "audio/mp3").
  { destruct Hp as [k Hk]. destruct l as [|x l]; [by destruct Hne|].
    unfold supportedTypes in Hk. by injection Hk as <- _. }
  destruct url.
  - exists l, c. split_and!; try done.
  - destruct (Hu eq_refl) as [-> _].
    exists (supportedTypes m), (c ++ [ErrNoSupportedFormat]).
    change (console (log ErrNoSupportedFormat w1)) with (console w1 ++ [ErrNoSupportedFormat]).
    change (tried (log ErrNoSupportedFormat w1)) with (tried w1).
    rewrite Hc, <- app_assoc. split_and!; try done.
    intros _. split; [done|]. by rewrite last_snoc.
Qed.

Lemma playAudioResponse_candidate_order_witness :
  exists l c,
    tried pcm_played = tried init ++ l
    /\ (l `prefix_of` ["audio/mp3"; "audio/wav"; "audio/ogg"; "audio/pcm"])
    /\ head l = Some "audio/mp3"
    /\ console pcm_played = console init ++ c
    /\ (ErrNoSupportedFormat ∈ c ->
        l = ["audio/mp3"; "audio/wav"; "audio/ogg"; "audio/pcm"]
        /\ last c = Some ErrNoSupportedFormat).
Proof.
  apply (playAudioResponse_candidate_order chrome "UklGRg==" "audio/pcm" "UklGRg==" init).
  reflexivity.
Defined.

(** C5 as written fails: the payload declares "audio/pcm", every type would
    play, and the one attempt made is with "audio/mp3"; the declared type
    is not tried first, nor at all. *)
Lemma declared_type_is_not_tried_first :
  atob chrome "UklGRg==" = Some "UklGRg=="
  /\ tried pcm_played = ["audio/mp3"]
  /\ head (tried pcm_played) <> Some "audio/pcm"
  /\ ("audio/pcm" ∉ tried pcm_played).
Proof.
  split_and!; try done.
  change (tried pcm_played) with ["audio/mp3"].
  apply not_elem_of_cons. split; [done|apply not_elem_of_nil].
Qed.

(** ** One task at a time *)

(** From here on [endCall] and the parts branch are used through the
    equations above. *)
Create Rewrite HintDb fields.
#[global] Hint Rewrite on_parts_callState on_parts_showCallModal on_parts_wsRef
  on_parts_mediaStreamRef on_parts_connectEnv on_parts_sockets on_parts_streams
  on_parts_recorders on_parts_now on_parts_wire
  endCall_showCallModal endCall_callState endCall_conversation
  endCall_wire endCall_tasks endCall_now endCall_connectEnv endCall_sockets : fields.

Opaque endCall on_parts.

(** The handlers that are single straight-line blocks; [endCall], the loop
    of [playAudioResponse] and [on_parts] have lemmas of their own. *)
Ltac unfold_handlers :=
  unfold startCall, startCall_permission, startCall_media, connectToLiveAPI,
    onopen, onclose, onerror, onmessage, on_setupComplete, setup_timer, stream_timer,
    ondataavailable, sendAudioData, sendAudioData_resume, reader_onload, decode_done,
    play_done, audio_ended, toggleMute, toggleSpeaker, ws_send in *.

Ltac fields := repeat (progress (simpl; autorewrite with fields)).

(** ** Status [connected] *)

Lemma callState_core w1 w2 : core w1 = core w2 -> callState w1 = callState w2.
Proof. unfold core. by intros [= -> _]. Qed.

Lemma step_status B w e w' :
  step B w e = Some w' ->
  status (callState w') = connected ->
  status (callState w) = connected \/ handshake_event e = true.
Proof.
  intros (w1 & Hh & ->)%step_inv. rewrite render_callState.
  destruct e; unfold handle in Hh; repeat case_match; simplify_eq.
  all: try (by right).
  all: unfold_handlers; repeat case_match; simplify_eq.
  all: rewrite ?(proj1 (endCall_state _)); simpl.
  all: rewrite ?(callState_core _ _ (on_parts_core _ _ _ _)).
  all: try done; try (by left); try tauto.
Qed.

Lemma run_status B evs w0 w :
  run B w0 evs = Some w ->
  status (callState w) = connected ->
  status (callState w0) = connected \/ Exists (fun e => handshake_event e = true) evs.
Proof.
  revert w0. induction evs as [|e evs IH]; intros w0 Hrun Hst; simpl in Hrun.
  - left. by simplify_eq.
  - destruct (step B w0 e) as [w1|] eqn:Hs; simpl in Hrun; [|done].
    destruct (IH _ Hrun Hst) as [H1|Hex].
    + destruct (step_status _ _ _ _ Hs H1) as [?|?]; [by left|].
      right. by apply Exists_cons_hd.
    + right. by apply Exists_cons_tl.
Qed.

(** C1, as the code has it: whenever the status is [connected], the run so
    far contains the open event of a socket or a setupComplete message; each
    of the two handlers sets the status, so the open event alone is enough. *)
Theorem connected_only_after_open_or_ack (B : Browser) (evs : list Event) (w : World) :
  run B init evs = Some w ->
  status (callState w) = connected ->
  Exists (fun e => handshake_event e = true) evs.
Proof.
  intros Hrun Hst. by destruct (run_status _ _ _ _ Hrun Hst).
Qed.

Lemma connected_only_after_open_or_ack_witness :
  run chrome init connect_run = Some (after connect_run)
  /\ status (callState (after connect_run)) = connected
  /\ Exists (fun e => handshake_event e = true) connect_run.
Proof.
  split; [by vm_compute|]. split; [by vm_compute|].
  apply (connected_only_after_open_or_ack chrome connect_run (after connect_run));
    by vm_compute.
Defined.

(** C1 as written fails: the socket opens and the status is [connected],
    and no setupComplete message was received in the run. *)
Lemma connected_without_setupComplete :
  run chrome init connect_run = Some (after connect_run)
  /\ status (callState (after connect_run)) = connected
  /\ Forall (fun e => ack_event e = false) connect_run.
Proof.
  split; [by vm_compute|]. split; [by vm_compute|].
  unfold connect_run. repeat constructor.
Qed.

(** ** No audio before the handshake is acknowledged *)

Ltac armed_close :=
  unfold armed; simpl; lengths; rewrite ?existsb_snoc, ?orb_false_r;
  first [ tauto
        | (intros _; left; left; eapply existsb_lookup; [eassumption | reflexivity])
        | (intros _; left; right; left;
           match goal with H : recorders _ !! _ = Some _ |- _ =>
             apply lookup_lt_Some in H; lia end)
        | (intros [?%existsb_finish | ?]; tauto) ].

Lemma step_armed B w e w' :
  step B w e = Some w' -> armed w' -> armed w \/ ack_event e = true.
Proof.
  intros (w1 & Hh & ->)%step_inv.
  assert (Hr : armed (render w1) -> armed w1) by (by unfold armed; autorewrite with render).
  intros Ha%Hr. clear Hr.
  destruct e; unfold handle in Hh; repeat case_match; simplify_eq.
  all: unfold_handlers; repeat case_match; simplify_eq.
  all: try (right; simpl; done).
  all: repeat match type of Ha with
       | armed (endCall _) => apply endCall_armed in Ha
       | armed (on_parts _ _ _ _) => apply on_parts_armed in Ha
       end.
  all: revert Ha; armed_close.
Qed.

Lemma run_armed B evs w0 w :
  run B w0 evs = Some w -> armed w ->
  armed w0 \/ Exists (fun e => ack_event e = true) evs.
Proof.
  revert w0. induction evs as [|e evs IH]; intros w0 Hrun Ha; simpl in Hrun.
  - left. by simplify_eq.
  - destruct (step B w0 e) as [w1|] eqn:Hs; simpl in Hrun; [|done].
    destruct (IH _ Hrun Ha) as [H1|Hex].
    + destruct (step_armed _ _ _ _ Hs H1) as [?|?]; [by left|].
      right. by apply Exists_cons_hd.
    + right. by apply Exists_cons_tl.
Qed.

Lemma init_not_armed : ~ armed init.
Proof. unfold armed. simpl. intros [?|[?|?]]; (done || lia). Qed.

(** The task that transmits an audio frame or creates a recorder finds the
    path armed. *)
Lemma step_growth_armed B w e w' :
  step B w e = Some w' ->
  length (audio_frames w) < length (audio_frames w')
  \/ length (recorders w) < length (recorders w') ->
  armed w.
Proof.
  intros (w1 & Hh & ->)%step_inv.
  unfold audio_frames. autorewrite with render.
  destruct e; unfold handle in Hh; repeat case_match; simplify_eq.
  all: unfold_handlers; repeat case_match; simplify_eq.
  all: simpl.
  all: repeat match goal with
       | |- context [endCall ?x] =>
           rewrite (proj1 (endCall_counts x)), (proj2 (endCall_counts x))
       | |- context [on_parts ?a ?b ?c ?d] =>
           rewrite (proj1 (on_parts_counts a b c d)), (proj2 (on_parts_counts a b c d))
       end.
  all: simpl; lengths; rewrite ?filter_snoc; simpl; rewrite ?app_nil_r; lengths; simpl.
  all: try lia.
  all: intros _; unfold armed.
  all: left; eapply existsb_lookup; [eassumption | reflexivity].
Qed.

Lemma step_sockets_length B w e w' :
  step B w e = Some w' -> length (sockets w) <= length (sockets w').
Proof.
  intros (w1 & Hh & ->)%step_inv. autorewrite with render.
  destruct e; unfold handle in Hh; repeat case_match; simplify_eq.
  all: unfold_handlers; repeat case_match; simplify_eq.
  all: simpl; rewrite ?on_parts_sockets, ?endCall_sockets_length; simpl; lengths; simpl;
    rewrite ?on_parts_sockets, ?endCall_sockets_length; lia.
Qed.

Lemma run_sockets_length B evs w w' :
  run B w evs = Some w' -> length (sockets w) <= length (sockets w').
Proof.
  revert w. induction evs as [|e evs IH]; intros w Hrun; simpl in Hrun.
  - by simplify_eq.
  - destruct (step B w e) as [w1|] eqn:Hs; simpl in Hrun; [|done].
    pose proof (step_sockets_length _ _ _ _ Hs). pose proof (IH _ Hrun). lia.
Qed.

(** An acknowledgement is delivered over a socket that exists. *)
Lemma step_ack_socket B w e w' :
  step B w e = Some w' -> ack_event e = true ->
  exists k, k < length (sockets w) /\ ack_on k e = true.
Proof.
  intros (w1 & Hh & ->)%step_inv Hack.
  destruct e as [| | | | | | |k f| | | | | | | | |]; try done.
  destruct f as [|[d|]]; try done. simpl in Hack.
  unfold handle in Hh. repeat case_match; simplify_eq.
  exists k. split; [by eapply lookup_lt_Some|].
  simpl. by rewrite Nat.eqb_refl, Hack.
Qed.

(** The task that transmits an audio frame over socket [k] finds it among
    the sockets. *)
Lemma step_audio_socket B w e w' k :
  step B w e = Some w' ->
  length (audio_frames_on k w) < length (audio_frames_on k w') ->
  k < length (sockets w) /\ length (audio_frames w) < length (audio_frames w').
Proof.
  intros (w1 & Hh & ->)%step_inv.
  unfold audio_frames_on, audio_frames. autorewrite with render.
  destruct e; unfold handle in Hh; repeat case_match; simplify_eq.
  all: unfold_handlers; repeat case_match; simplify_eq.
  all: simpl; rewrite ?on_parts_wire, ?endCall_wire; simpl;
       rewrite ?on_parts_wire, ?endCall_wire.
  all: try lia.
  all: rewrite filter_filter_snoc, filter_snoc; simpl; rewrite ?app_nil_r; try lia.
  all: destruct (Nat.eqb_spec n k) as [->|]; simpl; rewrite ?app_nil_r; try lia.
  all: intros _; split; [by eapply lookup_lt_Some|lengths; simpl; lia].
Qed.

Lemma Exists_ack_split B evs w w' :
  run B w evs = Some w' ->
  Exists (fun e => ack_event e = true) evs ->
  exists k, k < length (sockets w') /\ Exists (fun e => ack_on k e = true) evs.
Proof.
  revert w. induction evs as [|e evs IH]; intros w Hrun Hex; simpl in Hrun.
  - by apply Exists_nil in Hex.
  - destruct (step B w e) as [w1|] eqn:Hs; simpl in Hrun; [|done].
    apply Exists_cons in Hex as [Hack|Hex].
    + destruct (step_ack_socket _ _ _ _ Hs Hack) as (k & Hk & Hon).
      exists k. split; [|by apply Exists_cons_hd].
      pose proof (step_sockets_length _ _ _ _ Hs).
      pose proof (run_sockets_length _ _ _ _ Hrun). lia.
    + destruct (IH _ Hrun Hex) as (k & Hk & Hon).
      exists k. split; [done|]. by apply Exists_cons_tl.
Qed.



(** With two sockets in a run the acknowledgement need not be that of the
    socket in use: [endCall] does not cancel the 500 ms timer, so the timer
    of a call that was ended creates the recorder of the next one, and the
    chunk goes out over socket 1, which has received nothing yet. *)
Lemma stale_timer_crosses_calls :
  run chrome init stale_timer_run = Some (after stale_timer_run)
  /\ audio_frames (after stale_timer_run)
     = [(1, RealtimeInput "audio/webm;codecs=opus" chunk)]
  /\ Forall (fun e => ack_on 1 e = false) stale_timer_run.
Proof.
  split; [by vm_compute|]. split; [by vm_compute|].
  unfold stale_timer_run, connect_run. repeat constructor.
Qed.

(** ** A transport error *)

Lemma closed_alter (f : WebSocket -> WebSocket) (k k' : nat) (l : list WebSocket) s :
  l !! k = Some s -> readyState s = CLOSED ->
  (k' = k -> readyState (f s) = CLOSED) ->
  exists s', alter f k' l !! k = Some s' /\ readyState s' = CLOSED.
Proof.
  intros Hl Hs Hf. destruct (decide (k' = k)) as [->|Hne].
  - rewrite list_lookup_alter_eq, Hl. simpl. eauto.
  - rewrite list_lookup_alter_ne by done. eauto.
Qed.

Lemma frames_on_snoc k l n m :
  snd <$> List.filter (fun x : nat * OutMsg => Nat.eqb x.1 k) (l ++ [(n, m)])
  = (snd <$> List.filter (fun x : nat * OutMsg => Nat.eqb x.1 k) l)
    ++ (if Nat.eqb n k then [m] else []).
Proof.
  rewrite filter_snoc. simpl. destruct (Nat.eqb n k); by rewrite fmap_app.
Qed.

Lemma step_closed B k w e w' :
  closed k w -> step B w e = Some w' ->
  closed k w' /\ frames_on k w' = frames_on k w.
Proof.
  intros (s & Hs & Hc) (w1 & Hh & ->)%step_inv.
  unfold closed, frames_on. autorewrite with render.
  destruct e; unfold handle in Hh; repeat case_match; simplify_eq.
  all: unfold_handlers; repeat case_match; simplify_eq.
  all: fields.
  all: try (split; [by eauto|done]).
  all: split; [|rewrite ?frames_on_snoc; try done].
  all: try by eauto.
  all: try match goal with |- context [match wsRef ?x with _ => _ end] =>
         destruct (wsRef x); [|by eauto] end.
  all: try (eapply closed_alter; [done|done|]; intros ->; simplify_eq;
            unfold closing; simpl; try case_bool_decide; try congruence;
            by rewrite ?Hc).
  all: try (eexists; split; [by apply lookup_app_l_Some|done]).
  all: simpl in *; destruct (Nat.eqb_spec n k) as [->|]; [simplify_eq; congruence|].
  all: by rewrite app_nil_r.
Qed.

Lemma run_closed B k evs w w' :
  closed k w -> run B w evs = Some w' ->
  closed k w' /\ frames_on k w' = frames_on k w.
Proof.
  revert w. induction evs as [|e evs IH]; intros w Hc Hrun; simpl in Hrun.
  - by simplify_eq.
  - destruct (step B w e) as [w1|] eqn:Hs; simpl in Hrun; [|done].
    destruct (step_closed _ _ _ _ _ Hc Hs) as [Hc1 Hf1].
    destruct (IH _ Hc1 Hrun) as [Hc2 Hf2]. split; [done|congruence].
Qed.

(** C4, as the code has it: when a socket fails, [onerror] and [onclose]
    set the status to [disconnected] and one connection-error toast is shown.
    Nothing is torn down: the refs, the tracks of the stream and the recorder
    are as before (they are released only by [endCall]).  The failed socket
    carries no further frame, in any continuation. *)
Theorem transport_error_disconnects_without_teardown (B : Browser) (k : nat) (w w1 : World) :
  step B w (WsClosed k true) = Some w1 ->
  status (callState w1) = disconnected
  /\ toasts w1 = toasts w ++ [ToastErroConexao]
  /\ wsRef w1 = wsRef w
  /\ mediaStreamRef w1 = mediaStreamRef w
  /\ mediaRecorderRef w1 = mediaRecorderRef w
  /\ streams w1 = streams w
  /\ recorders w1 = recorders w
  /\ (forall evs w2, run B w1 evs = Some w2 -> frames_on k w2 = frames_on k w1).
Proof.
  intros (w0 & Hh & ->)%step_inv.
  unfold handle in Hh. repeat case_match; simplify_eq.
  autorewrite with render. unfold onclose, onerror. simpl.
  split_and!; try done.
  intros evs w2 Hrun. eapply run_closed; [|done].
  unfold closed. autorewrite with render. simpl.
  rewrite list_lookup_alter_eq.
  match goal with H : sockets w !! k = Some _ |- _ => rewrite H end. simpl. eauto.
Qed.

Lemma transport_error_witness :
  step chrome (after streaming_run) (WsClosed 0 true) = Some (after error_run)
  /\ status (callState (after error_run)) = disconnected
  /\ toasts (after error_run) = toasts (after streaming_run) ++ [ToastErroConexao]
  /\ wsRef (after error_run) = wsRef (after streaming_run)
  /\ mediaStreamRef (after error_run) = mediaStreamRef (after streaming_run)
  /\ mediaRecorderRef (after error_run) = mediaRecorderRef (after streaming_run)
  /\ streams (after error_run) = streams (after streaming_run)
  /\ recorders (after error_run) = recorders (after streaming_run)
  /\ (forall evs w2, run chrome (after error_run) evs = Some w2 ->
        frames_on 0 w2 = frames_on 0 (after error_run)).
Proof.
  split; [by vm_compute|].
  apply (transport_error_disconnects_without_teardown chrome 0 (after streaming_run)).
  by vm_compute.
Defined.

(** C4 as written fails: the call is connected and streaming, the socket
    reports an error, the status becomes [disconnected], and the stream is
    still referenced, its track not stopped, the recorder still recording. *)
Lemma error_leaves_device_acquired :
  run chrome init error_run = Some (after error_run)
  /\ status (callState (after streaming_run)) = connected
  /\ status (callState (after error_run)) = disconnected
  /\ mediaStreamRef (after error_run) = Some 0
  /\ streams (after error_run) = [[mkTrack true false]]
  /\ (rec_state <$> recorders (after error_run)) = [recording].
Proof. by vm_compute. Qed.

(** ** The mute gate of the capture pipeline *)

(** What [ondataavailable] does with a chunk: past the three tests it goes
    to [sendAudioData], which suspends at the read of its bytes; otherwise
    nothing at all happens to it. *)
Lemma ondataavailable_gate env b w :
  ondataavailable env b w
  = if (0 <? blob_size b)%nat && current_open w && negb (isMuted env)
    then spawn (AwaitArrayBuffer b) w
    else w.
Proof.
  unfold ondataavailable, sendAudioData.
  destruct (0 <? blob_size b)%nat, (current_open w), (isMuted env); done.
Qed.

(** C3 on the code: the user muted after the recorder was created.  At the
    moment the chunk is delivered the socket is open and [isMuted] is
    [true], and the chunk is passed to [sendAudioData] and transmitted: the
    handler reads the [isMuted] of the [callState] that [connectToLiveAPI]
    closed over, which is still [false]. *)
Lemma muted_chunk_is_forwarded :
  run chrome init mute_run = Some (after mute_run)
  /\ current_open (after mute_run) = true
  /\ isMuted (callState (after mute_run)) = true
  /\ (isMuted <$> (rec_env <$> recorders (after mute_run))) = [false]
  /\ (tasks <$> handle chrome (DataAvailable 0 chunk) (after mute_run))
     = Some [None; None; None; None; Some (AwaitArrayBuffer chunk)]
  /\ wire (after muted_chunk_run)
     = [(0, SetupMessage); (0, RealtimeInput "audio/webm;codecs=opus" chunk)].
Proof. by vm_compute. Qed.

(** The same defect in the other direction: in the second call the session
    is not muted and the socket is open, and the chunk is dropped, because
    the closure of the second call still holds the [isMuted = true] of the
    first one. *)
Lemma unmuted_chunk_is_dropped :
  run chrome init second_call_run = Some (after second_call_run)
  /\ current_open (after second_call_run) = true
  /\ isMuted (callState (after second_call_run)) = false
  /\ (isMuted <$> (rec_env <$> recorders (after second_call_run))) = [false; true]
  /\ (tasks <$> handle chrome (DataAvailable 1 chunk) (after second_call_run))
     = Some (tasks (after second_call_run))
  /\ (wire <$> handle chrome (DataAvailable 1 chunk) (after second_call_run))
     = Some [(0, SetupMessage); (1, SetupMessage)].
Proof. by vm_compute. Qed.

(** ** The speaker gate of the playback pipeline *)

(** C6 on the code: the speaker was switched off before the payloads
    arrived, and both are played: [playAudioResponse] is called for the
    inline payload and an [Audio] element starts, and the binary frame goes
    to [decodeAudioData].  The handlers read the [speakerEnabled] that
    [connectToLiveAPI] closed over. *)
Lemma speaker_off_payload_is_played :
  run chrome init speaker_off_run = Some (after speaker_off_run)
  /\ speakerEnabled (callState (after speaker_off_run)) = false
  /\ (speakerEnabled <$> (ws_env <$> sockets (after speaker_off_run))) = [true]
  /\ playCalls (after speaker_off_run) = []
  /\ playCalls (after speaker_off_audio_run) = [("UklGRg==", "audio/wav")]
  /\ audios (after speaker_off_audio_run) = [mkAudio (InlineAudio "audio/mp3") starting]
  /\ tasks (after speaker_off_audio_run) !! 6 = Some (Some AwaitDecode).
Proof. by vm_compute. Qed.

(** ** Mute and the hardware tracks *)

Lemma run_muteEnv B evs w :
  run B init evs = Some w -> muteEnv w = isMuted (callState w).
Proof.
  apply (run_invariant B (fun w => muteEnv w = isMuted (callState w))); [|done].
  intros w0 e w' _ (w1 & _ & ->)%step_inv. apply render_muteEnv.
Qed.

Lemma step_mute B w w1 :
  step B w ClickMute = Some w1 ->
  isMuted (callState w1) = negb (isMuted (callState w))
  /\ mediaStreamRef w1 = mediaStreamRef w
  /\ (forall s ts, mediaStreamRef w = Some s -> streams w !! s = Some ts ->
        streams w1 !! s = Some (set_enabled (muteEnv w) <$> ts)).
Proof.
  intros (w0 & Hh & ->)%step_inv. autorewrite with render.
  unfold handle in Hh. case_match; simplify_eq. unfold toggleMute. simpl.
  destruct (mediaStreamRef w) as [s0|] eqn:Hms; simpl; rewrite ?Hms; split_and!; try done.
  intros s ts [= ->] Hts. by rewrite list_lookup_alter_eq, Hts.
Qed.

Lemma set_enabled_twice b c (ts : list Track) :
  set_enabled b <$> (set_enabled c <$> ts) = set_enabled b <$> ts.
Proof. rewrite <- list_fmap_compose. by apply list_fmap_ext. Qed.

Lemma set_enabled_id b (ts : list Track) :
  Forall (fun t => enabled t = b) ts -> set_enabled b <$> ts = ts.
Proof.
  induction 1 as [|[e st] ts He _ IH]; [done|].
  rewrite fmap_cons, IH. simpl in He. by subst.
Qed.

Lemma set_enabled_Forall b (ts : list Track) :
  Forall (fun t => enabled t = b) (set_enabled b <$> ts).
Proof. induction ts; constructor; done. Qed.

(** C10, as the code has it: in every run, a mute toggle on an active
    stream flips [isMuted] and sets the [enabled] flag of every track to the
    [isMuted] of before the toggle, the negation of the new one: the track is
    disabled exactly when the session is muted.  A second toggle in a row
    brings [isMuted] back and sets every flag to the negation of the original
    [isMuted]; that is the flag's original value exactly when flag and mute
    state agreed before the two toggles. *)
Theorem toggleMute_sets_tracks (B : Browser) (evs : list Event) (w w1 : World)
    (s : nat) (ts : list Track) :
  run B init evs = Some w ->
  mediaStreamRef w = Some s ->
  streams w !! s = Some ts ->
  step B w ClickMute = Some w1 ->
  isMuted (callState w1) = negb (isMuted (callState w))
  /\ (exists ts1, streams w1 !! s = Some ts1
        /\ Forall (fun t => enabled t = isMuted (callState w)) ts1
        /\ Forall (fun t => enabled t = negb (isMuted (callState w1))) ts1)
  /\ (forall w2, step B w1 ClickMute = Some w2 ->
        isMuted (callState w2) = isMuted (callState w)
        /\ exists ts2, streams w2 !! s = Some ts2
             /\ Forall (fun t => enabled t = negb (isMuted (callState w))) ts2
             /\ (Forall (fun t => enabled t = negb (isMuted (callState w))) ts -> ts2 = ts)).
Proof.
  intros Hrun Hms Hts Hstep.
  pose proof (run_muteEnv _ _ _ Hrun) as Henv.
  destruct (step_mute _ _ _ Hstep) as (Hm1 & Hms1 & Hst1).
  specialize (Hst1 _ _ Hms Hts). rewrite Henv in Hst1.
  split; [done|]. split.
  - eexists. split; [done|]. split; [apply set_enabled_Forall|].
    rewrite Hm1, negb_involutive. apply set_enabled_Forall.
  - intros w2 Hstep2.
    assert (Henv1 : muteEnv w1 = isMuted (callState w1)).
    { destruct (step_inv _ _ _ _ Hstep) as (? & _ & ->). apply render_muteEnv. }
    destruct (step_mute _ _ _ Hstep2) as (Hm2 & _ & Hst2).
    rewrite Hms1 in Hst2. specialize (Hst2 _ _ Hms Hst1).
    rewrite Henv1, Hm1, set_enabled_twice in Hst2.
    split; [by rewrite Hm2, Hm1, negb_involutive|].
    eexists. split; [done|]. split; [apply set_enabled_Forall|].
    apply set_enabled_id.
Qed.

Lemma toggleMute_sets_tracks_witness :
  let w := after connect_run in
  let w1 := after (connect_run ++ [ClickMute]) in
  isMuted (callState w1) = negb (isMuted (callState w))
  /\ (exists ts1, streams w1 !! 0 = Some ts1
        /\ Forall (fun t => enabled t = isMuted (callState w)) ts1
        /\ Forall (fun t => enabled t = negb (isMuted (callState w1))) ts1)
  /\ (forall w2, step chrome w1 ClickMute = Some w2 ->
        isMuted (callState w2) = isMuted (callState w)
        /\ exists ts2, streams w2 !! 0 = Some ts2
             /\ Forall (fun t => enabled t = negb (isMuted (callState w))) ts2
             /\ (Forall (fun t => enabled t = negb (isMuted (callState w)))
                   [mkTrack true false] -> ts2 = [mkTrack true false])).
Proof.
  apply (toggleMute_sets_tracks chrome connect_run (after connect_run)
           (after (connect_run ++ [ClickMute])) 0 [mkTrack true false]);
    by vm_compute.
Defined.

(** C10 as written fails in its last part: the user muted while
    [getUserMedia] was pending, so the stream arrives with its track enabled
    and [isMuted = true]; two toggles later [isMuted] is [true] again and the
    track is disabled, not enabled as it was. *)
Lemma two_toggles_do_not_restore_tracks :
  run chrome init premute_run = Some (after premute_run)
  /\ mediaStreamRef (after premute_run) = Some 0
  /\ isMuted (callState (after premute_run)) = true
  /\ streams (after premute_run) = [[mkTrack true false]]
  /\ run chrome (after premute_run) [ClickMute; ClickMute]
     = Some (after (premute_run ++ [ClickMute; ClickMute]))
  /\ isMuted (callState (after (premute_run ++ [ClickMute; ClickMute]))) = true
  /\ streams (after (premute_run ++ [ClickMute; ClickMute])) = [[mkTrack false false]].
Proof. by vm_compute. Qed.

(** ** Transcript and playback of a content message *)

Lemma sockets_alter_speaker (f : WebSocket -> WebSocket) k (l : list WebSocket) :
  (forall s, ws_env (f s) = ws_env s) ->
  Forall (fun s => speakerEnabled (ws_env s) = true) l ->
  Forall (fun s => speakerEnabled (ws_env s) = true) (alter f k l).
Proof.
  intros Hf Hl. apply Forall_alter; [done|]. intros s _ Hs. by rewrite Hf.
Qed.

Ltac speaker_tasks I4 :=
  repeat first
    [ assumption
    | apply Forall_app; split
    | apply Forall_insert; [|exact I]
    | apply on_parts_tasks_speaker
    | (apply Forall_cons; split; [|apply Forall_nil; exact I]; simpl;
       match goal with
       | H : tasks _ !! _ = Some (Some _) |- _ =>
           exact (Forall_lookup_1 _ _ _ _ I4 H)
       | _ => first [exact I | done]
       end) ].

Ltac speaker_sockets I4 I5 :=
  repeat first
    [ assumption
    | match goal with |- context [match wsRef ?x with _ => _ end] =>
        destruct (wsRef x) end
    | apply sockets_alter_speaker; [first [apply closing_env | done]|]
    | (apply Forall_app; split; [|apply Forall_cons; split; [|by apply Forall_nil]]; simpl;
       match goal with
       | H : tasks _ !! _ = Some (Some _) |- _ =>
           exact (Forall_lookup_1 _ _ _ _ I4 H)
       end) ].

Lemma step_speaker_inv B w e w' :
  speaker_inv w -> step B w e = Some w' -> speaker_inv w'.
Proof.
  intros (I1 & I2 & I3 & I4 & I5) (w1 & Hh & ->)%step_inv.
  unfold speaker_inv. rewrite render_connectEnv_speaker. autorewrite with render.
  destruct e; unfold handle in Hh; repeat case_match; simplify_eq.
  all: unfold_handlers; repeat case_match; simplify_eq.
  all: fields.
  all: split_and!; try done; try (intros; simplify_eq; by eauto).
  all: try (intros ?; rewrite I2 in *; done).
  all: try by (simpl; rewrite <- I3; by apply I1).
  all: try by speaker_tasks I4.
  all: try by speaker_sockets I4 I5.
  apply Forall_app. split; [done|]. repeat constructor. simpl. rewrite I3. by apply I1.
Qed.

Lemma init_speaker_inv : speaker_inv init.
Proof. unfold speaker_inv. simpl. by split_and!. Qed.

Lemma run_speaker_inv B evs w : run B init evs = Some w -> speaker_inv w.
Proof.
  intros Hrun.
  eapply (run_invariant B speaker_inv); [|apply init_speaker_inv|exact Hrun].
  intros w0 e w1 H0 Hs. by eapply step_speaker_inv.
Qed.

Lemma step_conversation B w e w' :
  step B w e = Some w' -> resets_transcript e = false ->
  message <$> conversation w' = (message <$> conversation w) ++ transcript_event e.
Proof.
  intros (w1 & Hh & ->)%step_inv Hr. autorewrite with render.
  destruct e; try done; unfold handle in Hh; repeat case_match; simplify_eq.
  all: unfold_handlers; repeat case_match; simplify_eq.
  all: fields; rewrite ?on_parts_conversation; simpl; rewrite ?app_nil_r; try done.
  all: repeat case_match; simplify_eq; rewrite ?fmap_app, ?app_nil_r; try done.
Qed.

Lemma run_conversation B evs w w' :
  run B w evs = Some w' ->
  Forall (fun e => resets_transcript e = false) evs ->
  message <$> conversation w'
  = (message <$> conversation w) ++ concat (transcript_event <$> evs).
Proof.
  revert w. induction evs as [|e evs IH]; intros w Hrun Hall; simpl in Hrun.
  - simplify_eq. simpl. by rewrite app_nil_r.
  - destruct (step B w e) as [w1|] eqn:Hs; simpl in Hrun; [|done].
    apply Forall_cons in Hall as [He Hall].
    rewrite (IH _ Hrun Hall), (step_conversation _ _ _ _ Hs He).
    rewrite fmap_cons. simpl. by rewrite app_assoc.
Qed.

(** C8: (1) over any stretch of a run in which no call is started or ended,
    the transcript grows by exactly the texts of the frames received, in the
    order of their arrival (a frame contributes the text of its first part
    with a non-empty [text], or nothing).  (2) In every run, a content
    message with a text part and an inline audio part appends exactly one
    entry, spoken by the AI, and makes exactly one playback attempt: one
    call of [playAudioResponse], with the payload of the first audio part,
    and, where the base64 decodes and the first candidate type starts
    playing, one [Audio] element.  Every socket of a run closed over
    [speakerEnabled = true], so the attempt is made. *)
Theorem transcript_in_arrival_order (B : Browser) :
  (forall w evs w',
     run B w evs = Some w' ->
     Forall (fun e => resets_transcript e = false) evs ->
     message <$> conversation w'
     = (message <$> conversation w) ++ concat (transcript_event <$> evs))
  /\ (forall evs w k d ps w',
        run B init evs = Some w ->
        parts d = Some ps ->
        existsb truthy_text ps = true ->
        existsb is_audio_part ps = true ->
        step B w (WsMessage k (TextFrame (Some d))) = Some w' ->
        exists tp ap,
          List.find truthy_text ps = Some tp
          /\ List.find is_audio_part ps = Some ap
          /\ conversation w' = conversation w ++ [mkMessage AI (part_text tp) (now w)]
          /\ playCalls w' = playCalls w ++ [(part_data ap, part_mimeType ap)]
          /\ (forall bytes p,
                atob B (part_data ap) = Some bytes ->
                audioFacility B "audio/mp3" = PlayReturns p ->
                audios w'
                = audios w
                  ++ [mkAudio (InlineAudio "audio/mp3") (if p then starting else playing)])).
Proof.
  split; [intros; by eapply run_conversation|].
  intros evs w k d ps w' Hrun Hps [tp Htp]%find_existsb [ap Hap]%find_existsb Hstep.
  exists tp, ap. split; [done|]. split; [done|].
  destruct (run_speaker_inv _ _ _ Hrun) as (_ & _ & _ & _ & I5).
  destruct (step_inv _ _ _ _ Hstep) as (w1 & Hh & ->).
  autorewrite with render.
  unfold handle in Hh. repeat case_match; simplify_eq.
  match goal with H : sockets w !! k = Some _ |- _ =>
    pose proof (Forall_lookup_1 _ _ _ _ I5 H) as Hsp end.
  unfold onmessage. rewrite Hps. unfold on_setupComplete.
  split_and!.
  - repeat case_match; simpl; by rewrite on_parts_conversation, Htp.
  - repeat case_match; simpl; by rewrite on_parts_playCalls, Hap, Hsp.
  - intros bytes p Ha Hf.
    pose proof (on_parts_audios B _ ps w ap bytes p Hap Hsp Ha Hf) as Haud.
    destruct (setupComplete d); [|exact Haud].
    repeat case_match; exact Haud.
Qed.

Lemma transcript_in_arrival_order_witness :
  let w := after streaming_run in
  let w' := after (streaming_run ++ [WsMessage 0 content]) in
  message <$> conversation w' = (message <$> conversation w) ++ ["Hello"]
  /\ exists tp ap,
       List.find truthy_text [hello_part; wav_part] = Some tp
       /\ List.find is_audio_part [hello_part; wav_part] = Some ap
       /\ conversation w' = conversation w ++ [mkMessage AI (part_text tp) (now w)]
       /\ playCalls w' = playCalls w ++ [(part_data ap, part_mimeType ap)]
       /\ (forall bytes p,
             atob chrome (part_data ap) = Some bytes ->
             audioFacility chrome "audio/mp3" = PlayReturns p ->
             audios w'
             = audios w
               ++ [mkAudio (InlineAudio "audio/mp3") (if p then starting else playing)]).
Proof.
  destruct (transcript_in_arrival_order chrome) as [H1 H2]. split.
  - apply (H1 (after streaming_run) [WsMessage 0 content]); [by vm_compute|].
    by repeat constructor.
  - apply (H2 streaming_run (after streaming_run) 0
             (mkServerMessage (Some [hello_part; wav_part]) false));
      by vm_compute.
Defined.
(** * Further properties of the call engine *)

(** An invariant that speaks of the events of the run. *)
Lemma run_trace_invariant B (P : list Event -> World -> Prop) (w0 : World) :
  P [] w0 ->
  (forall evs w e w', P evs w -> step B w e = Some w' -> P (evs ++ [e]) w') ->
  forall evs w, run B w0 evs = Some w -> P evs w.
Proof.
  intros H0 Hstep evs. induction evs as [|e evs IH] using rev_ind; intros w Hrun.
  - simpl in Hrun. by simplify_eq.
  - rewrite run_snoc in Hrun. destruct (run B w0 evs) as [w1|]; simpl in Hrun; [|done].
    eapply Hstep; [|done]. by apply IH.
Qed.

Lemma filter_insert_length {A} (P : A -> bool) (l : list A) i x y :
  l !! i = Some x ->
  length (List.filter P (<[i:=y]> l)) + (if P x then 1 else 0)
  = length (List.filter P l) + (if P y then 1 else 0).
Proof.
  revert i. induction l as [|a l IH]; intros [|i] Hl; simplify_eq/=.
  - destruct (P x), (P y); simpl; lia.
  - specialize (IH _ Hl). destruct (P a); simpl; lia.
Qed.

Lemma filter_length_snoc {A} (P : A -> bool) (l : list A) x :
  length (List.filter P (l ++ [x])) = length (List.filter P l) + (if P x then 1 else 0).
Proof. rewrite filter_snoc, length_app. destruct (P x); simpl; lia. Qed.

(** ** More equations of [endCall] *)

Transparent endCall.

Lemma endCall_toasts w : toasts (endCall w) = toasts w ++ [ToastChamadaEncerrada].
Proof. by endCall_paths w. Qed.

Lemma endCall_console w : console (endCall w) = console w.
Proof. by endCall_paths w. Qed.

Lemma endCall_audios w : audios (endCall w) = audios w.
Proof. by endCall_paths w. Qed.

Lemma endCall_streams_length w : length (streams (endCall w)) = length (streams w).
Proof. by endCall_paths w; lengths. Qed.

Lemma endCall_recorders_length w : length (recorders (endCall w)) = length (recorders w).
Proof. by endCall_paths w; lengths. Qed.

Opaque endCall.

Lemma endCall_wsRef w : wsRef (endCall w) = None.
Proof. apply endCall_refs. Qed.

Lemma endCall_mediaStreamRef w : mediaStreamRef (endCall w) = None.
Proof. apply endCall_refs. Qed.

Lemma endCall_mediaRecorderRef w : mediaRecorderRef (endCall w) = None.
Proof. apply endCall_refs. Qed.

#[global] Hint Rewrite endCall_toasts endCall_console endCall_audios endCall_wsRef
  endCall_mediaStreamRef endCall_mediaRecorderRef : fields.

(** ** More equations of the parts branch *)

Lemma on_parts_mediaRecorderRef B env ps w :
  mediaRecorderRef (on_parts B env ps w) = mediaRecorderRef w.
Proof. apply (core_inv _ _ (on_parts_core B env ps w)). Qed.

Lemma on_parts_isRecording B env ps w :
  isRecording (on_parts B env ps w) = isRecording w.
Proof. apply (core_inv _ _ (on_parts_core B env ps w)). Qed.

Lemma on_parts_toasts B env ps w : toasts (on_parts B env ps w) = toasts w.
Proof. apply (core_inv _ _ (on_parts_core B env ps w)). Qed.

#[global] Hint Rewrite on_parts_mediaRecorderRef on_parts_isRecording on_parts_toasts
  : fields.

(** ** The life cycle of a call *)

Lemma step_lifecycle B w e w' :
  lifecycle w -> step B w e = Some w' -> lifecycle w'.
Proof.
  intros (I1 & I2 & I3 & I4) (w1 & Hh & ->)%step_inv.
  unfold lifecycle. autorewrite with render.
  destruct e; unfold handle in Hh; repeat case_match; simplify_eq.
  all: unfold_handlers; repeat case_match; simplify_eq.
  all: fields.
  all: try (split_and!;
            first [ done | by eauto | (intros; simplify_eq; congruence)
                  | (by rewrite <- ?I1 in *; intros; simplify_eq) | idtac ]).
  all: try (rewrite ?is_Some_alt; simpl; intuition congruence).
Qed.

(** X1: on every run, the call modal is shown exactly when the call is
    active, which is exactly when a start time is set; outside a call the
    mute flag is off and the speaker flag on; and the status [connecting]
    occurs only during a call. *)
Theorem lifecycle_of_every_run (B : Browser) (evs : list Event) (w : World) :
  run B init evs = Some w ->
  showCallModal w = isActive (callState w)
  /\ (isActive (callState w) = true <-> is_Some (startTime (callState w)))
  /\ (isActive (callState w) = false ->
        isMuted (callState w) = false /\ speakerEnabled (callState w) = true)
  /\ (status (callState w) = connecting -> isActive (callState w) = true).
Proof.
  intros Hrun. change (lifecycle w).
  eapply (run_invariant B lifecycle); [|idtac|exact Hrun].
  - intros. by eapply step_lifecycle.
  - unfold lifecycle. simpl. split_and!; try done; rewrite is_Some_alt; tauto.
Qed.

Lemma lifecycle_of_every_run_witness :
  let w := after premute_run in
  run chrome init premute_run = Some w
  /\ showCallModal w = isActive (callState w)
  /\ (isActive (callState w) = true <-> is_Some (startTime (callState w)))
  /\ (isActive (callState w) = false ->
        isMuted (callState w) = false /\ speakerEnabled (callState w) = true)
  /\ (status (callState w) = connecting -> isActive (callState w) = true).
Proof.
  split; [by vm_compute|].
  apply (lifecycle_of_every_run chrome premute_run). by vm_compute.
Defined.

(** ** The transcript *)

Lemma head_snoc {A} (l : list A) x y : head l = Some x -> head (l ++ [y]) = Some x.
Proof. by destruct l. Qed.

Lemma step_transcript_inv B w e w' :
  transcript_inv w -> step B w e = Some w' -> transcript_inv w'.
Proof.
  intros (I1 & I2) (w1 & Hh & ->)%step_inv.
  unfold transcript_inv. autorewrite with render.
  destruct e; unfold handle in Hh; repeat case_match; simplify_eq.
  all: unfold_handlers; repeat case_match; simplify_eq.
  all: fields; rewrite ?on_parts_conversation; simpl.
  all: split; [| intros Hm; try done; try specialize (I2 Hm) ].
  all: try done; try (by eauto).
  all: repeat case_match; rewrite ?app_nil_r; try done.
  all: try (apply Forall_app; split; [done|by repeat constructor]).
  all: try (by repeat constructor).
  all: try (destruct I2 as [t0 I2]; exists t0; by apply head_snoc).
Qed.

(** X2: on every run, every entry of the transcript has the speaker [AI]
    (the component never records an entry for the user), and while the call
    modal is shown the transcript starts with the greeting of [startCall]. *)
Theorem transcript_is_the_peers (B : Browser) (evs : list Event) (w : World) :
  run B init evs = Some w ->
  Forall (fun m => speaker m = AI) (conversation w)
  /\ (showCallModal w = true -> exists t, head (conversation w) = Some (greeting t)).
Proof.
  intros Hrun. change (transcript_inv w).
  eapply (run_invariant B transcript_inv); [|idtac|exact Hrun].
  - intros. by eapply step_transcript_inv.
  - by split.
Qed.

Lemma transcript_is_the_peers_witness :
  let w := after (streaming_run ++ [WsMessage 0 content]) in
  run chrome init (streaming_run ++ [WsMessage 0 content]) = Some w
  /\ Forall (fun m => speaker m = AI) (conversation w)
  /\ (showCallModal w = true -> exists t, head (conversation w) = Some (greeting t)).
Proof.
  split; [by vm_compute|].
  apply (transcript_is_the_peers chrome (streaming_run ++ [WsMessage 0 content])).
  by vm_compute.
Defined.

(** ** Connections and streams *)

Lemma step_connections B w e w' :
  step B w e = Some w' ->
  length (sockets w') = length (sockets w) + (if media_granted e then 1 else 0)
  /\ length (streams w') = length (streams w) + (if media_granted e then 1 else 0).
Proof.
  intros (w1 & Hh & ->)%step_inv. autorewrite with render.
  destruct e; unfold handle in Hh; repeat case_match; simplify_eq.
  all: unfold_handlers; repeat case_match; simplify_eq.
  all: simpl;
    rewrite ?on_parts_sockets, ?on_parts_streams, ?endCall_sockets_length,
      ?endCall_streams_length;
    simpl; lengths; simpl; lia.
Qed.



(** ** The refs *)

Lemma step_refs_inv B w e w' :
  refs_inv w -> step B w e = Some w' -> refs_inv w'.
Proof.
  intros (I1 & I2 & I3 & I4 & I5) (w1 & Hh & ->)%step_inv.
  unfold refs_inv. autorewrite with render.
  destruct e; unfold handle in Hh; repeat case_match; simplify_eq.
  all: unfold_handlers; repeat case_match; simplify_eq.
  all: fields.
  all: rewrite ?on_parts_mediaRecorderRef, ?endCall_streams_length,
         ?endCall_recorders_length; lengths.
  all: split_and!; try done; rewrite ?is_Some_alt in *; simpl.
  all: try (intros; simplify_eq; lia).
  all: try (intros ? ?; simplify_eq; try lia;
            match goal with H : _ = Some ?x |- ?x < _ =>
              first [ specialize (I3 _ H) | specialize (I4 _ H) | specialize (I5 _ H) ]; lia
            end).
  all: try (intros ??; destruct (wsRef w); lengths; done).
  intros _. unfold current_open in *. simpl in *. by destruct (wsRef w).
Qed.

(** X4: on every run, a recorder is referenced only while a socket is, and a
    socket only while a stream is (the stream is acquired first, the socket
    second, the recorder last, and [endCall] drops the three together); and
    each ref that is set points to an object that exists. *)
Theorem refs_acquired_in_order (B : Browser) (evs : list Event) (w : World) :
  run B init evs = Some w ->
  (is_Some (mediaRecorderRef w) -> is_Some (wsRef w))
  /\ (is_Some (wsRef w) -> is_Some (mediaStreamRef w))
  /\ (forall k, wsRef w = Some k -> k < length (sockets w))
  /\ (forall s, mediaStreamRef w = Some s -> s < length (streams w))
  /\ (forall r, mediaRecorderRef w = Some r -> r < length (recorders w)).
Proof.
  intros Hrun. change (refs_inv w).
  eapply (run_invariant B refs_inv); [|idtac|exact Hrun].
  - intros. by eapply step_refs_inv.
  - unfold refs_inv. simpl. split_and!; try done; by intros [].
Qed.

Lemma refs_acquired_in_order_witness :
  let w := after streaming_run in
  run chrome init streaming_run = Some w
  /\ (is_Some (mediaRecorderRef w) -> is_Some (wsRef w))
  /\ (is_Some (wsRef w) -> is_Some (mediaStreamRef w))
  /\ (forall k, wsRef w = Some k -> k < length (sockets w))
  /\ (forall s, mediaStreamRef w = Some s -> s < length (streams w))
  /\ (forall r, mediaRecorderRef w = Some r -> r < length (recorders w)).
Proof.
  split; [by vm_compute|].
  apply (refs_acquired_in_order chrome streaming_run). by vm_compute.
Defined.


(** ** The frames on the wire *)

Lemma play_loop_tasks_app B types url w :
  exists l, tasks (play_loop B types url w).2 = tasks w ++ l
            /\ Forall (fun t => play_task t = true) l.
Proof.
  revert url w. induction types as [|type rest IH]; intros url w; simpl.
  - exists []. by rewrite app_nil_r.
  - destruct (audioFacility B type) as [| |[]]; simpl.
    + destruct (IH url (log (LogTypeNotSupported type) (set_tried (fun l => l ++ [type]) w)))
        as (l & -> & Hl). by exists l.
    + destruct (IH true (log (LogTypeNotSupported type) (set_tried (fun l => l ++ [type]) w)))
        as (l & -> & Hl). by exists l.
    + eexists. split; [reflexivity|]. by repeat constructor.
    + exists []. by rewrite app_nil_r.
Qed.

Lemma playAudioResponse_tasks_app B d m w :
  exists l, tasks (playAudioResponse B d m w) = tasks w ++ l
            /\ Forall (fun t => play_task t = true) l.
Proof.
  unfold playAudioResponse. destruct (atob B d).
  - destruct (play_loop_tasks_app B (supportedTypes m) false
                (set_playCalls (fun l => l ++ [(d, m)]) w)) as (l & Hl & Hp).
    revert Hl. generalize (play_loop B (supportedTypes m) false
                             (set_playCalls (fun l => l ++ [(d, m)]) w)).
    intros [[] w1]; simpl; intros ->; by exists l.
  - exists []. by rewrite app_nil_r.
Qed.

Transparent on_parts.

Lemma on_parts_tasks_app B env ps w :
  exists l, tasks (on_parts B env ps w) = tasks w ++ l
            /\ Forall (fun t => play_task t = true) l.
Proof.
  unfold on_parts.
  destruct (List.find is_audio_part ps) as [ap|]; [destruct (speakerEnabled env)|].
  2,3: exists []; rewrite app_nil_r; by destruct (List.find truthy_text ps).
  destruct (playAudioResponse_tasks_app B (part_data ap) (part_mimeType ap)
              match List.find truthy_text ps with
              | Some textPart =>
                  setConversation
                    (fun prev => prev ++ [mkMessage AI (part_text textPart) (now w)]) w
              | None => w
              end) as (l & -> & Hl).
  exists l. by destruct (List.find truthy_text ps).
Qed.

Opaque on_parts.

(** The pending continuations of a kind [P] that is not that of a play
    promise are those of the world before the parts branch. *)
Lemma on_parts_tasks_filter B env ps w (P : option Task -> bool) :
  (forall a type, P (Some (AwaitPlay a type)) = false) ->
  List.filter P (tasks (on_parts B env ps w)) = List.filter P (tasks w).
Proof.
  intros HP. destruct (on_parts_tasks_app B env ps w) as (l & -> & Hl).
  rewrite List.filter_app.
  assert (List.filter P l = []) as ->; [|by rewrite app_nil_r].
  induction Hl as [|x l Hx _ IH]; simpl; [done|].
  destruct x as [[]|]; try done. by rewrite HP.
Qed.

Lemma on_parts_tasks_lookup B env ps w t x :
  tasks (on_parts B env ps w) !! t = Some x -> play_task x = false ->
  tasks w !! t = Some x.
Proof.
  destruct (on_parts_tasks_app B env ps w) as (l & -> & Hl).
  intros [?|Hin]%lookup_app_Some Hx; [done|].
  destruct Hin as [_ Hin]. apply (Forall_lookup_1 _ _ _ _ Hl) in Hin. congruence.
Qed.

(** What one task adds to the wire, to the recorders and to the pending
    continuations, against what the event allows. *)
Lemma step_accounts B w e w' :
  step B w e = Some w' ->
  length (audio_frames w') + length (List.filter buffer_task (tasks w'))
  <= length (audio_frames w) + length (List.filter buffer_task (tasks w))
     + flag (chunk_event e)
  /\ length (setup_frames w') + length (List.filter setup_timer_task (tasks w'))
     <= length (setup_frames w) + length (List.filter setup_timer_task (tasks w))
        + flag (open_event e)
  /\ length (recorders w') + length (List.filter stream_timer_task (tasks w'))
     <= length (recorders w) + length (List.filter stream_timer_task (tasks w))
        + flag (ack_event e).
Proof.
  intros (w1 & Hh & ->)%step_inv.
  unfold audio_frames, setup_frames. autorewrite with render.
  destruct e; unfold handle in Hh; repeat case_match; simplify_eq.
  all: unfold_handlers; repeat case_match; simplify_eq.
  all: fields; rewrite ?endCall_recorders_length.
  all: rewrite ?(on_parts_tasks_filter _ _ _ _ buffer_task),
         ?(on_parts_tasks_filter _ _ _ _ setup_timer_task),
         ?(on_parts_tasks_filter _ _ _ _ stream_timer_task) by done.
  all: try match goal with
       | H : tasks ?w !! ?t = Some ?x |- _ =>
           pose proof (filter_insert_length buffer_task _ t _ None H);
           pose proof (filter_insert_length setup_timer_task _ t _ None H);
           pose proof (filter_insert_length stream_timer_task _ t _ None H)
       end.
  all: simpl in *; rewrite ?filter_length_snoc; lengths; simpl in *.
  all: rewrite ?(on_parts_tasks_filter _ _ _ _ buffer_task),
         ?(on_parts_tasks_filter _ _ _ _ setup_timer_task),
         ?(on_parts_tasks_filter _ _ _ _ stream_timer_task) by done.
  all: repeat match goal with
       | H : _ && _ = true |- _ => apply andb_true_iff in H as [? ?]
       end.
  all: repeat match goal with
       | H : ?x = true |- context [flag ?x] => rewrite H
       end.
  all: simpl; lia.
Qed.

Lemma run_accounts B evs w :
  run B init evs = Some w ->
  length (audio_frames w) + length (List.filter buffer_task (tasks w))
  <= length (List.filter chunk_event evs)
  /\ length (setup_frames w) + length (List.filter setup_timer_task (tasks w))
     <= length (List.filter open_event evs)
  /\ length (recorders w) + length (List.filter stream_timer_task (tasks w))
     <= length (List.filter ack_event evs).
Proof.
  revert w. induction evs as [|e evs IH] using rev_ind; intros w Hrun.
  - simpl in Hrun. simplify_eq. simpl. lia.
  - rewrite run_snoc in Hrun.
    destruct (run B init evs) as [w1|]; simpl in Hrun; [|done].
    specialize (IH w1 eq_refl). apply step_accounts in Hrun.
    rewrite !filter_length_snoc. unfold flag in Hrun. lia.
Qed.


(** X5: on every run, the setup messages transmitted are at most as many as
    the sockets that opened, and the recorders created at most as many as
    the setupComplete messages received: each open event arms one 100 ms
    timer, each setupComplete one 500 ms timer, and a timer sends or
    creates at most once. *)
Theorem handshake_accounting (B : Browser) (evs : list Event) (w : World) :
  run B init evs = Some w ->
  length (setup_frames w) <= length (List.filter open_event evs)
  /\ length (recorders w) <= length (List.filter ack_event evs).
Proof.
  intros Hrun. destruct (run_accounts _ _ _ Hrun) as (_ & H1 & H2). lia.
Qed.

Lemma handshake_accounting_witness :
  let w := after streaming_run in
  run chrome init streaming_run = Some w
  /\ length (setup_frames w) <= length (List.filter open_event streaming_run)
  /\ length (recorders w) <= length (List.filter ack_event streaming_run).
Proof.
  split; [by vm_compute|].
  apply (handshake_accounting chrome streaming_run). by vm_compute.
Defined.

Lemma captured_snoc evs e b : captured evs b -> captured (evs ++ [e]) b.
Proof.
  intros [Hs [r Hr]]. split; [done|]. exists r. apply elem_of_app. by left.
Qed.

Ltac task_origin H :=
  repeat first
    [ apply on_parts_tasks_lookup in H; [|reflexivity]
    | apply lookup_app_Some in H as [H | [_ H]]
    | apply list_lookup_insert_Some in H as [(_ & ? & _) | [_ H]]; [done|]
    | apply list_lookup_singleton_Some in H as [_ H] ].

Lemma step_chunks_inv B evs w e w' :
  chunks_inv evs w -> step B w e = Some w' -> chunks_inv (evs ++ [e]) w'.
Proof.
  intros [I1 I2] Hstep.
  pose proof (step_sockets_length _ _ _ _ Hstep) as Hlen.
  destruct (step_inv _ _ _ _ Hstep) as (w1 & Hh & ->). clear Hstep.
  revert Hlen. unfold chunks_inv. autorewrite with render. intros Hlen.
  destruct e; unfold handle in Hh; repeat case_match; simplify_eq.
  all: unfold_handlers; repeat case_match; simplify_eq.
  all: revert Hlen; fields; intros Hlen.
  all: split; [intros t' b' Ht | intros k' m' b' Hw].
  all: try (task_origin Ht; simplify_eq;
            first [ by eapply captured_snoc, I1 | idtac ]).
  all: try (rewrite ?elem_of_app, ?list_elem_of_singleton in Hw;
            destruct_or?; simplify_eq;
            first [ (destruct (I2 _ _ _ Hw) as (? & ? & ?);
                     split_and!; [done|by apply captured_snoc|lia])
                  | idtac ]).
  1,2: apply andb_true_iff in H1 as [[Hs _]%andb_true_iff _];
    apply Nat.ltb_lt in Hs; split; [done|];
    exists r; apply elem_of_app; right; by apply list_elem_of_singleton.
  split_and!; [done| |].
  - eapply captured_snoc, I1. eassumption.
  - match goal with H : sockets _ !! _ = Some _ |- _ =>
      apply lookup_lt_Some in H; simpl in H; lia end.
Qed.

Lemma run_chunks_inv B evs w : run B init evs = Some w -> chunks_inv evs w.
Proof.
  apply (run_trace_invariant B chunks_inv).
  - split; [intros t b Ht; simpl in Ht; by rewrite lookup_nil in Ht|].
    intros k m b Hw. simpl in Hw. by apply not_elem_of_nil in Hw.
  - intros. by eapply step_chunks_inv.
Qed.

(** X6: on every run, each realtimeInput frame on the wire carries a chunk
    the recorder delivered earlier in the run, with a size above zero, under
    the type "audio/webm;codecs=opus", over a socket that exists; and there
    are at most as many such frames as non-empty chunks delivered: a chunk
    is sent at most once and an empty chunk never. *)
Theorem audio_frames_are_captured_chunks (B : Browser) (evs : list Event) (w : World) :
  run B init evs = Some w ->
  (forall k m b, (k, RealtimeInput m b) ∈ wire w ->
     m = "audio/webm;codecs=opus"
     /\ 0 < blob_size b
     /\ (exists r, DataAvailable r b ∈ evs)
     /\ k < length (sockets w))
  /\ length (audio_frames w) <= length (List.filter chunk_event evs).
Proof.
  intros Hrun. split.
  - intros k m b Hw.
    destruct (run_chunks_inv _ _ _ Hrun) as [_ I2].
    destruct (I2 _ _ _ Hw) as (? & [? ?] & ?). by split_and!.
  - destruct (run_accounts _ _ _ Hrun) as (H1 & _ & _). lia.
Qed.

Lemma audio_frames_are_captured_chunks_witness :
  let evs := streaming_run ++ [DataAvailable 0 chunk; BufferReady 4] in
  let w := after evs in
  run chrome init evs = Some w
  /\ (forall k m b, (k, RealtimeInput m b) ∈ wire w ->
        m = "audio/webm;codecs=opus"
        /\ 0 < blob_size b
        /\ (exists r, DataAvailable r b ∈ evs)
        /\ k < length (sockets w))
  /\ length (audio_frames w) <= length (List.filter chunk_event evs).
Proof.
  split; [by vm_compute|].
  apply (audio_frames_are_captured_chunks chrome
           (streaming_run ++ [DataAvailable 0 chunk; BufferReady 4])).
  by vm_compute.
Defined.


(** ** Without a connection *)

Lemma step_quiet B w e w' :
  wsRef w = None -> media_granted e = false -> step B w e = Some w' ->
  wsRef w' = None /\ wire w' = wire w /\ length (recorders w') = length (recorders w).
Proof.
  intros Hws He (w1 & Hh & ->)%step_inv. autorewrite with render.
  destruct e; unfold handle in Hh; repeat case_match; simplify_eq.
  all: unfold_handlers; unfold current_open in *; repeat case_match; simplify_eq.
  all: fields; rewrite ?endCall_recorders_length; lengths; simpl in *.
  all: try done; try congruence.
Qed.

(** X7: while no socket is referenced (as at mount and after [endCall]),
    nothing is transmitted and no recorder is created, whatever happens,
    until [getUserMedia] resolves with a stream for another call: chunks
    still in flight, timers of the ended call and late socket events
    included. *)
Theorem nothing_sent_without_a_connection (B : Browser) (w w' : World)
    (evs : list Event) :
  wsRef w = None ->
  Forall (fun e => media_granted e = false) evs ->
  run B w evs = Some w' ->
  wsRef w' = None /\ wire w' = wire w /\ length (recorders w') = length (recorders w).
Proof.
  revert w. induction evs as [|e evs IH]; intros w Hws Hall Hrun; simpl in Hrun.
  - by simplify_eq.
  - destruct (step B w e) as [w1|] eqn:Hs; simpl in Hrun; [|done].
    inversion_clear Hall as [|?? He Hall'].
    destruct (step_quiet _ _ _ _ Hws He Hs) as (H1 & H2 & H3).
    destruct (IH _ H1 Hall' Hrun) as (? & ? & ?). split_and!; congruence.
Qed.

Lemma nothing_sent_without_a_connection_witness :
  let w := after (streaming_run ++ [DataAvailable 0 chunk; ClickEnd]) in
  let evs := [BufferReady 4; DataAvailable 0 chunk; WsClosed 0 false; Advance 1000] in
  let w' := after (streaming_run ++ [DataAvailable 0 chunk; ClickEnd] ++ evs) in
  run chrome w evs = Some w'
  /\ wsRef w' = None /\ wire w' = wire w /\ length (recorders w') = length (recorders w).
Proof.
  split; [by vm_compute|].
  apply (nothing_sent_without_a_connection chrome
           (after (streaming_run ++ [DataAvailable 0 chunk; ClickEnd])) _
           [BufferReady 4; DataAvailable 0 chunk; WsClosed 0 false; Advance 1000]).
  - by vm_compute.
  - by repeat constructor.
  - by vm_compute.
Defined.

(** ** [startCall] refused *)

(** X8: when [getUserMedia] rejects, [startCall] shows the toast of the
    error (one for NotAllowedError, another for every other error) and runs
    [endCall]: the session is back at its idle defaults with the modal
    closed and the transcript empty, the refs are null, the end-of-call
    toast follows the error toast, and no socket or stream was created. *)
Theorem startCall_media_refused (B : Browser) (w w' : World) (t : nat) (r : MediaResult) :
  media_granted (UserMediaResult t r) = false ->
  step B w (UserMediaResult t r) = Some w' ->
  callState w' = idleCallState /\ showCallModal w' = false
  /\ conversation w' = [] /\ isRecording w' = false
  /\ wsRef w' = None /\ mediaStreamRef w' = None /\ mediaRecorderRef w' = None
  /\ toasts w' = toasts w ++ [media_error_toast r; ToastChamadaEncerrada]
  /\ console w' = console w ++ [ErrMicrophoneAccess]
  /\ length (sockets w') = length (sockets w)
  /\ length (streams w') = length (streams w)
  /\ wire w' = wire w.
Proof.
  intros Hr (w1 & Hh & ->)%step_inv. autorewrite with render.
  destruct r as [n| |]; [done| |].
  all: unfold handle in Hh; repeat case_match; simplify_eq.
  all: unfold startCall_media in *.
  all: match goal with |- context [callState (endCall ?x)] =>
         destruct (endCall_state x) as (E1 & E2 & E3 & E4) end.
  all: rewrite E1, E2, E3, E4; fields.
  all: rewrite <- app_assoc; split_and!; try done.
  all: try (destruct (wsRef w); by lengths).
  all: by rewrite endCall_streams_length.
Qed.

Lemma startCall_media_refused_witness :
  let w := after [ClickStart; PermissionResult 0 (Some granted)] in
  let w' := after [ClickStart; PermissionResult 0 (Some granted);
                   UserMediaResult 1 NotAllowedError] in
  callState w' = idleCallState /\ showCallModal w' = false
  /\ conversation w' = [] /\ isRecording w' = false
  /\ wsRef w' = None /\ mediaStreamRef w' = None /\ mediaRecorderRef w' = None
  /\ toasts w' = toasts w ++ [media_error_toast NotAllowedError; ToastChamadaEncerrada]
  /\ console w' = console w ++ [ErrMicrophoneAccess]
  /\ length (sockets w') = length (sockets w)
  /\ length (streams w') = length (streams w)
  /\ wire w' = wire w.
Proof.
  apply (startCall_media_refused chrome
           (after [ClickStart; PermissionResult 0 (Some granted)]) _ 1 NotAllowedError).
  - reflexivity.
  - by vm_compute.
Defined.

(** X9: when the permission query itself rejects (the browser does not know
    the permission name), [startCall] shows the toast 'Falha ao iniciar a
    chamada' and runs [endCall]; the microphone is not requested: no
    continuation is left pending, and no stream or socket is created. *)
Theorem startCall_query_rejected (B : Browser) (w w' : World) (t : nat) :
  step B w (PermissionResult t None) = Some w' ->
  callState w' = idleCallState /\ showCallModal w' = false
  /\ conversation w' = [] /\ isRecording w' = false
  /\ wsRef w' = None /\ mediaStreamRef w' = None /\ mediaRecorderRef w' = None
  /\ toasts w' = toasts w ++ [ToastErro; ToastChamadaEncerrada]
  /\ console w' = console w ++ [ErrStartingCall]
  /\ tasks w' = <[t := None]> (tasks w)
  /\ length (sockets w') = length (sockets w)
  /\ length (streams w') = length (streams w)
  /\ wire w' = wire w.
Proof.
  intros (w1 & Hh & ->)%step_inv. autorewrite with render.
  unfold handle in Hh. repeat case_match; simplify_eq.
  unfold startCall_permission in *.
  destruct (endCall_state (toast ToastErro (log ErrStartingCall (finish t w))))
    as (E1 & E2 & E3 & E4).
  rewrite E1, E2, E3, E4. fields.
  rewrite <- app_assoc; split_and!; try done.
  all: try (destruct (wsRef w); by lengths).
  all: by rewrite endCall_streams_length.
Qed.

Lemma startCall_query_rejected_witness :
  let w := after [ClickStart] in
  let w' := after [ClickStart; PermissionResult 0 None] in
  callState w' = idleCallState /\ showCallModal w' = false
  /\ conversation w' = [] /\ isRecording w' = false
  /\ wsRef w' = None /\ mediaStreamRef w' = None /\ mediaRecorderRef w' = None
  /\ toasts w' = toasts w ++ [ToastErro; ToastChamadaEncerrada]
  /\ console w' = console w ++ [ErrStartingCall]
  /\ tasks w' = <[0 := None]> (tasks w)
  /\ length (sockets w') = length (sockets w)
  /\ length (streams w') = length (streams w)
  /\ wire w' = wire w.
Proof.
  apply (startCall_query_rejected chrome (after [ClickStart]) _ 0). by vm_compute.
Defined.

(** ** Playback: what is started, and what is reported *)

Lemma play_loop_outcome B types url w :
  exists l c,
    audios (play_loop B types url w).2 = audios w ++ l
    /\ console (play_loop B types url w).2 = console w ++ c
    /\ length l <= 1
    /\ (l = [] <-> forallb (fun t => negb (play_returns B t)) types = true)
    /\ (ErrNoSupportedFormat ∉ c)
    /\ (play_loop B types url w).1 = url || negb (forallb (blob_throws B) types).
Proof.
  revert url w. induction types as [|type rest IH]; intros url w; simpl.
  - exists [], []. rewrite !app_nil_r, orb_false_r.
    split_and!; try done; [simpl; lia | apply not_elem_of_nil].
  - unfold play_returns, blob_throws at 1.
    destruct (audioFacility B type) as [| |promise] eqn:Hf; simpl.
    + destruct (IH url (log (LogTypeNotSupported type)
                          (set_tried (fun l => l ++ [type]) w)))
        as (l & c & H1 & H2 & H3 & H4 & H5 & H6).
      exists l, (LogTypeNotSupported type :: c). simpl in *.
      rewrite H1, H2, H6, <- app_assoc. split_and!; try done.
      apply not_elem_of_cons. by split.
    + destruct (IH true (log (LogTypeNotSupported type)
                           (set_tried (fun l => l ++ [type]) w)))
        as (l & c & H1 & H2 & H3 & H4 & H5 & H6).
      exists l, (LogTypeNotSupported type :: c). simpl in *.
      rewrite H1, H2, H6, <- app_assoc, orb_true_r. split_and!; try done.
      apply not_elem_of_cons. by split.
    + rewrite orb_true_r.
      destruct promise; simpl; eexists [_], []; rewrite app_nil_r;
        (split_and!; [done|done|simpl; lia|by split|apply not_elem_of_nil|done]).
Qed.

(** X10: one call of [playAudioResponse] starts at most one [Audio] element
    (an element counts once its [audio.play()] has returned).  With base64
    that does not decode it tries no candidate and logs 'Error playing
    audio response'.  Otherwise it starts none exactly when no candidate
    gets as far as [audio.play()] returning; but 'No
    supported audio format found' is logged exactly when the Blob or its URL
    could not be made for any candidate: a candidate whose [new Audio] or
    [play()] throws leaves [audioUrl] set, and the failure is not reported. *)
Theorem playAudioResponse_outcome (B : Browser) (d m : string) (w : World) :
  exists l c,
    audios (playAudioResponse B d m w) = audios w ++ l
    /\ console (playAudioResponse B d m w) = console w ++ c
    /\ length l <= 1
    /\ match atob B d with
       | None =>
           l = [] /\ c = [ErrPlayingAudioResponse]
           /\ tried (playAudioResponse B d m w) = tried w
       | Some _ =>
           (l = [] <-> Forall (fun t => play_returns B t = false) (supportedTypes m))
           /\ (ErrNoSupportedFormat ∈ c
               <-> Forall (fun t => blob_throws B t = true) (supportedTypes m))
       end.
Proof.
  unfold playAudioResponse. destruct (atob B d) as [bytes|].
  - destruct (play_loop_outcome B (supportedTypes m) false
                (set_playCalls (fun l => l ++ [(d, m)]) w))
      as (l & c & H1 & H2 & H3 & H4 & H5 & H6).
    revert H1 H2 H6.
    generalize (play_loop B (supportedTypes m) false
                  (set_playCalls (fun l => l ++ [(d, m)]) w)).
    intros [url w1]. cbn [fst snd]. intros H1 H2 H6.
    change (audios (set_playCalls (fun l => l ++ [(d, m)]) w)) with (audios w) in H1.
    change (console (set_playCalls (fun l => l ++ [(d, m)]) w)) with (console w) in H2.
    assert (Hret : l = [] <-> Forall (fun t => play_returns B t = false) (supportedTypes m)).
    { rewrite H4, forallb_forall, Forall_forall.
      split; intros H x Hx; specialize (H x); rewrite <- list_elem_of_In in *;
        specialize (H Hx); by destruct (play_returns B x). }
    assert (Hblob : forallb (blob_throws B) (supportedTypes m) = true
                    <-> Forall (fun t => blob_throws B t = true) (supportedTypes m)).
    { rewrite forallb_forall, Forall_forall.
      split; intros H x Hx; apply H; by rewrite ?list_elem_of_In in *. }
    rewrite orb_false_l in H6. destruct url.
    + exists l, c. split_and!; try done. split.
      * intros Hin. by destruct H5.
      * intros HF. apply Hblob in HF. rewrite HF in H6. done.
    + exists l, (c ++ [ErrNoSupportedFormat]).
      change (audios (log ErrNoSupportedFormat w1)) with (audios w1).
      change (console (log ErrNoSupportedFormat w1))
        with (console w1 ++ [ErrNoSupportedFormat]).
      rewrite H1, H2, <- app_assoc. split_and!; try done. split.
      * intros _. apply Hblob.
        by destruct (forallb (blob_throws B) (supportedTypes m)).
      * intros _. apply elem_of_app. right. by apply list_elem_of_singleton.
  - exists [], [ErrPlayingAudioResponse]. rewrite app_nil_r.
    split_and!; try done. simpl. lia.
Qed.

(** X11: when the promise of [audio.play()] rejects, the handler logs the
    failure and nothing else happens: no other candidate type is tried, no
    [Audio] element is started, and the session (call state, transcript,
    recording flag, wire, toasts) is as before.  The fallback candidates
    are reached only when a candidate throws synchronously. *)
Theorem rejected_play_is_not_retried (B : Browser) (w w' : World) (t : nat) :
  step B w (PlayResult t false) = Some w' ->
  exists a type,
    tasks w !! t = Some (Some (AwaitPlay a type))
    /\ audios w' = alter (fun x => mkAudio (a_source x) rejected) a (audios w)
    /\ length (audios w') = length (audios w)
    /\ tried w' = tried w /\ playCalls w' = playCalls w
    /\ tasks w' = <[t := None]> (tasks w)
    /\ console w' = console w ++ [LogFailedWithType type]
    /\ callState w' = callState w /\ conversation w' = conversation w
    /\ isRecording w' = isRecording w /\ wire w' = wire w /\ toasts w' = toasts w.
Proof.
  intros (w1 & Hh & ->)%step_inv. autorewrite with render.
  unfold handle in Hh. repeat case_match; simplify_eq.
  eexists _, _. split; [done|]. unfold play_done. simpl. lengths. by split_and!.
Qed.

Lemma rejected_play_is_not_retried_witness :
  let w := after (streaming_run ++ [WsMessage 0 content]) in
  let w' := after (streaming_run ++ [WsMessage 0 content; PlayResult 4 false]) in
  exists a type,
    tasks w !! 4 = Some (Some (AwaitPlay a type))
    /\ audios w' = alter (fun x => mkAudio (a_source x) rejected) a (audios w)
    /\ length (audios w') = length (audios w)
    /\ tried w' = tried w /\ playCalls w' = playCalls w
    /\ tasks w' = <[4 := None]> (tasks w)
    /\ console w' = console w ++ [LogFailedWithType type]
    /\ callState w' = callState w /\ conversation w' = conversation w
    /\ isRecording w' = isRecording w /\ wire w' = wire w /\ toasts w' = toasts w.
Proof.
  apply (rejected_play_is_not_retried chrome
           (after (streaming_run ++ [WsMessage 0 content])) _ 4).
  by vm_compute.
Defined.

(** ** What a frame from the peer can do *)

(** X12: a frame received from the peer never transmits anything, shows no
    toast, leaves the modal, the refs, the sockets, the streams and the
    recorders as they are, can change nothing of the call state but the
    status (to [connected], by setupComplete), and appends at most one
    entry to the transcript.  A text frame that does not parse only logs
    'Error handling WebSocket message'. *)
Theorem inbound_frame_is_contained (B : Browser) (w w' : World) (k : nat) (f : Frame) :
  step B w (WsMessage k f) = Some w' ->
  wire w' = wire w /\ toasts w' = toasts w /\ showCallModal w' = showCallModal w
  /\ wsRef w' = wsRef w /\ mediaStreamRef w' = mediaStreamRef w
  /\ mediaRecorderRef w' = mediaRecorderRef w
  /\ sockets w' = sockets w /\ streams w' = streams w /\ recorders w' = recorders w
  /\ (callState w' = callState w \/ callState w' = with_status connected (callState w))
  /\ (exists l, conversation w' = conversation w ++ l /\ length l <= 1)
  /\ (f = TextFrame None ->
      callState w' = callState w /\ conversation w' = conversation w
      /\ tasks w' = tasks w /\ audios w' = audios w
      /\ console w' = console w ++ [ErrHandlingMessage]).
Proof.
  intros (w1 & Hh & ->)%step_inv. autorewrite with render.
  unfold handle in Hh. repeat case_match; simplify_eq.
  unfold onmessage, on_setupComplete. destruct f as [b|[d|]].
  - simpl. split_and!; try done; [by left|].
    exists []. rewrite app_nil_r. split; [done|simpl; lia].
  - assert (exists l, conversation
              match parts d with Some ps => on_parts B (ws_env w0) ps w | None => w end
              = conversation w ++ l /\ length l <= 1) as Hconv.
    { destruct (parts d) as [ps|];
        [|exists []; rewrite app_nil_r; split; [done|simpl; lia]].
      rewrite on_parts_conversation. eexists. split; [done|].
      destruct (List.find truthy_text ps); simpl; lia. }
    destruct (parts d) as [ps|]; destruct (setupComplete d); repeat case_match;
      fields; split_and!; try done; try (by left); try (by right).
  - simpl. split_and!; try done; [by left|].
    exists []. rewrite app_nil_r. split; [done|simpl; lia].
Qed.

Lemma inbound_frame_is_contained_witness :
  let w := after streaming_run in
  let w' := after (streaming_run ++ [WsMessage 0 (TextFrame None)]) in
  wire w' = wire w /\ toasts w' = toasts w /\ showCallModal w' = showCallModal w
  /\ wsRef w' = wsRef w /\ mediaStreamRef w' = mediaStreamRef w
  /\ mediaRecorderRef w' = mediaRecorderRef w
  /\ sockets w' = sockets w /\ streams w' = streams w /\ recorders w' = recorders w
  /\ (callState w' = callState w \/ callState w' = with_status connected (callState w))
  /\ (exists l, conversation w' = conversation w ++ l /\ length l <= 1)
  /\ (TextFrame None = TextFrame None ->
      callState w' = callState w /\ conversation w' = conversation w
      /\ tasks w' = tasks w /\ audios w' = audios w
      /\ console w' = console w ++ [ErrHandlingMessage]).
Proof.
  apply (inbound_frame_is_contained chrome (after streaming_run) _ 0 (TextFrame None)).
  by vm_compute.
Defined.

(** ** After [endCall] *)

Lemma step_retired_socket B k w e w' :
  retired_socket k w -> step B w e = Some w' ->
  retired_socket k w' /\ frames_on k w' = frames_on k w.
Proof.
  intros [Hk Hr] Hstep.
  pose proof (step_sockets_length _ _ _ _ Hstep) as Hlen.
  destruct (step_inv _ _ _ _ Hstep) as (w1 & Hh & ->). clear Hstep.
  revert Hlen. unfold retired_socket, frames_on. autorewrite with render. intros Hlen.
  destruct e; unfold handle in Hh; repeat case_match; simplify_eq.
  all: unfold_handlers; repeat case_match; simplify_eq.
  all: revert Hlen; fields; intros Hlen.
  all: rewrite ?frames_on_snoc.
  all: split; [split; [lia|]|]; try done.
  all: try (intros [= Heq]; simpl in *; lia).
  all: simpl in *; destruct (Nat.eqb_spec n k) as [->|]; [congruence|].
  all: by rewrite app_nil_r.
Qed.



Transparent endCall.

Lemma endCall_streams_other w s :
  mediaStreamRef w <> Some s -> streams (endCall w) !! s = streams w !! s.
Proof.
  intros Hs. endCall_paths w; try done.
  all: by rewrite list_lookup_alter_ne by congruence.
Qed.

Lemma endCall_recorders_idle w i rc :
  recorders w !! i = Some rc -> rec_state rc <> recording ->
  exists rc', recorders (endCall w) !! i = Some rc' /\ rec_state rc' <> recording.
Proof.
  intros Hi Hrc.
  pose proof stop_recorder_not_recording as Hstop.
  assert (Halter : forall j (l : list Recorder), l !! i = Some rc ->
            exists rc', alter stop_recorder j l !! i = Some rc'
                        /\ rec_state rc' <> recording).
  { intros j l Hl. destruct (decide (i = j)) as [->|Hne].
    - rewrite list_lookup_alter_eq, Hl. simpl. eauto.
    - rewrite list_lookup_alter_ne by done. eauto. }
  endCall_paths w; rewrite ?list_lookup_fmap; eauto.
  all: try match goal with |- context [alter stop_recorder ?j _ !! _] =>
         destruct (Halter j _ Hi) as (rc' & -> & Hrc') end.
  all: rewrite ?Hi; simpl; eexists; (split; [done|]); try case_bool_decide; eauto.
Qed.

Opaque endCall.

Lemma flushed_idle r : rec_state r <> recording -> rec_state (flushed r) <> recording.
Proof. unfold flushed. by destruct r as [? [] ?]. Qed.

Lemma step_retired_devices B s r w e w' :
  retired_devices s r w -> step B w e = Some w' -> retired_devices s r w'.
Proof.
  intros (I1 & (ts & Hts & Hstop) & I3) (w1 & Hh & ->)%step_inv.
  unfold retired_devices. autorewrite with render.
  assert (Hrec : forall i, r = Some i ->
            exists rc, recorders w !! i = Some rc /\ rec_state rc <> recording)
    by (intros i Hi; by apply I3).
  assert (Href : forall i, r = Some i -> mediaRecorderRef w <> Some i)
    by (intros i Hi; by apply I3).
  destruct e; unfold handle in Hh; repeat case_match; simplify_eq.
  all: unfold_handlers; repeat case_match; simplify_eq.
  all: fields.
  all: split_and!; [try done | exists ts; split; [|done] | intros i Hi; split ].
  all: rewrite ?endCall_streams_other by done; try done.
  all: try (by apply Href).
  all: try (destruct (Hrec i Hi) as (rc & Hrc & Hidle);
            first [ by eauto | by eapply endCall_recorders_idle | idtac ]).
  all: try (apply lookup_lt_Some in Hts; intros [= Heq]; lia).
  all: try (apply lookup_lt_Some in Hrc; intros [= Heq]; lia).
  all: try (by apply lookup_app_l_Some).
  all: try (eexists; split; [by apply lookup_app_l_Some|done]).
  all: try (simpl in *; rewrite list_lookup_alter_ne; [done|congruence]).
  all: destruct (decide (i = r0)) as [->|Hne];
    [ rewrite list_lookup_alter_eq, Hrc; simpl; eexists; split; [done|];
      by apply flushed_idle
    | rewrite list_lookup_alter_ne by done; eauto ].
Qed.




(** ** Playback in progress *)

Lemma play_loop_shape B types url w :
  (tasks (play_loop B types url w).2 = tasks w
   /\ exists l, audios (play_loop B types url w).2 = audios w ++ l
                /\ Forall (fun x => a_state x = playing) l)
  \/ (exists type,
        tasks (play_loop B types url w).2
        = tasks w ++ [Some (AwaitPlay (length (audios w)) type)]
        /\ audios (play_loop B types url w).2
           = audios w ++ [mkAudio (InlineAudio type) starting]).
Proof.
  revert url w. induction types as [|type rest IH]; intros url w; simpl.
  - left. split; [done|]. exists []. by rewrite app_nil_r.
  - destruct (audioFacility B type) as [| |[]]; simpl.
    + apply (IH url (log (LogTypeNotSupported type) (set_tried (fun l => l ++ [type]) w))).
    + apply (IH true (log (LogTypeNotSupported type) (set_tried (fun l => l ++ [type]) w))).
    + right. by exists type.
    + left. split; [done|]. eexists [_]. split; [done|]. by repeat constructor.
Qed.

Lemma playAudioResponse_shape B d m w :
  (tasks (playAudioResponse B d m w) = tasks w
   /\ exists l, audios (playAudioResponse B d m w) = audios w ++ l
                /\ Forall (fun x => a_state x = playing) l)
  \/ (exists type,
        tasks (playAudioResponse B d m w)
        = tasks w ++ [Some (AwaitPlay (length (audios w)) type)]
        /\ audios (playAudioResponse B d m w)
           = audios w ++ [mkAudio (InlineAudio type) starting]).
Proof.
  unfold playAudioResponse. destruct (atob B d).
  - pose proof (play_loop_shape B (supportedTypes m) false
                  (set_playCalls (fun l => l ++ [(d, m)]) w)) as H.
    revert H. generalize (play_loop B (supportedTypes m) false
                            (set_playCalls (fun l => l ++ [(d, m)]) w)).
    by intros [[] w1].
  - left. split; [done|]. exists []. by rewrite app_nil_r.
Qed.

Transparent on_parts.

Lemma on_parts_shape B env ps w :
  (tasks (on_parts B env ps w) = tasks w
   /\ exists l, audios (on_parts B env ps w) = audios w ++ l
                /\ Forall (fun x => a_state x = playing) l)
  \/ (exists type,
        tasks (on_parts B env ps w)
        = tasks w ++ [Some (AwaitPlay (length (audios w)) type)]
        /\ audios (on_parts B env ps w)
           = audios w ++ [mkAudio (InlineAudio type) starting]).
Proof.
  unfold on_parts.
  destruct (List.find is_audio_part ps) as [ap|]; [destruct (speakerEnabled env)|].
  2,3: left; split; [by destruct (List.find truthy_text ps)|];
       exists []; rewrite app_nil_r; by destruct (List.find truthy_text ps).
  pose proof (playAudioResponse_shape B (part_data ap) (part_mimeType ap)
                match List.find truthy_text ps with
                | Some textPart =>
                    setConversation
                      (fun prev => prev ++ [mkMessage AI (part_text textPart) (now w)]) w
                | None => w
                end) as H.
  by destruct (List.find truthy_text ps).
Qed.

Opaque on_parts.

Lemma play_ok_spawn ts els x :
  play_task (Some x) = false -> play_ok ts els -> play_ok (ts ++ [Some x]) els.
Proof.
  intros Hx [P1 P2]. split.
  - intros t a type [Ht|[_ Ht]]%lookup_app_Some; [by eapply P1|].
    apply list_lookup_singleton_Some in Ht as [_ Ht]. by simplify_eq.
  - intros t t' a type type' [Ht|[_ Ht]]%lookup_app_Some [Ht'|[_ Ht']]%lookup_app_Some.
    + by eapply P2.
    + apply list_lookup_singleton_Some in Ht' as [_ Ht']. by simplify_eq.
    + apply list_lookup_singleton_Some in Ht as [_ Ht]. by simplify_eq.
    + apply list_lookup_singleton_Some in Ht as [_ Ht]. by simplify_eq.
Qed.

Lemma play_ok_finish ts els t : play_ok ts els -> play_ok (<[t := None]> ts) els.
Proof.
  intros [P1 P2]. split.
  - intros t1 a type [(_ & ? & _)|[_ Ht]]%list_lookup_insert_Some; [done|].
    by eapply P1.
  - intros t1 t2 a type type' [(_ & ? & _)|[_ H1]]%list_lookup_insert_Some
      [(_ & ? & _)|[_ H2]]%list_lookup_insert_Some; try done.
    by eapply P2.
Qed.

Lemma play_ok_append ts els l : play_ok ts els -> play_ok ts (els ++ l).
Proof.
  intros [P1 P2]. split; [|done].
  intros t a type H. destruct (P1 _ _ _ H) as (x & Hx & Hs).
  exists x. split; [|done]. by apply lookup_app_l_Some.
Qed.

Lemma play_ok_new ts els type :
  play_ok ts els ->
  play_ok (ts ++ [Some (AwaitPlay (length els) type)])
          (els ++ [mkAudio (InlineAudio type) starting]).
Proof.
  intros [P1 P2]. split.
  - intros t a ty [H|[_ H]]%lookup_app_Some.
    + destruct (P1 _ _ _ H) as (x & Hx & Hs).
      exists x. split; [|done]. by apply lookup_app_l_Some.
    + apply list_lookup_singleton_Some in H as [_ H]. simplify_eq.
      eexists. split; [by rewrite lookup_app_r, Nat.sub_diag|done].
  - intros t t' a ty ty' [H|[Hl H]]%lookup_app_Some [H'|[Hl' H']]%lookup_app_Some.
    + by eapply P2.
    + apply list_lookup_singleton_Some in H' as [_ H']. simplify_eq.
      destruct (P1 _ _ _ H) as (x & Hx%lookup_lt_Some & _). lia.
    + apply list_lookup_singleton_Some in H as [_ H]. simplify_eq.
      destruct (P1 _ _ _ H') as (x & Hx%lookup_lt_Some & _). lia.
    + apply list_lookup_singleton_Some in H as [? _].
      apply list_lookup_singleton_Some in H' as [? _]. lia.
Qed.

(** The element of the promise that settles changes; the others wait. *)
Lemma play_ok_settle ts els t a type (f : Audio -> Audio) :
  ts !! t = Some (Some (AwaitPlay a type)) ->
  play_ok ts els -> play_ok (<[t := None]> ts) (alter f a els).
Proof.
  intros Ht [P1 P2]. split.
  - intros t1 a1 ty [(_ & ? & _)|[Hne H1]]%list_lookup_insert_Some; [done|].
    destruct (P1 _ _ _ H1) as (x & Hx & Hs). exists x. split; [|done].
    rewrite list_lookup_alter_ne; [done|]. intros <-. apply Hne.
    by eapply P2.
  - intros t1 t2 a1 ty ty' [(_ & ? & _)|[_ H1]]%list_lookup_insert_Some
      [(_ & ? & _)|[_ H2]]%list_lookup_insert_Some; try done.
    by eapply P2.
Qed.

Lemma play_ok_ended ts els a x (f : Audio -> Audio) :
  els !! a = Some x -> a_state x = playing ->
  play_ok ts els -> play_ok ts (alter f a els).
Proof.
  intros Ha Hp [P1 P2]. split; [|done].
  intros t1 a1 ty H1. destruct (P1 _ _ _ H1) as (y & Hy & Hs). exists y. split; [|done].
  rewrite list_lookup_alter_ne; [done|]. intros <-. congruence.
Qed.

Lemma play_inv_on_parts B env ps w : play_inv w -> play_inv (on_parts B env ps w).
Proof.
  unfold play_inv. intros I.
  destruct (on_parts_shape B env ps w) as [[-> (l & -> & _)]|(ty & -> & ->)].
  - by apply play_ok_append.
  - by apply play_ok_new.
Qed.

Ltac play_ok_close :=
  repeat first
    [ assumption
    | apply play_inv_on_parts
    | (apply play_ok_spawn; [reflexivity|])
    | apply play_ok_append
    | (eapply play_ok_settle; [eassumption|])
    | (eapply play_ok_ended; [eassumption|by apply bool_decide_eq_true_1|])
    | apply play_ok_finish ].

Lemma step_play_inv B w e w' : play_inv w -> step B w e = Some w' -> play_inv w'.
Proof.
  intros I (w1 & Hh & ->)%step_inv.
  unfold play_inv in *. autorewrite with render.
  destruct e; unfold handle in Hh; repeat case_match; simplify_eq.
  all: unfold_handlers; repeat case_match; simplify_eq.
  all: rewrite ?endCall_tasks, ?endCall_audios.
  all: simpl; rewrite ?endCall_tasks, ?endCall_audios; simpl.
  all: try (by play_ok_close).
  apply bool_decide_eq_true_1 in H0. by eapply play_ok_ended.
Qed.

Lemma run_play_inv B evs w : run B init evs = Some w -> play_inv w.
Proof.
  intros Hrun. eapply (run_invariant B play_inv); [|idtac|exact Hrun].
  - intros. by eapply step_play_inv.
  - split; intros t; intros; simpl in *; by rewrite lookup_nil in *.
Qed.

(** What a task does to an element that plays. *)
Lemma step_playing B w e w' a x :
  play_inv w -> step B w e = Some w' ->
  audios w !! a = Some x -> a_state x = playing ->
  e <> AudioEnded a ->
  audios w' !! a = Some x.
Proof.
  intros [P1 P2] (w1 & Hh & ->)%step_inv Ha Hp He. autorewrite with render.
  destruct e; unfold handle in Hh; repeat case_match; simplify_eq.
  all: unfold_handlers; repeat case_match; simplify_eq.
  all: rewrite ?endCall_audios; simpl; rewrite ?endCall_audios; simpl.
  all: try done.
  all: try (by apply lookup_app_l_Some).
  all: try match goal with |- context [audios (on_parts ?b ?c ?d ?f)] =>
         let Hsh := fresh in
         destruct (on_parts_shape b c d f)
           as [[_ (? & Hsh & _)]|(? & _ & Hsh)]; rewrite Hsh;
         by apply lookup_app_l_Some
       end.
  all: rewrite list_lookup_alter_ne; [done|]; intros ->.
  1,2: match goal with H : tasks _ !! _ = Some (Some (AwaitPlay _ _)) |- _ =>
         destruct (P1 _ _ _ H) as (y & Hy & Hs) end; congruence.
  done.
Qed.

(** X15: the component never interrupts playback: an element that plays
    keeps playing through every task but its own ['ended'] event, whatever
    the user does meanwhile; switching the speaker off, muting and ending
    the call included. *)
Theorem playback_is_not_interrupted (B : Browser) (pre evs : list Event)
    (w w' : World) (a : nat) (x : Audio) :
  run B init pre = Some w ->
  audios w !! a = Some x -> a_state x = playing ->
  Forall (fun e => e <> AudioEnded a) evs ->
  run B w evs = Some w' ->
  audios w' !! a = Some x.
Proof.
  intros Hpre%run_play_inv Ha Hp Hall Hrun.
  revert w Hpre Ha Hrun. induction evs as [|e evs IH]; intros w Hinv Ha Hrun; simpl in Hrun.
  - by simplify_eq.
  - destruct (step B w e) as [w1|] eqn:Hs; simpl in Hrun; [|done].
    inversion_clear Hall as [|?? He Hall'].
    apply (IH Hall' w1); [by eapply step_play_inv| |done].
    by eapply step_playing.
Qed.

Lemma playback_is_not_interrupted_witness :
  let pre := streaming_run ++ [WsMessage 0 content; PlayResult 4 true] in
  let evs := [ClickSpeaker; ClickMute; WsMessage 0 content; ClickEnd; WsClosed 0 false] in
  audios (after (pre ++ evs)) !! 0 = Some (mkAudio (InlineAudio "audio/mp3") playing).
Proof.
  apply (playback_is_not_interrupted chrome
           (streaming_run ++ [WsMessage 0 content; PlayResult 4 true])
           [ClickSpeaker; ClickMute; WsMessage 0 content; ClickEnd; WsClosed 0 false]
           (after (streaming_run ++ [WsMessage 0 content; PlayResult 4 true]))).
  - by vm_compute.
  - by vm_compute.
  - done.
  - by repeat constructor.
  - by vm_compute.
Defined.



Lemma step_recording_on B w e w' :
  play_inv w -> step B w e = Some w' -> isRecording w' = true ->
  (isRecording w = true /\ forall a, e <> AudioEnded a)
  \/ exists a x, audios w' !! a = Some x /\ a_state x = playing.
Proof.
  intros [P1 P2] (w1 & Hh & ->)%step_inv. autorewrite with render.
  destruct e; unfold handle in Hh; repeat case_match; simplify_eq.
  all: unfold_handlers; repeat case_match; simplify_eq.
  all: fields.
  all: try done.
  all: try (intros ?; left; by split).
  - intros _. right. eexists (length (audios w)), _.
    split; [by rewrite lookup_app_r, Nat.sub_diag|done].
  - intros _. right.
    match goal with H : tasks w !! _ = Some (Some (AwaitPlay _ _)) |- _ =>
      destruct (P1 _ _ _ H) as (y & Hy & Hs) end.
    eexists audio, _. split; [by rewrite list_lookup_alter_eq, Hy|done].
Qed.

Lemma step_recording_inv B w e w' :
  play_inv w -> recording_inv w -> step B w e = Some w' -> recording_inv w'.
Proof.
  intros Hp Hr Hs Hon.
  destruct (step_recording_on _ _ _ _ Hp Hs Hon) as [[Hw He]|?]; [|done].
  destruct (Hr Hw) as (a & x & Ha & Hx).
  exists a, x. split; [|done]. by eapply step_playing.
Qed.

(** X16: the flag [isRecording] tells of playback, not of the microphone: on
    every run it is on only while an [Audio] element or a decoded buffer
    plays (it is set when playback starts and cleared when any playback
    ends, when decoding fails and by [endCall]). *)
Theorem recording_flag_means_playback (B : Browser) (evs : list Event) (w : World) :
  run B init evs = Some w ->
  isRecording w = true ->
  exists a x, audios w !! a = Some x /\ a_state x = playing.
Proof.
  intros Hrun.
  assert (play_inv w /\ recording_inv w) as [_ Hr]; [|exact Hr].
  eapply (run_invariant B (fun w => play_inv w /\ recording_inv w)); [|idtac|exact Hrun].
  - intros w0 e w1 [Hp Hr] Hs. split; [by eapply step_play_inv|].
    by eapply step_recording_inv.
  - split; [|done]. split; intros t; intros; simpl in *; by rewrite lookup_nil in *.
Qed.

Lemma recording_flag_means_playback_witness :
  let evs := streaming_run ++ [WsMessage 0 content; PlayResult 4 true] in
  run chrome init evs = Some (after evs)
  /\ isRecording (after evs) = true
  /\ exists a x, audios (after evs) !! a = Some x /\ a_state x = playing.
Proof.
  split; [by vm_compute|]. split; [by vm_compute|].
  apply (recording_flag_means_playback chrome
           (streaming_run ++ [WsMessage 0 content; PlayResult 4 true]));
    by vm_compute.
Defined.

(** * Properties of the shell *)

Arguments app_handle : simpl never.
Arguments commit : simpl never.
Arguments app_step : simpl never.

Lemma app_run_snoc B a evs e :
  app_run B a (evs ++ [e]) = app_run B a evs ≫= fun a' => app_step B a' e.
Proof.
  revert a. induction evs as [|e' evs IH]; intros a; simpl.
  - by destruct (app_step B a e).
  - destruct (app_step B a e') as [a1|]; simpl; [apply IH|done].
Qed.

Lemma app_run_invariant B (P : App -> Prop) :
  (forall a e a', P a -> app_step B a e = Some a' -> P a') ->
  forall evs a a', P a -> app_run B a evs = Some a' -> P a'.
Proof.
  intros Hstep evs. induction evs as [|e evs IH]; intros a a' HP Hrun; simpl in Hrun.
  - by simplify_eq.
  - destruct (app_step B a e) as [a1|] eqn:Hs; simpl in Hrun; [|done].
    eapply IH; [|done]. by eapply Hstep.
Qed.

Lemma app_step_inv B a e a' :
  app_step B a e = Some a' -> exists a1, app_handle B e a = Some a1 /\ a' = commit a1.
Proof.
  unfold app_step. destruct (app_handle B e a) as [a1|]; simpl; [|done].
  intros [= <-]. eauto.
Qed.

(** What the effects leave alone. *)
Lemma commit_engine a : engine (commit a) = engine a.
Proof.
  unfold commit, timer_effect, timer_cleanup, clearInterval.
  repeat case_match; done.
Qed.

Lemma commit_key a :
  apiKey (commit a) = apiKey a /\ hasApiKey (commit a) = hasApiKey a
  /\ localStorage (commit a) = localStorage a /\ keyToasts (commit a) = keyToasts a.
Proof.
  unfold commit, timer_effect, timer_cleanup, clearInterval.
  repeat case_match; done.
Qed.

(** ** The API key *)

Lemma trimStart_nil s : trimStart s = [] <-> forallb isWhiteSpace s = true.
Proof.
  induction s as [|c s IH]; simpl; [done|].
  destruct (isWhiteSpace c); simpl; [done|]. split; done.
Qed.

Lemma trimStart_snoc s c : isWhiteSpace c = false -> trimStart (s ++ [c]) <> [].
Proof.
  intros Hc. induction s as [|x s IH]; simpl.
  - by rewrite Hc.
  - by destruct (isWhiteSpace x).
Qed.

Lemma trimStart_head s c r : trimStart s = c :: r -> isWhiteSpace c = false.
Proof.
  induction s as [|x s IH]; simpl; [done|].
  destruct (isWhiteSpace x) eqn:Hx; [done|]. by intros [= <- _].
Qed.

(** [trim] leaves nothing exactly of the strings made of white space. *)
Lemma trim_nil s : trim s = [] <-> forallb isWhiteSpace s = true.
Proof.
  rewrite <- trimStart_nil. unfold trim, trimEnd.
  destruct (trimStart s) as [|c r] eqn:Hs; [done|].
  split; [|done]. intros H. exfalso.
  apply (f_equal reverse) in H. rewrite reverse_involutive, reverse_nil in H.
  rewrite reverse_cons in H. eapply trimStart_snoc; [|exact H].
  by eapply trimStart_head.
Qed.

Lemma app_step_key_inv B st a e a' :
  key_inv st a -> app_step B a e = Some a' -> key_inv st a'.
Proof.
  intros [I1 I2] (a1 & Hh & ->)%app_step_inv.
  unfold key_inv. destruct (commit_key a1) as (-> & -> & -> & _).
  destruct e as [s|stored|i|e]; unfold app_handle in Hh.
  - destruct (hasApiKey a) eqn:Hk; simplify_eq. simpl. rewrite Hk.
    split; [done|]. by apply I2.
  - destruct (hasApiKey a) eqn:Hk; simplify_eq. unfold saveApiKey.
    case_bool_decide as Ht; [|destruct stored]; simpl; rewrite ?Hk.
    + split; [done|]. by apply I2.
    + split; [|done]. intros _. split_and!; [|done|by intros ?].
      intros Hnil. apply Ht. by rewrite Hnil.
    + split; [done|]. by apply I2.
  - repeat case_match; simplify_eq; by split.
  - destruct (is_click e && negb (hasApiKey a)); [done|].
    destruct (step B (engine a) e); simplify_eq/=. by split.
Qed.

Lemma mount_key_inv t0 st : key_inv st (mount t0 st).
Proof.
  unfold key_inv, mount. destruct st as [[|c k]|]; simpl; split; try done.
  all: intros _; split_and!; try done; eauto.
Qed.

Lemma run_key_inv B t0 st evs a :
  app_run B (mount t0 st) evs = Some a -> key_inv st a.
Proof.
  intros Hrun. eapply (app_run_invariant B (key_inv st)); [|apply mount_key_inv|done].
  intros. by eapply app_step_key_inv.
Qed.

(** X17: whenever the call screen is shown ([hasApiKey]), the key in use is
    not the empty string and is the stored one; and it consists of white
    space only if that is what the store held when the component mounted
    ([saveApiKey] stores no such key). *)
Theorem key_in_use_is_the_stored_key (B : Browser) (t0 : nat) (st : option (list N))
    (evs : list AppEvent) (a : App) :
  app_run B (mount t0 st) evs = Some a ->
  hasApiKey a = true ->
  apiKey a <> []
  /\ localStorage a = Some (apiKey a)
  /\ (forallb isWhiteSpace (apiKey a) = true -> st = Some (apiKey a)).
Proof.
  intros Hrun Hk. destruct (run_key_inv _ _ _ _ _ Hrun) as [I1 _].
  destruct (I1 Hk) as (H1 & H2 & H3). split_and!; try done.
  intros Hw. by apply H3, trim_nil.
Qed.

Lemma key_in_use_is_the_stored_key_witness :
  let evs := [TypeKey [65; 73]; SaveKey true]%N in
  let a := default (mount 5 None) (app_run chrome (mount 5 None) evs) in
  app_run chrome (mount 5 None) evs = Some a
  /\ hasApiKey a = true
  /\ apiKey a <> []
  /\ localStorage a = Some (apiKey a)
  /\ (forallb isWhiteSpace (apiKey a) = true -> None = Some (apiKey a)).
Proof.
  split; [by vm_compute|]. split; [by vm_compute|].
  apply (key_in_use_is_the_stored_key chrome 5 None [TypeKey [65; 73]; SaveKey true]%N);
    by vm_compute.
Defined.

(** X18: a reload finds the component where it was: mounting again on the
    store a run left behind gives the same [hasApiKey], and the same key
    when there is one. *)
Theorem stored_key_survives_reload (B : Browser) (t0 t1 : nat) (st : option (list N))
    (evs : list AppEvent) (a : App) :
  app_run B (mount t0 st) evs = Some a ->
  hasApiKey (mount t1 (localStorage a)) = hasApiKey a
  /\ (hasApiKey a = true -> apiKey (mount t1 (localStorage a)) = apiKey a).
Proof.
  intros Hrun. destruct (run_key_inv _ _ _ _ _ Hrun) as [I1 I2].
  destruct (hasApiKey a) eqn:Hk.
  - destruct (I1 eq_refl) as (H1 & -> & _). unfold mount.
    by destruct (apiKey a).
  - destruct (I2 eq_refl) as (-> & [-> | ->]); by split.
Qed.

Lemma stored_key_survives_reload_witness :
  let evs := [TypeKey [65; 73]; SaveKey true; Call ClickStart]%N in
  let a := default (mount 5 None) (app_run chrome (mount 5 None) evs) in
  app_run chrome (mount 5 None) evs = Some a
  /\ hasApiKey (mount 9 (localStorage a)) = hasApiKey a
  /\ (hasApiKey a = true -> apiKey (mount 9 (localStorage a)) = apiKey a).
Proof.
  split; [by vm_compute|].
  apply (stored_key_survives_reload chrome 5 9 None
           [TypeKey [65; 73]; SaveKey true; Call ClickStart]%N).
  by vm_compute.
Defined.

(** X19: [saveApiKey] refuses exactly the keys made of white space only
    (the empty key among them): an error toast, nothing stored, the
    configuration screen stays.  Any other key is stored as typed, white
    space around it included, and the call screen follows; if the store
    throws, nothing changes and no toast is shown. *)
Theorem saveApiKey_refuses_blank_keys (B : Browser) (a a' : App) (stored : bool) :
  app_step B a (SaveKey stored) = Some a' ->
  engine a' = engine a /\ apiKey a' = apiKey a
  /\ if forallb isWhiteSpace (apiKey a)
     then hasApiKey a' = false /\ localStorage a' = localStorage a
          /\ keyToasts a' = keyToasts a ++ [ToastChaveInvalida]
     else if stored
     then hasApiKey a' = true /\ localStorage a' = Some (apiKey a)
          /\ keyToasts a' = keyToasts a ++ [ToastChaveSalva]
     else hasApiKey a' = false /\ localStorage a' = localStorage a
          /\ keyToasts a' = keyToasts a.
Proof.
  intros (a1 & Hh & ->)%app_step_inv.
  rewrite commit_engine. destruct (commit_key a1) as (-> & -> & -> & ->).
  unfold app_handle in Hh. destruct (hasApiKey a) eqn:Hk; simplify_eq.
  unfold saveApiKey. pose proof (trim_nil (apiKey a)) as Ht.
  case_bool_decide as Hb.
  - rewrite (proj1 Ht Hb). by simpl.
  - destruct (forallb isWhiteSpace (apiKey a)); [by destruct Hb; apply Ht|].
    by destruct stored.
Qed.

Lemma saveApiKey_refuses_blank_keys_witness :
  let a := default (mount 5 None) (app_run chrome (mount 5 None) [TypeKey [32; 160; 9]%N]) in
  let a' := default a (app_step chrome a (SaveKey true)) in
  engine a' = engine a /\ apiKey a' = apiKey a
  /\ if forallb isWhiteSpace (apiKey a)
     then hasApiKey a' = false /\ localStorage a' = localStorage a
          /\ keyToasts a' = keyToasts a ++ [ToastChaveInvalida]
     else if true
     then hasApiKey a' = true /\ localStorage a' = Some (apiKey a)
          /\ keyToasts a' = keyToasts a ++ [ToastChaveSalva]
     else hasApiKey a' = false /\ localStorage a' = localStorage a
          /\ keyToasts a' = keyToasts a.
Proof.
  apply (saveApiKey_refuses_blank_keys chrome
           (default (mount 5 None) (app_run chrome (mount 5 None) [TypeKey [32; 160; 9]%N]))
           _ true).
  by vm_compute.
Defined.

(** ** No call without a key *)

Lemma step_pristine B w e w' :
  pristine w -> is_click e = false -> step B w e = Some w' -> pristine w'.
Proof.
  unfold pristine. generalize (now w). intros n -> He (w1 & Hh & ->)%step_inv.
  destruct e; try done; unfold handle in Hh; simpl in Hh; try done.
  by simplify_eq.
Qed.

Lemma app_step_locked B a e a' : locked a -> app_step B a e = Some a' -> locked a'.
Proof.
  intros I (a1 & Hh & ->)%app_step_inv.
  assert (locked a1) as I1.
  { destruct e as [s|stored|i|e]; unfold app_handle in Hh.
    - destruct (hasApiKey a) eqn:Hk; simplify_eq. intros _. by apply I.
    - destruct (hasApiKey a) eqn:Hk; simplify_eq. unfold saveApiKey.
      case_bool_decide; [|destruct stored]; intros Hk'; simpl in *; try done;
        by apply I.
    - destruct (intervals a !! i) as [iv|] eqn:Hi; [|done].
      intros Hk. case_match; simplify_eq. simpl in Hk.
      destruct (I Hk) as (_ & Hn & _). by rewrite Hn in Hi.
    - destruct (is_click e && negb (hasApiKey a)) eqn:Hc; [done|].
      destruct (step B (engine a) e) as [w1|] eqn:Hs; simplify_eq/=.
      intros Hk. simpl in *. rewrite Hk, andb_true_r in Hc.
      destruct (I Hk) as (Hp & ? & ? & ?). split_and!; try done.
      by eapply step_pristine. }
  intros Hk. destruct (commit_key a1) as (_ & Hk1 & _). rewrite Hk1 in Hk.
  destruct (I1 Hk) as (Hp & Hi & Hr & Hd).
  assert (commit a1 = a1) as ->; [|done].
  unfold commit. rewrite Hd.
  assert (callState (engine a1) = idleCallState) as -> by (by rewrite Hp).
  by simpl.
Qed.

(** X20: as long as no key is present, nothing of the call engine has run:
    the configuration screen shows no call button, so the engine is as at
    mount, its clock apart (no socket, no stream, no pending continuation,
    nothing sent, no toast), and no duration timer exists. *)
Theorem no_call_without_a_key (B : Browser) (t0 : nat) (st : option (list N))
    (evs : list AppEvent) (a : App) :
  app_run B (mount t0 st) evs = Some a ->
  hasApiKey a = false ->
  engine a = set_now (fun _ => now (engine a)) init /\ intervals a = [].
Proof.
  intros Hrun Hk.
  assert (locked a) as I.
  { eapply (app_run_invariant B locked); [|idtac|exact Hrun].
    - intros. by eapply app_step_locked.
    - unfold locked, mount. destruct st as [[|c k]|]; simpl; try done. }
  destruct (I Hk) as (Hp & Hi & _). by split.
Qed.

Lemma no_call_without_a_key_witness :
  let evs := [TypeKey [32]%N; SaveKey true; Call (Advance 7); TypeKey [65]%N; SaveKey false] in
  let a := default (mount 5 None) (app_run chrome (mount 5 None) evs) in
  app_run chrome (mount 5 None) evs = Some a
  /\ hasApiKey a = false
  /\ engine a = set_now (fun _ => now (engine a)) init /\ intervals a = [].
Proof.
  split; [by vm_compute|]. split; [by vm_compute|].
  apply (no_call_without_a_key chrome 5 None
           [TypeKey [32]%N; SaveKey true; Call (Advance 7); TypeKey [65]%N; SaveKey false]);
    by vm_compute.
Defined.

Lemma app_step_key_kept B a e a' :
  app_step B a e = Some a' -> hasApiKey a = true ->
  hasApiKey a' = true /\ apiKey a' = apiKey a /\ localStorage a' = localStorage a.
Proof.
  intros (a1 & Hh & ->)%app_step_inv Hk.
  destruct (commit_key a1) as (-> & -> & -> & _).
  destruct e as [s|stored|i|e]; unfold app_handle in Hh; rewrite ?Hk in Hh; try done.
  - repeat case_match; simplify_eq/=; by split_and!.
  - destruct (is_click e && negb true); [done|].
    destruct (step B (engine a) e); simplify_eq/=; by split_and!.
Qed.

(** X21: a key, once present, stays: the component offers no way to change
    or remove it.  From any state with [hasApiKey], every run keeps
    [hasApiKey], the key and the stored item as they are. *)
Theorem saved_key_is_permanent (B : Browser) (a a' : App) (evs : list AppEvent) :
  hasApiKey a = true ->
  app_run B a evs = Some a' ->
  hasApiKey a' = true /\ apiKey a' = apiKey a /\ localStorage a' = localStorage a.
Proof.
  revert a. induction evs as [|e evs IH]; intros a Hk Hrun; simpl in Hrun.
  - by simplify_eq.
  - destruct (app_step B a e) as [a1|] eqn:Hs; simpl in Hrun; [|done].
    destruct (app_step_key_kept _ _ _ _ Hs Hk) as (H1 & H2 & H3).
    destruct (IH _ H1 Hrun) as (? & ? & ?). split_and!; congruence.
Qed.

Lemma saved_key_is_permanent_witness :
  let a := mount 5 (Some [65; 66]%N) in
  let evs := [Call ClickStart; Call (PermissionResult 0 (Some granted)); Call ClickEnd] in
  let a' := default a (app_run chrome a evs) in
  hasApiKey a' = true /\ apiKey a' = apiKey a /\ localStorage a' = localStorage a.
Proof.
  apply (saved_key_is_permanent chrome (mount 5 (Some [65; 66]%N)) _
           [Call ClickStart; Call (PermissionResult 0 (Some granted)); Call ClickEnd]);
    by vm_compute.
Defined.

(** ** The duration timer *)

Lemma step_clock B t0 w e w' :
  clock_inv t0 w -> step B w e = Some w' -> clock_inv t0 w'.
Proof.
  intros [I1 I2] (w1 & Hh & ->)%step_inv.
  unfold clock_inv. autorewrite with render.
  destruct e; unfold handle in Hh; repeat case_match; simplify_eq.
  all: unfold_handlers; repeat case_match; simplify_eq.
  all: fields.
  all: split; [try done; lia | try done; intros t1 Ht1; simplify_eq; try lia].
  all: specialize (I2 _ Ht1); lia.
Qed.

(** A task of the engine leaves [duration] alone or resets the session. *)
Lemma step_duration B w e w' :
  step B w e = Some w' ->
  callState w' = idleCallState
  \/ (duration (callState w') = duration (callState w)
      /\ (isActive (callState w') = false -> isActive (callState w) = false)).
Proof.
  intros (w1 & Hh & ->)%step_inv. autorewrite with render.
  destruct e; unfold handle in Hh; repeat case_match; simplify_eq.
  all: unfold_handlers; repeat case_match; simplify_eq.
  all: fields.
  all: first [by left | by right].
Qed.

Lemma cleanup_cleared a :
  timer_inv a ->
  timerRef (timer_cleanup a) = timerRef a
  /\ forall i iv, intervals (timer_cleanup a) !! i = Some iv -> iv_cleared iv = true.
Proof.
  intros (I1 & I2 & I3). unfold timer_cleanup, clearInterval.
  destruct (timerRef a) as [j|] eqn:Hj; simpl; (split; [done|]); intros i iv Hi.
  - destruct (decide (i = j)) as [->|Hne].
    + rewrite list_lookup_alter_eq in Hi.
      destruct (intervals a !! j); simplify_eq/=. done.
    + rewrite list_lookup_alter_ne in Hi by done.
      destruct (iv_cleared iv) eqn:Hc; [done|].
      destruct (I1 _ _ Hi Hc) as [? _]. congruence.
  - destruct (iv_cleared iv) eqn:Hc; [done|].
    destruct (I1 _ _ Hi Hc) as [? _]. congruence.
Qed.

Lemma commit_timer_inv a :
  timer_inv a ->
  (forall t, startTime (callState (engine a)) = Some t -> t <= now (engine a)) ->
  timer_inv (commit a) /\ deps_current (commit a).
Proof.
  intros I Hnow. unfold commit. case_bool_decide as Hd.
  { split; [done|]. by unfold deps_current. }
  destruct (cleanup_cleared a I) as [Hr Hc].
  assert (engine (timer_cleanup a) = engine a) as He.
  { unfold timer_cleanup, clearInterval. by destruct (timerRef a). }
  unfold timer_effect. rewrite He, Hr.
  destruct (isActive (callState (engine a))) eqn:Ha; simpl;
    [destruct (startTime (callState (engine a))) as [t|] eqn:Ht; simpl;
       [destruct (t =? 0)%nat eqn:Hz; simpl|]|].
  2:{ (* a call with a start time: a new timer *)
      apply Nat.eqb_neq in Hz.
      split; [|by unfold deps_current; simpl; rewrite ?He, Ha, Ht].
      unfold timer_inv. simpl. split_and!.
      - intros i iv [Hi|[Hlen Hi]]%lookup_app_Some Hl.
        + apply Hc in Hi. congruence.
        + apply list_lookup_singleton_Some in Hi as [Hi <-]. simpl.
          pose proof (Hnow t eq_refl).
          split_and!; try done; [|lia].
          assert (i = length (intervals (timer_cleanup a))) as -> by lia. done.
      - intros i [= <-]. eexists.
        split; [by rewrite lookup_app_r, Nat.sub_diag|done].
      - done. }
  all: destruct (timerRef a) as [j|] eqn:Hj.
  all: split; [|unfold deps_current; simpl; rewrite ?He, Ha, ?Ht; done].
  all: unfold timer_inv; simpl; rewrite ?Hr, ?Hj; split_and!.
  all: try done.
  all: try (intros t' [= <-] Hne; apply Nat.eqb_eq in Hz; done).
  all: intros i iv Hi Hl; exfalso.
  all: try (apply Hc in Hi; congruence).
  all: destruct (decide (i = j)) as [->|Hne];
    [ rewrite list_lookup_alter_eq in Hi;
      destruct (intervals (timer_cleanup a) !! j); simplify_eq/=; done
    | rewrite list_lookup_alter_ne in Hi by done; apply Hc in Hi; congruence ].
Qed.

Lemma tick_callState s w :
  callState (render (tick s w))
  = with_duration (formatDuration (Z.of_nat (now w) - Z.of_nat s)) (callState w).
Proof. by rewrite render_callState. Qed.

Lemma timer_inv_reschedule a i iv due :
  timer_inv a -> intervals a !! i = Some iv -> iv_cleared iv = false ->
  iv_startTime iv + 1000 <= due ->
  forall f,
    timer_inv (set_engine f
                 (set_intervals
                    (alter (fun iv => mkInterval (iv_startTime iv) due false) i) a)).
Proof.
  intros (I1 & I2 & I3) Hi Hl Hdue f. unfold timer_inv. simpl. split_and!; [| |done].
  - intros i' iv' Hi' Hl'. destruct (decide (i' = i)) as [->|Hne].
    + rewrite list_lookup_alter_eq, Hi in Hi'. simplify_eq/=.
      destruct (I1 _ _ Hi Hl) as (? & ? & ? & ?). by split_and!.
    + rewrite list_lookup_alter_ne in Hi' by done. by apply I1.
  - intros j Hj. destruct (decide (j = i)) as [->|Hne].
    + rewrite list_lookup_alter_eq, Hi. simpl. by eexists.
    + rewrite list_lookup_alter_ne by done. by apply I2.
Qed.

Lemma app_step_shell_inv B t0 a e a' :
  shell_inv t0 a -> app_step B a e = Some a' -> shell_inv t0 a'.
Proof.
  intros (I1 & I2 & I3 & I4 & I5) (a1 & Hh & ->)%app_step_inv.
  assert (timer_inv a1 /\ clock_inv t0 (engine a1) /\ duration_inv (engine a1)
          /\ lifecycle (engine a1))
    as (J1 & J3 & J4 & J5).
  { destruct e as [s|stored|i|e]; unfold app_handle in Hh.
    - destruct (hasApiKey a); by simplify_eq.
    - destruct (hasApiKey a); simplify_eq. unfold saveApiKey.
      by repeat case_match.
    - destruct (intervals a !! i) as [iv|] eqn:Hi; [|done].
      destruct (iv_cleared iv) eqn:Hl; simpl in Hh; [done|].
      case_match; simplify_eq.
      pose proof I1 as (K1 & _). destruct (K1 _ _ Hi Hl) as (_ & _ & Hd & _).
      rewrite I2 in Hd. injection Hd as Ha Hs.
      split.
      { eapply timer_inv_reschedule; try done.
        destruct I3 as [_ I3]. specialize (I3 _ Hs). lia. }
      unfold clock_inv, duration_inv, lifecycle. simpl.
      rewrite tick_callState, render_now, render_showCallModal.
      simpl. split; [done|]. split; [by rewrite Ha|done].
    - destruct (is_click e && negb (hasApiKey a)); [done|].
      destruct (step B (engine a) e) as [w1|] eqn:Hs; simplify_eq/=.
      split; [done|]. split; [by eapply step_clock|].
      split; [|by eapply step_lifecycle].
      unfold duration_inv. destruct (step_duration _ _ _ _ Hs) as [->|[-> Hact]]; [done|].
      intros Hf. by apply I4, Hact. }
  destruct (commit_timer_inv a1 J1) as [K1 K2].
  { intros t Ht. by apply J3. }
  unfold shell_inv. rewrite commit_engine. done.
Qed.

Lemma mount_shell_inv t0 st : shell_inv t0 (mount t0 st).
Proof.
  unfold shell_inv, mount, timer_inv, deps_current, clock_inv, duration_inv, lifecycle.
  destruct st as [[|c k]|]; simpl; split_and!; try done.
  all: try (by intros i iv Hi; rewrite lookup_nil in Hi).
  all: by intros [].
Qed.

Lemma run_shell_inv B t0 st evs a :
  app_run B (mount t0 st) evs = Some a -> shell_inv t0 a.
Proof.
  intros Hrun. eapply (app_run_invariant B (shell_inv t0)); [|apply mount_shell_inv|done].
  intros. by eapply app_step_shell_inv.
Qed.

Lemma filter_none {A} (P : A -> bool) (l : list A) :
  (forall i x, l !! i = Some x -> P x = false) -> List.filter P l = [].
Proof.
  induction l as [|x l IH]; intros H; simpl; [done|].
  rewrite (H 0 x eq_refl). apply IH. intros i y Hy. by apply (H (S i)).
Qed.

Lemma filter_at_most_one {A} (P : A -> bool) (l : list A) j :
  (forall i x, l !! i = Some x -> P x = true -> i = j) ->
  length (List.filter P l) <= 1.
Proof.
  revert j. induction l as [|x l IH]; intros j H; simpl; [lia|].
  destruct (P x) eqn:Hx.
  - rewrite filter_none; [simpl; lia|].
    intros i y Hy. destruct (P y) eqn:HPy; [|done].
    pose proof (H 0 x eq_refl Hx). pose proof (H (S i) y Hy HPy). lia.
  - destruct j as [|j].
    + rewrite filter_none; [simpl; lia|].
      intros i y Hy. destruct (P y) eqn:HPy; [|done].
      pose proof (H (S i) y Hy HPy). lia.
    + apply (IH j). intros i y Hy HPy. pose proof (H (S i) y Hy HPy). lia.
Qed.

Lemma filter_lookup_elem {A} (P : A -> bool) (l : list A) i x :
  l !! i = Some x -> P x = true -> 0 < length (List.filter P l).
Proof.
  revert i. induction l as [|y l IH]; intros [|i] Hi Hx; simplify_eq/=.
  - rewrite Hx. simpl. lia.
  - destruct (P y); simpl; [lia|]. by eapply IH.
Qed.

(** X22: with the clock past zero at mount, the component keeps exactly one
    duration timer while a call is active and none otherwise, in every run;
    and the running timer closed over the start time of the call that is
    active: ending a call, or starting one while another is active, clears
    the timer of the earlier call. *)
Theorem one_duration_timer (B : Browser) (t0 : nat) (st : option (list N))
    (evs : list AppEvent) (a : App) :
  0 < t0 ->
  app_run B (mount t0 st) evs = Some a ->
  length (live a) = (if isActive (callState (engine a)) then 1 else 0)
  /\ (forall iv, iv ∈ live a ->
        startTime (callState (engine a)) = Some (iv_startTime iv)).
Proof.
  intros Ht0 Hrun.
  destruct (run_shell_inv _ _ _ _ _ Hrun)
    as ((I1 & I2 & I3) & Hd & (Hn & Hs) & _ & (_ & Hlc & _)).
  unfold deps_current in Hd. unfold live. split.
  - assert (length (List.filter (fun iv => negb (iv_cleared iv)) (intervals a)) <= 1)
      as Hle.
    { destruct (timerRef a) as [j|] eqn:Hj.
      - apply (filter_at_most_one _ _ j). intros i iv Hi Hl.
        apply negb_true_iff in Hl. destruct (I1 _ _ Hi Hl) as [? _]. congruence.
      - rewrite filter_none; [simpl; lia|]. intros i iv Hi.
        destruct (iv_cleared iv) eqn:Hl; [done|].
        destruct (I1 _ _ Hi Hl) as [? _]. congruence. }
    destruct (isActive (callState (engine a))) eqn:Ha.
    + destruct (startTime (callState (engine a))) as [t|] eqn:Hst.
      * pose proof (Hs t eq_refl).
        destruct (I3 t Hd) as [j Hj]; [lia|].
        destruct (I2 _ Hj) as (iv & Hi & Hl).
        pose proof (filter_lookup_elem (fun iv => negb (iv_cleared iv)) _ _ _ Hi) as Hpos.
        simpl in Hpos. rewrite Hl in Hpos. specialize (Hpos eq_refl). lia.
      * destruct (proj1 Hlc eq_refl) as [? ?]. done.
    + rewrite filter_none; [done|]. intros i iv Hi.
      destruct (iv_cleared iv) eqn:Hl; [done|].
      destruct (I1 _ _ Hi Hl) as (_ & _ & Hd' & _). congruence.
  - intros iv [Hin Hl]%list_elem_of_In%filter_In.
    apply list_elem_of_In, list_elem_of_lookup in Hin as [i Hi].
    apply negb_true_iff in Hl. destruct (I1 _ _ Hi Hl) as (_ & _ & Hd' & _).
    rewrite Hd in Hd'. by injection Hd' as _ ->.
Qed.

Lemma one_duration_timer_witness :
  let evs := [Call ClickStart; Call (PermissionResult 0 (Some granted));
              Call (Advance 1000); Tick 0] in
  let a := default (mount 5 (Some [65]%N)) (app_run chrome (mount 5 (Some [65]%N)) evs) in
  0 < 5
  /\ app_run chrome (mount 5 (Some [65]%N)) evs = Some a
  /\ length (live a) = (if isActive (callState (engine a)) then 1 else 0)
  /\ (forall iv, iv ∈ live a ->
        startTime (callState (engine a)) = Some (iv_startTime iv)).
Proof.
  split; [lia|]. split; [by vm_compute|].
  apply (one_duration_timer chrome 5 (Some [65]%N)
           [Call ClickStart; Call (PermissionResult 0 (Some granted));
            Call (Advance 1000); Tick 0]); [lia|by vm_compute].
Defined.

(** X23: outside a call the duration shows "00:00", in every run.  A tick
    of the timer comes only during a call, a second or more after its
    start, and sets the duration to the text for the time since the start
    of the call that is active, leaving the rest of the call state as it
    was. *)
Theorem duration_shows_the_active_call (B : Browser) (t0 : nat) (st : option (list N))
    (evs : list AppEvent) (a : App) :
  app_run B (mount t0 st) evs = Some a ->
  (isActive (callState (engine a)) = false -> duration (callState (engine a)) = "00:00")
  /\ (forall i a',
        app_step B a (Tick i) = Some a' ->
        exists t,
          isActive (callState (engine a)) = true
          /\ startTime (callState (engine a)) = Some t
          /\ t + 1000 <= now (engine a)
          /\ callState (engine a')
             = with_duration
                 (formatDuration (Z.of_nat (now (engine a)) - Z.of_nat t))
                 (callState (engine a))).
Proof.
  intros Hrun.
  destruct (run_shell_inv _ _ _ _ _ Hrun) as ((I1 & _) & Hd & _ & Hdur & _).
  split; [exact Hdur|].
  intros i a' (a1 & Hh & ->)%app_step_inv. rewrite commit_engine.
  unfold app_handle in Hh.
  destruct (intervals a !! i) as [iv|] eqn:Hi; [|done].
  destruct (iv_cleared iv) eqn:Hl; simpl in Hh; [done|].
  destruct (iv_due iv <=? now (engine a))%nat eqn:Hdue; simplify_eq.
  apply Nat.leb_le in Hdue.
  destruct (I1 _ _ Hi Hl) as (_ & _ & Hd' & Hmin).
  rewrite Hd in Hd'. injection Hd' as Ha Hs.
  exists (iv_startTime iv). simpl. rewrite tick_callState.
  split_and!; try done. lia.
Qed.

Lemma duration_shows_the_active_call_witness :
  let evs := [Call ClickStart; Call (PermissionResult 0 (Some granted));
              Call (Advance 3000)] in
  let a := default (mount 5 (Some [65]%N)) (app_run chrome (mount 5 (Some [65]%N)) evs) in
  app_run chrome (mount 5 (Some [65]%N)) evs = Some a
  /\ (isActive (callState (engine a)) = false -> duration (callState (engine a)) = "00:00")
  /\ (forall i a',
        app_step chrome a (Tick i) = Some a' ->
        exists t,
          isActive (callState (engine a)) = true
          /\ startTime (callState (engine a)) = Some t
          /\ t + 1000 <= now (engine a)
          /\ callState (engine a')
             = with_duration
                 (formatDuration (Z.of_nat (now (engine a)) - Z.of_nat t))
                 (callState (engine a))).
Proof.
  split; [by vm_compute|].
  apply (duration_shows_the_active_call chrome 5 (Some [65]%N)
           [Call ClickStart; Call (PermissionResult 0 (Some granted));
            Call (Advance 3000)]).
  by vm_compute.
Defined.

(** ** The text of the duration *)

Lemma string_app_length (s t : string) :
  String.length (s +:+ t) = String.length s + String.length t.
Proof. induction s as [|c s IH]; simpl; [done|]. by rewrite IH. Qed.

Lemma string_app_inj (s1 s2 t1 t2 : string) :
  String.length s1 = String.length s2 ->
  s1 +:+ t1 = s2 +:+ t2 -> s1 = s2 /\ t1 = t2.
Proof.
  revert s2. induction s1 as [|c s1 IH]; intros [|d s2] Hlen H; simplify_eq/=; [done|].
  destruct (IH s2) as [-> ->]; done.
Qed.

Lemma pretty_N_go_length x s : String.length s <= String.length (pretty_N_go x s).
Proof.
  revert s. induction (N.lt_wf_0 x) as [x _ IH]; intros s.
  destruct (decide (x = 0)%N) as [->|Hx]; [by rewrite pretty_N_go_0|].
  rewrite pretty_N_go_step by lia.
  etrans; [|apply IH; apply N.div_lt; lia]. simpl. lia.
Qed.

Lemma pretty_N_go_digit x s :
  (0 < x < 10)%N -> pretty_N_go x s = String (pretty_N_char x) s.
Proof.
  intros Hx. rewrite pretty_N_go_step by lia.
  rewrite (N.div_small x 10), (N.mod_small x 10) by lia. apply pretty_N_go_0.
Qed.

Lemma pretty_N_char_nonzero x : (0 < x < 10)%N -> pretty_N_char x <> "0"%char.
Proof.
  intros Hx.
  assert (x = 1 \/ x = 2 \/ x = 3 \/ x = 4 \/ x = 5 \/ x = 6 \/ x = 7 \/ x = 8 \/ x = 9)%N
    as Hc by lia.
  destruct_or!; by subst.
Qed.

Lemma pretty_N_go_head x s :
  (0 < x)%N -> exists c s', pretty_N_go x s = String c s' /\ c <> "0"%char.
Proof.
  revert s. induction (N.lt_wf_0 x) as [x _ IH]; intros s Hx.
  destruct (decide (x < 10)%N) as [Hlt|Hge].
  - rewrite pretty_N_go_digit by lia. eexists _, _. split; [done|].
    apply pretty_N_char_nonzero. lia.
  - rewrite pretty_N_go_step by lia. apply IH.
    + apply N.div_lt; lia.
    + apply N.div_str_pos. lia.
Qed.

Lemma pretty_N_small (x : N) : (x < 10)%N -> pretty x = String (pretty_N_char x) "".
Proof.
  intros Hx. unfold pretty, pretty_N. case_decide as H0; [by subst|].
  apply pretty_N_go_digit. lia.
Qed.

Lemma pretty_N_large (x : N) :
  (10 <= x)%N ->
  2 <= String.length (pretty x)
  /\ ((x < 100)%N -> String.length (pretty x) = 2)
  /\ ((100 <= x)%N -> 3 <= String.length (pretty x))
  /\ exists c s, pretty x = String c s /\ c <> "0"%char.
Proof.
  intros Hx. unfold pretty, pretty_N. case_decide as H0; [lia|].
  split_and!.
  - rewrite pretty_N_go_step by lia.
    rewrite pretty_N_go_step by (apply N.div_str_pos; lia).
    etrans; [|apply pretty_N_go_length]. simpl. lia.
  - intros Hlt. rewrite pretty_N_go_step by lia.
    rewrite pretty_N_go_digit; [done|].
    split; [apply N.div_str_pos; lia|apply N.Div0.div_lt_upper_bound; lia].
  - intros Hge. rewrite pretty_N_go_step by lia.
    rewrite pretty_N_go_step by (apply N.div_str_pos; lia).
    rewrite pretty_N_go_step.
    + etrans; [|apply pretty_N_go_length]. simpl. lia.
    + apply N.div_str_pos. split; [lia|]. apply N.div_le_lower_bound; lia.
  - apply pretty_N_go_head. lia.
Qed.

(** The two digits or more of a field of the duration. *)
Lemma padStart2_pretty (x : N) :
  padStart2 (pretty x)
  = if decide (x < 10)%N then String "0" (String (pretty_N_char x) "") else pretty x.
Proof.
  case_decide as Hx.
  - by rewrite pretty_N_small.
  - destruct (pretty_N_large x) as (Hlen & _); [lia|].
    unfold padStart2. destruct (String.length (pretty x)) as [|[|n]]; (lia || done).
Qed.

Lemma padStart2_pretty_length (x : N) :
  2 <= String.length (padStart2 (pretty x))
  /\ (String.length (padStart2 (pretty x)) = 2 <-> (x < 100)%N).
Proof.
  rewrite padStart2_pretty. case_decide as Hx; simpl.
  - split; [lia|]. split; [lia|done].
  - destruct (pretty_N_large x) as (H1 & H2 & H3 & _); [lia|].
    split; [done|]. split.
    + intros Hl. destruct (decide (x < 100)%N); [done|]. specialize (H3 ltac:(lia)). lia.
    + apply H2.
Qed.

Lemma padStart2_pretty_inj (x y : N) :
  padStart2 (pretty x) = padStart2 (pretty y) -> x = y.
Proof.
  rewrite !padStart2_pretty. repeat case_decide.
  - intros [= Hc]. apply pretty_N_char_inj in Hc; (done || lia).
  - destruct (pretty_N_large y) as (_ & _ & _ & c & s & -> & Hc); [lia|].
    intros [= <- _]. done.
  - destruct (pretty_N_large x) as (_ & _ & _ & c & s & -> & Hc); [lia|].
    intros [= -> _]. done.
  - apply pretty_N_inj.
Qed.

Lemma pretty_Z_nonneg (z : Z) : (0 <= z)%Z -> pretty z = pretty (Z.to_N z).
Proof. intros Hz. destruct z as [|p|p]; (done || lia). Qed.

(** The minutes and the seconds of an elapsed time that is not negative. *)
Lemma formatDuration_fields (e : Z) :
  (0 <= e)%Z ->
  formatDuration e
  = padStart2 (pretty (Z.to_N (e `div` 60000)))
    +:+ ":" +:+ padStart2 (pretty (Z.to_N ((e `mod` 60000) `div` 1000))).
Proof.
  intros He. unfold formatDuration. rewrite Z.rem_mod_nonneg by lia.
  rewrite !pretty_Z_nonneg; [done| |].
  - apply Z.div_pos; [|lia]. apply Z.mod_pos_bound. lia.
  - apply Z.div_pos; lia.
Qed.

Lemma seconds_field (e : Z) :
  (0 <= e)%Z -> (0 <= (e `mod` 60000) `div` 1000 < 60)%Z.
Proof.
  intros He. pose proof (Z.mod_pos_bound e 60000 ltac:(lia)).
  split; [apply Z.div_pos; lia|]. apply Z.div_lt_upper_bound; lia.
Qed.

Lemma whole_seconds (e : Z) :
  (0 <= e)%Z ->
  (e `div` 1000 = 60 * (e `div` 60000) + (e `mod` 60000) `div` 1000)%Z.
Proof.
  intros He.
  pose proof (Z.div_mod e 60000 ltac:(lia)) as H1.
  pose proof (Z.mod_pos_bound e 60000 ltac:(lia)) as H2.
  rewrite H1 at 1.
  replace (60000 * (e `div` 60000) + e `mod` 60000)%Z
    with ((e `mod` 60000) + (60 * (e `div` 60000)) * 1000)%Z by lia.
  rewrite Z.div_add by lia. lia.
Qed.

Lemma formatDuration_inj (e1 e2 : Z) :
  (0 <= e1)%Z -> (0 <= e2)%Z ->
  formatDuration e1 = formatDuration e2 ->
  (e1 `div` 60000 = e2 `div` 60000
   /\ (e1 `mod` 60000) `div` 1000 = (e2 `mod` 60000) `div` 1000)%Z.
Proof.
  intros H1 H2. rewrite !formatDuration_fields by done.
  pose proof (seconds_field e1 H1) as S1. pose proof (seconds_field e2 H2) as S2.
  pose proof (Z.div_pos e1 60000 H1 ltac:(lia)) as M1.
  pose proof (Z.div_pos e2 60000 H2 ltac:(lia)) as M2.
  set (m1 := Z.to_N (e1 `div` 60000)). set (m2 := Z.to_N (e2 `div` 60000)).
  set (s1 := Z.to_N ((e1 `mod` 60000) `div` 1000)).
  set (s2 := Z.to_N ((e2 `mod` 60000) `div` 1000)).
  intros Heq.
  assert (String.length (padStart2 (pretty s1)) = 2) as L1
    by (apply padStart2_pretty_length; subst s1; lia).
  assert (String.length (padStart2 (pretty s2)) = 2) as L2
    by (apply padStart2_pretty_length; subst s2; lia).
  pose proof (f_equal String.length Heq) as Hlen.
  rewrite !string_app_length, L1, L2 in Hlen. simpl in Hlen.
  apply string_app_inj in Heq as [Hm Hs]; [|lia].
  injection Hs as Hs.
  apply padStart2_pretty_inj in Hm, Hs. subst m1 m2 s1 s2. lia.
Qed.

(** X24: for an elapsed time that is not negative, the duration text tells
    the whole seconds elapsed and nothing else: two times show the same
    text exactly when they lie in the same second.  The text has five
    characters, "mm:ss", as long as the call is shorter than a hundred
    minutes; after that the minutes take more digits (there is no field for
    hours).  It is "00:00" exactly during the first second. *)
Theorem formatDuration_shows_whole_seconds (e1 e2 : Z) :
  (0 <= e1)%Z -> (0 <= e2)%Z ->
  (formatDuration e1 = formatDuration e2 <-> (e1 `div` 1000 = e2 `div` 1000)%Z)
  /\ (String.length (formatDuration e1) = 5 <-> (e1 < 6000000)%Z)
  /\ (formatDuration e1 = "00:00" <-> (e1 < 1000)%Z).
Proof.
  intros H1 H2.
  assert (Hiff : forall a b, (0 <= a)%Z -> (0 <= b)%Z ->
            formatDuration a = formatDuration b <-> (a `div` 1000 = b `div` 1000)%Z).
  { intros a b Ha Hb. split.
    - intros [Hm Hs]%formatDuration_inj; [|done..].
      rewrite (whole_seconds a), (whole_seconds b) by done. lia.
    - intros Hd.
      assert ((a `div` 60000 = b `div` 60000)%Z) as Hm.
      { replace 60000%Z with (1000 * 60)%Z by done.
        rewrite <- !Z.div_div by lia. by rewrite Hd. }
      assert (((a `mod` 60000) `div` 1000 = (b `mod` 60000) `div` 1000)%Z) as Hs.
      { pose proof (whole_seconds a Ha). pose proof (whole_seconds b Hb). lia. }
      rewrite !formatDuration_fields by done. by rewrite Hm, Hs. }
  split; [by apply Hiff|]. split.
  - rewrite formatDuration_fields by done. rewrite !string_app_length.
    pose proof (seconds_field e1 H1) as S1.
    pose proof (Z.div_pos e1 60000 H1 ltac:(lia)) as M1.
    destruct (padStart2_pretty_length (Z.to_N (e1 `div` 60000))) as [A1 A2].
    destruct (padStart2_pretty_length (Z.to_N ((e1 `mod` 60000) `div` 1000)))
      as [B1 B2].
    assert (String.length
              (padStart2 (pretty (Z.to_N ((e1 `mod` 60000) `div` 1000)))) = 2) as ->
      by (apply B2; lia).
    simpl. split.
    + intros Hl. assert ((Z.to_N (e1 `div` 60000) < 100)%N) as Hm by (apply A2; lia).
      assert ((e1 `div` 60000 < 100)%Z) as Hm' by lia.
      pose proof (Z.div_mod e1 60000 ltac:(lia)).
      pose proof (Z.mod_pos_bound e1 60000 ltac:(lia)). lia.
    + intros Hlt. assert ((e1 `div` 60000 < 100)%Z) as Hm
        by (apply Z.div_lt_upper_bound; lia).
      assert (String.length (padStart2 (pretty (Z.to_N (e1 `div` 60000)))) = 2) as ->
        by (apply A2; lia).
      done.
  - change "00:00" with (formatDuration 0). rewrite Hiff by done.
    change (0 `div` 1000)%Z with 0%Z. split.
    + intros Hd. apply Z.div_small_iff in Hd; lia.
    + intros Hlt. apply Z.div_small. lia.
Qed.

Lemma formatDuration_shows_whole_seconds_witness :
  (0 <= 61500)%Z /\ (0 <= 61999)%Z
  /\ (formatDuration 61500 = formatDuration 61999
      <-> (61500 `div` 1000 = 61999 `div` 1000)%Z)
  /\ (String.length (formatDuration 61500) = 5 <-> (61500 < 6000000)%Z)
  /\ (formatDuration 61500 = "00:00" <-> (61500 < 1000)%Z).
Proof.
  split; [lia|]. split; [lia|].
  apply (formatDuration_shows_whole_seconds 61500 61999); lia.
Defined.

(** * Properties of the earlier revision *)

Arguments Legacy.handle : simpl never.
Arguments Legacy.step : simpl never.

Lemma legacy_step_inv B w e w' :
  Legacy.step B w e = Some w' ->
  exists w1, Legacy.handle B e w = Some w1 /\ w' = render w1.
Proof.
  unfold Legacy.step. destruct (Legacy.handle B e w) as [w1|]; simpl; [|done].
  intros [= <-]. eauto.
Qed.

Lemma legacy_run_invariant B (P : World -> Prop) :
  (forall w e w', P w -> Legacy.step B w e = Some w' -> P w') ->
  forall evs w w', P w -> Legacy.run B w evs = Some w' -> P w'.
Proof.
  intros Hstep evs. induction evs as [|e evs IH]; intros w w' HP Hrun; simpl in Hrun.
  - by simplify_eq.
  - destruct (Legacy.step B w e) as [w1|] eqn:Hs; simpl in Hrun; [|done].
    eapply IH; [|done]. by eapply Hstep.
Qed.

Ltac legacy_endCall_paths w :=
  unfold Legacy.endCall;
  destruct (wsRef w) eqn:?; simpl;
  destruct (mediaStreamRef w) eqn:?; simpl.

Lemma legacy_endCall_fields w :
  callState (Legacy.endCall w) = idleCallState
  /\ showCallModal (Legacy.endCall w) = false
  /\ conversation (Legacy.endCall w) = []
  /\ isRecording (Legacy.endCall w) = false
  /\ wsRef (Legacy.endCall w) = None
  /\ mediaStreamRef (Legacy.endCall w) = None
  /\ mediaRecorderRef (Legacy.endCall w) = mediaRecorderRef w
  /\ wire (Legacy.endCall w) = wire w
  /\ tasks (Legacy.endCall w) = tasks w
  /\ console (Legacy.endCall w) = console w
  /\ toasts (Legacy.endCall w) = toasts w ++ [ToastChamadaEncerrada]
  /\ length (sockets (Legacy.endCall w)) = length (sockets w)
  /\ length (streams (Legacy.endCall w)) = length (streams w)
  /\ length (recorders (Legacy.endCall w)) = length (recorders w).
Proof. legacy_endCall_paths w; lengths; by split_and!. Qed.

Lemma legacy_endCall_audio w :
  legacy_inv w -> legacy_inv (Legacy.endCall w).
Proof.
  intros (I1 & I2 & I3). unfold legacy_inv.
  destruct (legacy_endCall_fields w)
    as (_ & _ & _ & _ & _ & _ & -> & -> & _ & _ & _ & _ & _ & E).
  split_and!; try done. rewrite I2 in E. by destruct (recorders (Legacy.endCall w)).
Qed.

Opaque Legacy.endCall.

Lemma legacy_playAudioResponse_frame B d m w :
  wire (Legacy.playAudioResponse B d m w) = wire w
  /\ recorders (Legacy.playAudioResponse B d m w) = recorders w
  /\ mediaRecorderRef (Legacy.playAudioResponse B d m w) = mediaRecorderRef w.
Proof.
  unfold Legacy.playAudioResponse.
  destruct (atob B d); [|done]. by destruct (audioFacility B m) as [| |[]].
Qed.

Lemma legacy_on_parts_frame B env ps w :
  wire (Legacy.on_parts B env ps w) = wire w
  /\ recorders (Legacy.on_parts B env ps w) = recorders w
  /\ mediaRecorderRef (Legacy.on_parts B env ps w) = mediaRecorderRef w.
Proof.
  unfold Legacy.on_parts.
  destruct (List.find is_audio_part ps) as [ap|]; [destruct (speakerEnabled env)|].
  1: destruct (legacy_playAudioResponse_frame B (part_data ap) (part_mimeType ap)
         match List.find truthy_text ps with
         | Some textPart =>
             setConversation
               (fun prev => prev ++ [mkMessage AI (part_text textPart) (now w)]) w
         | None => w
         end) as (-> & -> & ->).
  all: by destruct (List.find truthy_text ps).
Qed.

Lemma legacy_step_inv_audio B w e w' :
  legacy_inv w -> Legacy.step B w e = Some w' -> legacy_inv w'.
Proof.
  intros (I1 & I2 & I3) (w1 & Hh & ->)%legacy_step_inv.
  unfold legacy_inv. autorewrite with render.
  destruct e; unfold Legacy.handle in Hh; repeat case_match; simplify_eq.
  all: unfold Legacy.startCall, Legacy.startCall_media, Legacy.onopen, Legacy.onmessage,
         Legacy.play_done in *.
  all: unfold_handlers; repeat case_match; simplify_eq.
  all: rewrite ?(proj1 (legacy_on_parts_frame _ _ _ _)),
         ?(proj1 (proj2 (legacy_on_parts_frame _ _ _ _))),
         ?(proj2 (proj2 (legacy_on_parts_frame _ _ _ _))).
  all: try (apply legacy_endCall_audio; by split_and!).
  all: simpl; rewrite ?(proj1 (legacy_on_parts_frame _ _ _ _)),
         ?(proj1 (proj2 (legacy_on_parts_frame _ _ _ _))),
         ?(proj2 (proj2 (legacy_on_parts_frame _ _ _ _))).
  all: split_and!; try done.
  all: apply Forall_app; split; [done|]; by repeat constructor.
Qed.

(** X25: the earlier revision never sends the microphone: on every run the
    only frames on the wire are setup messages, no recorder is created, and
    no recorder is referenced. *)
Theorem legacy_never_sends_audio (B : Browser) (evs : list Event) (w : World) :
  Legacy.run B init evs = Some w ->
  Forall (fun x => x.2 = SetupMessage) (wire w)
  /\ recorders w = [] /\ mediaRecorderRef w = None.
Proof.
  intros Hrun. change (legacy_inv w).
  eapply (legacy_run_invariant B legacy_inv); [|idtac|exact Hrun].
  - intros. by eapply legacy_step_inv_audio.
  - unfold legacy_inv. simpl. by split_and!.
Qed.

Lemma legacy_never_sends_audio_witness :
  let evs := [ClickStart; UserMediaResult 0 (MediaGranted 1); WsOpen 0;
              WsMessage 0 ack; WsMessage 0 content; Advance 1000] in
  let w := default init (Legacy.run chrome init evs) in
  Legacy.run chrome init evs = Some w
  /\ Forall (fun x => x.2 = SetupMessage) (wire w)
  /\ recorders w = [] /\ mediaRecorderRef w = None.
Proof.
  split; [by vm_compute|].
  apply (legacy_never_sends_audio chrome
           [ClickStart; UserMediaResult 0 (MediaGranted 1); WsOpen 0;
            WsMessage 0 ack; WsMessage 0 content; Advance 1000]).
  by vm_compute.
Defined.

(** X26: in the earlier revision the setup message leaves in the task of
    the open event: when the socket that opens is the one of the call, its
    setup message is on the wire at the end of that task, the status is
    [connected] and the toast 'Conectado' is shown. *)
Theorem legacy_setup_is_sent_on_open (B : Browser) (w w' : World) (k : nat) :
  wsRef w = Some k ->
  Legacy.step B w (WsOpen k) = Some w' ->
  wire w' = wire w ++ [(k, SetupMessage)]
  /\ status (callState w') = connected
  /\ toasts w' = toasts w ++ [ToastConectado]
  /\ tasks w' = tasks w.
Proof.
  intros Hk (w1 & Hh & ->)%legacy_step_inv. autorewrite with render.
  unfold Legacy.handle in Hh. repeat case_match; simplify_eq.
  unfold Legacy.onopen, ws_send. simpl. rewrite Hk, list_lookup_alter_eq.
  match goal with H : sockets w !! k = Some _ |- _ => rewrite H end. by simpl.
Qed.

Lemma legacy_setup_is_sent_on_open_witness :
  let w := default init (Legacy.run chrome init
                           [ClickStart; UserMediaResult 0 (MediaGranted 1)]) in
  let w' := default init (Legacy.run chrome init
                            [ClickStart; UserMediaResult 0 (MediaGranted 1); WsOpen 0]) in
  wire w' = wire w ++ [(0, SetupMessage)]
  /\ status (callState w') = connected
  /\ toasts w' = toasts w ++ [ToastConectado]
  /\ tasks w' = tasks w.
Proof.
  apply (legacy_setup_is_sent_on_open chrome
           (default init (Legacy.run chrome init
                            [ClickStart; UserMediaResult 0 (MediaGranted 1)])) _ 0);
    by vm_compute.
Defined.

(** X27: [playAudioResponse] of the earlier revision makes one attempt, with
    the declared type and no other: with base64 that decodes, the declared
    type is the one candidate tried, at most one [Audio] element is
    started, of that type, and 'Error playing audio response' is logged
    unless [audio.play()] returned a promise. *)
Theorem legacy_playAudioResponse_declared_type (B : Browser) (d m bytes : string)
    (w : World) :
  atob B d = Some bytes ->
  tried (Legacy.playAudioResponse B d m w) = tried w ++ [m]
  /\ (exists l,
        audios (Legacy.playAudioResponse B d m w) = audios w ++ l
        /\ length l <= 1
        /\ Forall (fun a => a_source a = InlineAudio m) l
        /\ (l = [] <-> play_returns B m = false))
  /\ (exists c,
        console (Legacy.playAudioResponse B d m w) = console w ++ c
        /\ (c = [] <-> audioFacility B m = PlayReturns true)).
Proof.
  intros Ha. unfold Legacy.playAudioResponse, play_returns. rewrite Ha.
  destruct (audioFacility B m) as [| |[]]; simpl.
  all: split; [done|]; split.
  all: try (exists []; rewrite app_nil_r; split_and!; try done; simpl; lia).
  all: try (eexists [_]; split_and!;
            [done|simpl; lia|by repeat constructor|by split]).
  all: try (exists [ErrPlayingAudioResponse]; split; [done|]; by split).
Qed.

Lemma legacy_playAudioResponse_declared_type_witness :
  let w' := Legacy.playAudioResponse chrome "UklGRg==" "audio/pcm" init in
  tried w' = tried init ++ ["audio/pcm"]
  /\ (exists l,
        audios w' = audios init ++ l
        /\ length l <= 1
        /\ Forall (fun a => a_source a = InlineAudio "audio/pcm") l
        /\ (l = [] <-> play_returns chrome "audio/pcm" = false))
  /\ (exists c,
        console w' = console init ++ c
        /\ (c = [] <-> audioFacility chrome "audio/pcm" = PlayReturns true)).
Proof.
  apply (legacy_playAudioResponse_declared_type chrome "UklGRg==" "audio/pcm" "UklGRg==" init).
  reflexivity.
Defined.

(** X28: the earlier revision has one [catch] for every failure of
    [startCall]: when [getUserMedia] rejects, whatever the error, the toast
    is 'Falha ao iniciar a chamada', followed by [endCall]: idle defaults,
    modal closed, transcript empty, refs null, no socket created. *)
Theorem legacy_startCall_media_refused (B : Browser) (w w' : World) (t : nat)
    (r : MediaResult) :
  media_granted (UserMediaResult t r) = false ->
  Legacy.step B w (UserMediaResult t r) = Some w' ->
  callState w' = idleCallState /\ showCallModal w' = false
  /\ conversation w' = [] /\ isRecording w' = false
  /\ wsRef w' = None /\ mediaStreamRef w' = None
  /\ toasts w' = toasts w ++ [ToastErro; ToastChamadaEncerrada]
  /\ console w' = console w ++ [ErrStartingCall]
  /\ length (sockets w') = length (sockets w)
  /\ length (streams w') = length (streams w)
  /\ wire w' = wire w.
Proof.
  intros Hr (w1 & Hh & ->)%legacy_step_inv. autorewrite with render.
  destruct r as [n| |]; [done| |].
  all: unfold Legacy.handle in Hh; repeat case_match; simplify_eq.
  all: unfold Legacy.startCall_media.
  all: match goal with |- context [Legacy.endCall ?x] =>
         destruct (legacy_endCall_fields x)
           as (-> & -> & -> & -> & -> & -> & _ & -> & _ & -> & -> & -> & -> & _) end.
  all: simpl; lengths; rewrite <- app_assoc; by split_and!.
Qed.

Lemma legacy_startCall_media_refused_witness :
  let w := default init (Legacy.run chrome init [ClickStart]) in
  let w' := default init (Legacy.run chrome init
                            [ClickStart; UserMediaResult 0 OtherMediaError]) in
  callState w' = idleCallState /\ showCallModal w' = false
  /\ conversation w' = [] /\ isRecording w' = false
  /\ wsRef w' = None /\ mediaStreamRef w' = None
  /\ toasts w' = toasts w ++ [ToastErro; ToastChamadaEncerrada]
  /\ console w' = console w ++ [ErrStartingCall]
  /\ length (sockets w') = length (sockets w)
  /\ length (streams w') = length (streams w)
  /\ wire w' = wire w.
Proof.
  apply (legacy_startCall_media_refused chrome
           (default init (Legacy.run chrome init [ClickStart])) _ 0 OtherMediaError).
  - reflexivity.
  - by vm_compute.
Defined.
